(** * yacv_server: the show/remove event log, the build cache and the
    server lifecycle of [yacv_server/yacv.py] (class [YACV]) and of
    [yacv_server/server.py] (class [Server]).

    The Python methods are embedded as state-passing functions over a record
    holding the fields of the object.  Exceptions and blocking reads are
    explicit outcomes.  The geometry collaborators ([_preprocess_cad],
    [_hashcode], [tessellate], the glTF writer) and the stack inspection of
    [_find_var_name] are parameters of the development. *)

From stdpp Require Import base list strings gmap pretty.
From Stdlib Require Import Strings.Byte.

Set Default Proof Using "Type".

(** ** Python values and control outcomes *)

Definition bytes : Type := list byte.

Inductive exn : Type :=
  | AssertionError (msg : string)
  | ValueError (msg : string)
  | AttributeError (msg : string)
  | KeyError (key : string)
  | HTTPNotFound (text : string)
  | SystemExit (code : Z)
  | ExternalError (msg : string).

(** How a call ends: it returns, it raises, or it waits on a queue that no
    one will ever fill. *)
Inductive outcome (A : Type) : Type :=
  | Ret (a : A)
  | Raise (e : exn)
  | Blocks.
Arguments Ret {A} a.
Arguments Raise {A} e.
Arguments Blocks {A}.

Inductive level : Type := DEBUG | INFO | WARNING | ERROR.

(** ** Python list operations *)

Module PyList.

(** [l.remove(x)]: drops the first item equal to [x]; [None] stands for the
    [ValueError] raised when there is none. *)
Fixpoint remove {A} (eqb : A → A → bool) (x : A) (l : list A) : option (list A) :=
  match l with
  | [] => None
  | y :: l' => if eqb y x then Some l' else cons y <$> remove eqb x l'
  end.

(** [l.remove(x)] at a place where [x] was just read from [l]: the list is
    returned as it is when there is nothing to drop. *)
Definition remove_first {A} (eqb : A → A → bool) (x : A) (l : list A) : list A :=
  default l (remove eqb x l).

(** [x in l] *)
Definition contains {A} (eqb : A → A → bool) (x : A) (l : list A) : bool :=
  existsb (λ y, eqb y x) l.

End PyList.

Definition str_eqb (a b : string) : bool := bool_decide (a = b).

(** ** The broadcast buffer *)

(** Modelled from the spec: the class [BufferedPubSub] of
    [yacv_server/pubsub.py] is imported by both source files but is not among
    them.  A topic is its ordered sequence of items, append-only except for
    explicit deletion.  Subscriber cursors live with the consumer: every
    subscription opened by the code below is closed before the method
    returns, so they are not part of the state. *)
Record BufferedPubSub (T : Type) : Type := { items : list T }.
Arguments items {T} _.

Module PubSub.

Definition new {T} : BufferedPubSub T := {| items := [] |}.

(** [publish(item)]: appends the item. *)
Definition publish {T} (item : T) (t : BufferedPubSub T) : BufferedPubSub T :=
  {| items := items t ++ [item] |}.

(** [buffer()]: one fixed snapshot of the sequence. *)
Definition buffer {T} (t : BufferedPubSub T) : list T := items t.

(** [delete(item)]: removes the item from the shared sequence.  Items are
    compared with the [==] of their class; an absent item leaves the
    sequence as it is. *)
Definition delete {T} (eqb : T → T → bool) (item : T) (t : BufferedPubSub T)
  : BufferedPubSub T :=
  {| items := PyList.remove_first eqb item (items t) |}.

(** [next(subscribe())]: the first item delivered to a fresh subscription.
    Both callers in the sources read what was published before they
    subscribed ([Server.export] replays the history of [show_events],
    [YACV.export] reads the payload it has just published), so a fresh
    subscription starts at the head of the sequence; on an empty topic the
    read waits for a publish. *)
Definition subscribe_next {T} (t : BufferedPubSub T) : outcome T :=
  match items t with
  | [] => Blocks
  | x :: _ => Ret x
  end.

End PubSub.

(** ** Collaborators *)

(** What [show] is given: raw bytes or some CAD-like object. *)
Inductive ShowObj (CADLike : Type) : Type :=
  | InBytes (b : bytes)
  | InCAD (c : CADLike).
Arguments InBytes {CADLike} b.
Arguments InCAD {CADLike} c.

(** [YACVSupported = Union[bytes, CADCoreLike]] *)
Inductive YACVSupported (CADCoreLike : Type) : Type :=
  | ObjBytes (b : bytes)
  | ObjCAD (c : CADCoreLike).
Arguments ObjBytes {CADCoreLike} b.
Arguments ObjCAD {CADCoreLike} c.

(** The modules [yacv_server.cad] and [yacv_server.tessellate], the glTF
    library and the interpreter's call stack.  Option values ([Value]) are
    opaque but for their truthiness and the two literals used as defaults. *)
Class Collaborators : Type := {
  CADLike : Type;
  CADCoreLike : Type;
  GLTF : Type;
  Value : Type;
  truthy : Value → bool;
  py_True : Value;
  py_0_1 : Value;
  _preprocess_cad : CADLike → gmap string Value → exn + CADCoreLike;
  _hashcode : YACVSupported CADCoreLike → gmap string Value → string;
  tessellate : CADCoreLike → Value → Value → Value → Value → Value → exn + GLTF;
  save_to_bytes : GLTF → list bytes;
  (** the first local variable bound to the object in [inspect.stack()] *)
  stack_lookup : ShowObj CADLike → option string;
}.

(** [signal.SIGINT] and [signal.SIGTERM] *)
Definition SIGINT : Z := 2.
Definition SIGTERM : Z := 15.

(** ** The data model of [yacv.py] *)

Section Model.
Context `{Collaborators}.

(** [UpdatesApiFullData]: the three serialised fields of [UpdatesApiData]
    and the two that are not serialised. *)
Record UpdatesApiFullData : Type := {
  name : string;
  hash : string;
  is_remove : bool;
  obj : YACVSupported CADCoreLike;
  kwargs : gmap string Value;
}.

(** [copy.copy(event)] followed by [event.is_remove = value] on the copy. *)
Definition with_is_remove (value : bool) (event : UpdatesApiFullData) : UpdatesApiFullData :=
  {| name := name event; hash := hash event; is_remove := value;
     obj := obj event; kwargs := kwargs event |}.

(** [==] on events is the one [@dataclass] generates for [UpdatesApiData]:
    it compares the fields declared there, [(name, hash, is_remove)];
    [UpdatesApiFullData] is not a dataclass of its own, so [obj] and [kwargs]
    do not take part. *)
Definition UpdatesApiData_eq (a b : UpdatesApiFullData) : bool :=
  str_eqb (name a) (name b) && str_eqb (hash a) (hash b)
  && bool_decide (is_remove a = is_remove b).

(** The serving thread, as far as the object can tell. *)
Inductive Thread : Type :=
  | ThreadStarted   (* [_run_server] has not yet created the server *)
  | ThreadServing   (* inside [serve_forever] *)
  | ThreadDead.     (* [_run_server] raised *)

(** [ThreadingHTTPServer((host, port), handler)] *)
Record ThreadingHTTPServer : Type := { server_name : string; server_port : Z }.

(** One call of the external build function, with the options passed. *)
Record TessellateCall : Type := {
  call_obj : CADCoreLike;
  tolerance : Value;
  angular_tolerance : Value;
  faces : Value;
  edges : Value;
  vertices : Value;
}.

(** The fields of a [YACV] object, then what the object does to its
    surroundings: the module-level counter of [_find_var_name], the handlers
    it registers, the records it logs and the builds it requests. *)
Record YACV : Type := {
  server_thread : option Thread;
  server : option ThreadingHTTPServer;
  startup_complete : bool;
  at_least_one_client : bool;
  show_events : BufferedPubSub UpdatesApiFullData;
  build_events : gmap string (BufferedPubSub bytes);
  _find_var_name_count : nat;
  signal_handlers : list Z;
  atexit_handlers : nat;
  log : list (level * string);
  tessellate_calls : list TessellateCall;
}.

(** [YACV.__init__] *)
Definition init : YACV := {|
  server_thread := None;
  server := None;
  startup_complete := false;
  at_least_one_client := false;
  show_events := PubSub.new;
  build_events := ∅;
  _find_var_name_count := 0;
  signal_handlers := [];
  atexit_handlers := 0;
  log := [(INFO, "Using yacv-server v%s")];
  tessellate_calls := [];
|}.

Definition set_show_events (t : BufferedPubSub UpdatesApiFullData) (st : YACV) : YACV :=
  {| server_thread := server_thread st; server := server st;
     startup_complete := startup_complete st;
     at_least_one_client := at_least_one_client st;
     show_events := t; build_events := build_events st;
     _find_var_name_count := _find_var_name_count st;
     signal_handlers := signal_handlers st; atexit_handlers := atexit_handlers st;
     log := log st; tessellate_calls := tessellate_calls st |}.

Definition set_build_events (m : gmap string (BufferedPubSub bytes)) (st : YACV) : YACV :=
  {| server_thread := server_thread st; server := server st;
     startup_complete := startup_complete st;
     at_least_one_client := at_least_one_client st;
     show_events := show_events st; build_events := m;
     _find_var_name_count := _find_var_name_count st;
     signal_handlers := signal_handlers st; atexit_handlers := atexit_handlers st;
     log := log st; tessellate_calls := tessellate_calls st |}.

Definition set_server_thread (t : option Thread) (st : YACV) : YACV :=
  {| server_thread := t; server := server st;
     startup_complete := startup_complete st;
     at_least_one_client := at_least_one_client st;
     show_events := show_events st; build_events := build_events st;
     _find_var_name_count := _find_var_name_count st;
     signal_handlers := signal_handlers st; atexit_handlers := atexit_handlers st;
     log := log st; tessellate_calls := tessellate_calls st |}.

Definition set_server (s : option ThreadingHTTPServer) (st : YACV) : YACV :=
  {| server_thread := server_thread st; server := s;
     startup_complete := startup_complete st;
     at_least_one_client := at_least_one_client st;
     show_events := show_events st; build_events := build_events st;
     _find_var_name_count := _find_var_name_count st;
     signal_handlers := signal_handlers st; atexit_handlers := atexit_handlers st;
     log := log st; tessellate_calls := tessellate_calls st |}.

Definition set_startup_complete (b : bool) (st : YACV) : YACV :=
  {| server_thread := server_thread st; server := server st;
     startup_complete := b;
     at_least_one_client := at_least_one_client st;
     show_events := show_events st; build_events := build_events st;
     _find_var_name_count := _find_var_name_count st;
     signal_handlers := signal_handlers st; atexit_handlers := atexit_handlers st;
     log := log st; tessellate_calls := tessellate_calls st |}.

Definition set_find_var_name_count (n : nat) (st : YACV) : YACV :=
  {| server_thread := server_thread st; server := server st;
     startup_complete := startup_complete st;
     at_least_one_client := at_least_one_client st;
     show_events := show_events st; build_events := build_events st;
     _find_var_name_count := n;
     signal_handlers := signal_handlers st; atexit_handlers := atexit_handlers st;
     log := log st; tessellate_calls := tessellate_calls st |}.

Definition register_handlers (signum : Z) (st : YACV) : YACV :=
  {| server_thread := server_thread st; server := server st;
     startup_complete := startup_complete st;
     at_least_one_client := at_least_one_client st;
     show_events := show_events st; build_events := build_events st;
     _find_var_name_count := _find_var_name_count st;
     signal_handlers := signal_handlers st ++ [signum];
     atexit_handlers := S (atexit_handlers st);
     log := log st; tessellate_calls := tessellate_calls st |}.

(** [logger.<level>(fmt, ...)]: the record is kept by its format string. *)
Definition logger (lv : level) (fmt : string) (st : YACV) : YACV :=
  {| server_thread := server_thread st; server := server st;
     startup_complete := startup_complete st;
     at_least_one_client := at_least_one_client st;
     show_events := show_events st; build_events := build_events st;
     _find_var_name_count := _find_var_name_count st;
     signal_handlers := signal_handlers st; atexit_handlers := atexit_handlers st;
     log := log st ++ [(lv, fmt)]; tessellate_calls := tessellate_calls st |}.

Definition record_tessellate (c : TessellateCall) (st : YACV) : YACV :=
  {| server_thread := server_thread st; server := server st;
     startup_complete := startup_complete st;
     at_least_one_client := at_least_one_client st;
     show_events := show_events st; build_events := build_events st;
     _find_var_name_count := _find_var_name_count st;
     signal_handlers := signal_handlers st; atexit_handlers := atexit_handlers st;
     log := log st; tessellate_calls := tessellate_calls st ++ [c] |}.

(** ** Methods as state-passing computations *)

Definition M (A : Type) : Type := YACV → outcome A * YACV.

#[export] Instance M_ret : MRet M := λ A a st, (Ret a, st).

#[export] Instance M_bind : MBind M := λ A B k m st,
  match m st with
  | (Ret a, st') => k a st'
  | (Raise e, st') => (Raise e, st')
  | (Blocks, st') => (Blocks, st')
  end.

Definition raise {A} (e : exn) : M A := λ st, (Raise e, st).
Definition get : M YACV := λ st, (Ret st, st).
Definition modify (f : YACV → YACV) : M unit := λ st, (Ret tt, f st).

(** [for x in l: body(x)] *)
Fixpoint for_each {A} (l : list A) (body : A → M unit) : M unit :=
  match l with
  | [] => mret tt
  | x :: l' => body x ;; for_each l' body
  end.

(** [[f(x) for x in l]] *)
Fixpoint comprehension {A B} (f : A → M B) (l : list A) : M (list B) :=
  match l with
  | [] => mret []
  | x :: l' => y ← f x; ys ← comprehension f l'; mret (y :: ys)
  end.

(** *** Queries on the event log *)

(** The inner loop of [_show_events]:
    [for old_event in res: if old_event.name == event.name: res.remove(old_event)].
    The list shrinks under the iterator, which keeps its index [i]: after a
    removal the next item read is the one two places further in the old
    list.  [fuel] bounds the number of iterations; the length of [res] is
    enough. *)
Fixpoint remove_while_iterating (fuel i : nat) (event_name : string)
    (res : list UpdatesApiFullData) : list UpdatesApiFullData :=
  match fuel with
  | 0 => res
  | S fuel' =>
      match res !! i with
      | None => res
      | Some old_event =>
          if str_eqb (name old_event) event_name
          then remove_while_iterating fuel' (S i) event_name
                 (PyList.remove_first UpdatesApiData_eq old_event res)
          else remove_while_iterating fuel' (S i) event_name res
      end
  end.

(** One iteration of the outer loop of [_show_events]. *)
Definition _show_events_step (nm : string) (apply_removes : bool)
    (res : list UpdatesApiFullData) (event : UpdatesApiFullData) : list UpdatesApiFullData :=
  if str_eqb (name event) nm then
    if negb (is_remove event) || negb apply_removes then res ++ [event]
    else remove_while_iterating (length res) 0 (name event) res
  else res.

(** [_show_events(name, apply_removes)] over a snapshot of the buffer. *)
Definition _show_events_of (nm : string) (apply_removes : bool)
    (buffer : list UpdatesApiFullData) : list UpdatesApiFullData :=
  foldl (_show_events_step nm apply_removes) [] buffer.

Definition _show_events (nm : string) (apply_removes : bool) (st : YACV)
  : list UpdatesApiFullData :=
  _show_events_of nm apply_removes (PubSub.buffer (show_events st)).

(** The loop of [shown_object_names], from the names collected so far. *)
Fixpoint shown_object_names_loop (apply_removes : bool)
    (buffer : list UpdatesApiFullData) (res : list string) : outcome (list string) :=
  match buffer with
  | [] => Ret res
  | o :: buffer' =>
      if negb (is_remove o) || negb apply_removes
      then shown_object_names_loop apply_removes buffer' (res ++ [name o])
      else match PyList.remove str_eqb (name o) res with
           | Some res' => shown_object_names_loop apply_removes buffer' res'
           | None => Raise (ValueError "list.remove(x): x not in list")
           end
  end.

(** [shown_object_names(apply_removes)] *)
Definition shown_object_names (apply_removes : bool) : M (list string) := λ st,
  (shown_object_names_loop apply_removes (PubSub.buffer (show_events st)) [], st).

(** *** [remove] and [clear] *)

(** [if name in self.build_events: del self.build_events[name]] *)
Definition del_build_events (nm : string) (st : YACV) : YACV :=
  match build_events st !! nm with
  | Some _ => set_build_events (delete nm (build_events st)) st
  | None => st
  end.

(** [self.show_events.delete(event)] *)
Definition delete_show_event (event : UpdatesApiFullData) (st : YACV) : YACV :=
  set_show_events (PubSub.delete UpdatesApiData_eq event (show_events st)) st.

(** [self.show_events.publish(event)] *)
Definition publish_show_event (event : UpdatesApiFullData) (st : YACV) : YACV :=
  set_show_events (PubSub.publish event (show_events st)) st.

(** [remove(name)]; the lock around the cache is held by one caller at a
    time and leaves no trace. *)
Definition remove (nm : string) : M unit := λ st,
  let events := _show_events nm true st in
  match last events with
  | None => (Ret tt, st)
  | Some latest =>
      let st1 := foldl (λ s old_show_event, delete_show_event old_show_event s) st events in
      let st2 := del_build_events nm st1 in
      (Ret tt, publish_show_event (with_is_remove true latest) st2)
  end.

(** [clear(except_names)] *)
Definition clear (except_names : option (list string)) : M unit :=
  let except_names := default [] except_names in
  st ← get;
  for_each (PubSub.buffer (show_events st)) (λ event,
    if negb (PyList.contains str_eqb (name event) except_names)
    then remove (name event) else mret tt).

(** *** [show] *)

(** The [names] argument of [show]: [None], one string or a list. *)
Inductive Names : Type :=
  | NoNames
  | OneName (s : string)
  | ManyNames (l : list string).

(** [_find_var_name(obj)] *)
Definition _find_var_name (o : ShowObj CADLike) : M string := λ st,
  match stack_lookup o with
  | Some key => (Ret key, st)
  | None =>
      let count := S (_find_var_name_count st) in
      (Ret ("unknown_var_" +:+ pretty count), set_find_var_name_count count st)
  end.

(** [names = names or [...]; if isinstance(names, str): names = [names]]:
    [None], the empty string and the empty list are falsy. *)
Definition resolve_names (objs : list (ShowObj CADLike)) (names : Names) : M (list string) :=
  match names with
  | NoNames | OneName "" | ManyNames [] => comprehension _find_var_name objs
  | OneName s => mret [s]
  | ManyNames l => mret l
  end.

(** [kwargs.get('auto_clear', True)] as a condition *)
Definition auto_clear (kw : gmap string Value) : bool :=
  match kw !! "auto_clear" with
  | Some v => truthy v
  | None => true
  end.

(** The body of the first loop of [show]. *)
Definition drop_old_event (names : list string) (old_event : UpdatesApiFullData) : M unit :=
  if PyList.contains str_eqb (name old_event) names
  then modify (λ st, del_build_events (name old_event) (delete_show_event old_event st))
  else mret tt.

(** [if not isinstance(obj, bytes): obj = _preprocess_cad(obj, **kwargs)] *)
Definition normalise (kw : gmap string Value) (o : ShowObj CADLike)
  : exn + YACVSupported CADCoreLike :=
  match o with
  | InBytes b => inr (ObjBytes b)
  | InCAD c =>
      match _preprocess_cad c kw with
      | inl e => inl e
      | inr c' => inr (ObjCAD c')
      end
  end.

(** The event [show] publishes for a normalised object. *)
Definition show_event (nm : string) (o : YACVSupported CADCoreLike) (kw : gmap string Value)
  : UpdatesApiFullData :=
  {| name := nm; hash := _hashcode o kw; is_remove := false; obj := o; kwargs := kw |}.

(** The body of the second loop of [show]. *)
Definition publish_one (kw : gmap string Value) (arg : ShowObj CADLike * string) : M unit :=
  match normalise kw arg.1 with
  | inl e => raise e
  | inr o => modify (publish_show_event (show_event arg.2 o kw))
  end.

(** [show] with its positional objects, its [names] and its keyword options *)
Definition show (objs : list (ShowObj CADLike)) (names : Names) (kw : gmap string Value)
  : M unit :=
  names ← resolve_names objs names;
  (if bool_decide (length names = length objs) then mret tt
   else raise (AssertionError "Number of names must match the number of objects"));;
  (if auto_clear kw then clear (Some names) else mret tt);;
  st ← get;
  for_each (PubSub.buffer (show_events st)) (drop_old_event names);;
  for_each (zip objs names) (publish_one kw);;
  modify (logger INFO "show %s took %.3f seconds").

(** *** [export] *)

(** [kwargs.get(key, default)] *)
Definition kwargs_get (kw : gmap string Value) (key : string) (default_value : Value) : Value :=
  default default_value (kw !! key).

(** The call [tessellate(event.obj, tolerance=..., ...)] of [export]. *)
Definition tessellate_call (c : CADCoreLike) (kw : gmap string Value) : TessellateCall :=
  {| call_obj := c;
     tolerance := kwargs_get kw "tolerance" py_0_1;
     angular_tolerance := kwargs_get kw "angular_tolerance" py_0_1;
     faces := kwargs_get kw "faces" py_True;
     edges := kwargs_get kw "edges" py_True;
     vertices := kwargs_get kw "vertices" py_True |}.

Definition run_tessellate (call : TessellateCall) : exn + GLTF :=
  tessellate (call_obj call) (tolerance call) (angular_tolerance call)
    (faces call) (edges call) (vertices call).

(** [self.build_events[name].publish(data)]: [publish_to] is the very topic
    stored under [name]. *)
Definition publish_build (nm : string) (data : bytes) (st : YACV) : YACV :=
  set_build_events (alter (PubSub.publish data) nm (build_events st)) st.

(** The branch of [export] taken when [name not in self.build_events]. *)
Definition build_object (nm : string) (event : UpdatesApiFullData) : M unit :=
  modify (logger DEBUG "Building object %s with hash %s");;
  modify (λ st, set_build_events (<[nm := PubSub.new]> (build_events st)) st);;
  match obj event with
  | ObjBytes b => modify (publish_build nm b)
  | ObjCAD c =>
      let call := tessellate_call c (kwargs event) in
      modify (record_tessellate call);;
      match run_tessellate call with
      | inl e => raise e
      | inr gltf =>
          modify (publish_build nm (concat (save_to_bytes gltf)));;
          modify (logger INFO "export(%s) took %.3f seconds, %d parts")
      end
  end.

(** [next(self.build_events[name].subscribe())] *)
Definition next_built (nm : string) : M bytes := λ st,
  match build_events st !! nm with
  | None => (Raise (KeyError nm), st)
  | Some topic => (PubSub.subscribe_next topic, st)
  end.

(** [export(name)]: [Ret None] is the [return None] of the source. *)
Definition export (nm : string) : M (option bytes) := λ st,
  match last (_show_events nm true st) with
  | None => (Ret None, logger WARNING "Object %s not found" st)
  | Some event =>
      ((match build_events st !! nm with
        | None => build_object nm event
        | Some _ => mret tt
        end);;
       data ← next_built nm;
       mret (Some data)) st
  end.

(** *** Lifecycle *)

(** [start()] up to and including [self.server_thread.start()]. *)
Definition start_spawn : M unit := λ st,
  match server_thread st with
  | Some _ =>
      (Raise (AssertionError "Server currently running, cannot start another one"), st)
  | None =>
      if startup_complete st
      then (Raise (AssertionError "Server already started"), st)
      else (Ret tt,
            logger INFO "Server started (requested)..."
              (set_server_thread (Some ThreadStarted)
                 (register_handlers (Z.lor SIGINT SIGTERM) st)))
  end.

(** [_run_server()], the body of the serving thread up to [serve_forever];
    [created] is what constructing the [ThreadingHTTPServer] gives. *)
Definition _run_server (created : exn + ThreadingHTTPServer) (st : YACV) : YACV :=
  let st := logger INFO "Starting server..." st in
  match created with
  | inl _ => set_server_thread (Some ThreadDead) st
  | inr s =>
      let st := logger INFO "Serving at http://%s:%s" (set_server (Some s) st) in
      set_server_thread (Some ThreadServing) (set_startup_complete true st)
  end.

(** [while not self.startup_complete.wait(): ...] and the record that
    follows: the caller is released by the event being set and by nothing
    else. *)
Definition start_wait : M unit := λ st,
  if startup_complete st
  then (Ret tt, logger INFO "Server started (received)..." st)
  else (Blocks, st).

(** [start()]: the caller spawns the thread and meets it again at the wait.
    Records of the two threads are kept caller first; nothing below depends
    on their order. *)
Definition start (created : exn + ThreadingHTTPServer) : M unit :=
  start_spawn;; modify (_run_server created);; start_wait.

(** [stop] with its positional arguments, under well-formed grace settings.  The two grace windows
    only wait: they read [at_least_one_client] and the frontend lock and
    write no field. *)
Definition stop (args : list Z) : M unit := λ st,
  match server_thread st with
  | None => (Ret tt, logger ERROR "Cannot stop server because it is not running" st)
  | Some _ =>
      let st := logger INFO "Stopping server (waiting for at least one frontend request first, cancel with CTRL+C)..." st in
      let st := logger INFO "Stopping server (waiting for no more frontend requests)..." st in
      match server st with
      | None => (Raise (AttributeError "'NoneType' object has no attribute 'shutdown'"), st)
      | Some _ =>
          let st := logger INFO "Stopping server (sent)..." st in
          let st := logger INFO "Stopping server (confirmed)..." (set_server_thread None st) in
          match args with
          | signum :: _ =>
              if bool_decide (signum = SIGINT ∨ signum = SIGTERM)
              then (Raise (SystemExit 0), st) else (Ret tt, st)
          | [] => (Ret tt, st)
          end
      end
  end.

(** ** [server.py] *)

(** [UpdatesApiData] of [server.py] *)
Record UpdatesApiData : Type := {
  data_name : string;
  data_hash : string;
  data_obj : option CADCoreLike;
  data_kwargs : option (gmap string Value);
}.

(** The class attributes of [Server] that [export] reads and writes. *)
Record Server : Type := {
  Server_show_events : BufferedPubSub UpdatesApiData;
  Server_object_events : gmap string (BufferedPubSub bytes);
}.

(** [Server.export(name)].  When the object has to be built, the task given
    to the executor evaluates [kwargs.get] on the [None] that [kwargs] is
    bound to from its declaration on: it raises in the worker before
    [tessellate] is called, nothing is published, and the caller waits on
    the empty topic. *)
Definition Server_export (nm : string) (s : Server) : outcome bytes * Server :=
  match list_find (λ data, data_name data = nm) (PubSub.buffer (Server_show_events s)) with
  | None => (Raise (HTTPNotFound ("No object named " +:+ nm +:+ " was previously shown")), s)
  | Some _ =>
      match Server_object_events s !! nm with
      | Some topic => (PubSub.subscribe_next topic, s)
      | None =>
          (Blocks,
           {| Server_show_events := Server_show_events s;
              Server_object_events := <[nm := PubSub.new]> (Server_object_events s) |})
      end
  end.

End Model.

(** ** A concrete set of collaborators, to run the model on *)

Inductive sample_value : Type :=
  | SampleBool (b : bool)
  | SampleTenths (n : Z).

(** CAD objects are numbered; number 0 cannot be normalised and number 13
    cannot be tessellated.  The stack search finds every object where the
    source finds it: in the first frame of [inspect.stack()], the one of
    [_find_var_name] itself, under its parameter [obj]. *)
Definition sample : Collaborators := {|
  CADLike := nat;
  CADCoreLike := nat;
  GLTF := list bytes;
  Value := sample_value;
  truthy := λ v, match v with SampleBool b => b | SampleTenths n => negb (Z.eqb n 0) end;
  py_True := SampleBool true;
  py_0_1 := SampleTenths 1;
  _preprocess_cad := λ c _,
    match c with 0 => inl (ValueError "Cannot show object") | _ => inr c end;
  _hashcode := λ o _,
    match o with
    | ObjBytes b => "bytes" +:+ pretty (length b)
    | ObjCAD c => "cad" +:+ pretty c
    end;
  tessellate := λ c _ _ _ _ _,
    match c with
    | 13 => inl (ExternalError "tessellation failed")
    | _ => inr [[x67; x6c; x54; x46]; replicate c x00]
    end;
  save_to_bytes := λ g, g;
  stack_lookup := λ _, Some "obj";
|}.

(** A fresh server, and objects to show on it. *)
Definition sample_init : @YACV sample := init.
Definition sample_cad (n : nat) : ShowObj (@CADLike sample) := InCAD n.
Definition sample_bytes (b : bytes) : ShowObj (@CADLike sample) := InBytes b.
Definition sample_core (n : nat) : YACVSupported (@CADCoreLike sample) := ObjCAD n.

(** A [Server] that has shown one CAD object as ["B"]. *)
Definition sample_server : @Server sample :=
  {| Server_show_events :=
       {| items := [@Build_UpdatesApiData sample "B" "cad3" (Some (3 : nat)) (Some ∅)] |};
     Server_object_events := ∅ |}.

(** ** Every state the public methods can produce *)

Section Reachable.
Context `{Collaborators}.

Inductive reachable : YACV → Prop :=
  | reachable_init : reachable init
  | reachable_show objs names kw st :
      reachable st → reachable (show objs names kw st).2
  | reachable_remove nm st :
      reachable st → reachable (remove nm st).2
  | reachable_clear except_names st :
      reachable st → reachable (clear except_names st).2
  | reachable_export nm st :
      reachable st → reachable (export nm st).2
  | reachable_shown_object_names apply_removes st :
      reachable st → reachable (shown_object_names apply_removes st).2
  | reachable_start created st :
      reachable st → reachable (start created st).2
  | reachable_stop args st :
      reachable st → reachable (stop args st).2.

(** The events of the log carrying a given name. *)
Definition named (nm : string) (buffer : list UpdatesApiFullData) : list UpdatesApiFullData :=
  filter (λ e, name e = nm) buffer.

(** A tombstone is the only event of its name in the log. *)
Definition log_ok (buffer : list UpdatesApiFullData) : Prop :=
  ∀ t, t ∈ buffer → is_remove t = true → named (name t) buffer = [t].

(** A name with a cache entry has a live event in the log. *)
Definition cache_ok (st : YACV) : Prop :=
  ∀ nm, is_Some (build_events st !! nm) →
    ∃ e, e ∈ items (show_events st) ∧ name e = nm ∧ is_remove e = false.

Definition state_ok (st : YACV) : Prop :=
  log_ok (items (show_events st)) ∧ cache_ok st.

(** Outcome-indexed triples: from [P], a normal return satisfies [R] and any
    other end satisfies [E]. *)
Definition triple {A} (P : YACV → Prop) (m : M A)
    (R : A → YACV → Prop) (E : YACV → Prop) : Prop :=
  ∀ st, P st →
    match m st with
    | (Ret a, st') => R a st'
    | (_, st') => E st'
    end.

(** What is outside the log and the cache. *)
Definition same_surroundings (st st' : YACV) : Prop :=
  server_thread st' = server_thread st
  ∧ server st' = server st
  ∧ startup_complete st' = startup_complete st
  ∧ at_least_one_client st' = at_least_one_client st
  ∧ signal_handlers st' = signal_handlers st
  ∧ atexit_handlers st' = atexit_handlers st
  ∧ tessellate_calls st' = tessellate_calls st.

(** Well formed, and with the same surroundings as [st0]. *)
Definition kept (st0 st : YACV) : Prop := state_ok st ∧ same_surroundings st0 st.

(** What [remove] leaves when the name has live events. *)
Definition removed (nm : string) (latest : UpdatesApiFullData) (st : YACV) : YACV :=
  publish_show_event (with_is_remove true latest)
    (del_build_events nm
       (set_show_events
          {| items := filter (λ e, name e ≠ nm) (items (show_events st)) |} st)).

(** What [clear] guarantees, as the invariant of its loop after the events
    [visited]. *)
Definition cleared (names : list string) (st0 : YACV)
    (visited : list UpdatesApiFullData) (st : YACV) : Prop :=
  state_ok st
  ∧ filter (λ e, name e ∈ names) (items (show_events st))
    = filter (λ e, name e ∈ names) (items (show_events st0))
  ∧ (∀ n, n ∈ names → build_events st !! n = build_events st0 !! n)
  ∧ (∀ e, e ∈ visited → name e ∉ names →
       Forall (λ x, name x = name e → is_remove x = true) (items (show_events st)))
  ∧ (∀ x, x ∈ items (show_events st) → is_remove x = false →
       x ∈ items (show_events st0))
  ∧ same_surroundings st0 st
  ∧ log st = log st0
  ∧ _find_var_name_count st = _find_var_name_count st0.

(** One iteration of the first loop of [show], on the state. *)
Definition drop_state (names : list string) (st : YACV) (old_event : UpdatesApiFullData) : YACV :=
  if PyList.contains str_eqb (name old_event) names
  then del_build_events (name old_event) (delete_show_event old_event st)
  else st.

(** The invariant of the second loop of [show]: no tombstone is left under
    any of the names being shown. *)
Definition publishing (names : list string) (st0 st : YACV) : Prop :=
  state_ok st
  ∧ Forall (λ e, is_remove e = true → name e ∉ names) (items (show_events st))
  ∧ same_surroundings st0 st.

(** The state once [export] has stored a fresh topic under the name. *)
Definition entry_created (nm : string) (st : YACV) : YACV :=
  set_build_events (<[nm := PubSub.new]> (build_events st))
    (logger DEBUG "Building object %s with hash %s" st).

(** The state after the optional clearing step of [show]. *)
Definition auto_cleared (names : list string) (kw : gmap string Value) (st : YACV) : YACV :=
  if auto_clear kw then (clear (Some names) st).2 else st.

(** The names [show] works with when they are given: a string, which counts
    only when it is not empty, stands for the one-item list; a list, which
    counts only when it is not empty, for itself. *)
Definition names_given (ns : list string) (names : Names) : Prop :=
  (∃ s, names = OneName s ∧ s ≠ "" ∧ ns = [s]) ∨ (names = ManyNames ns ∧ ns ≠ []).

(** The events [show] publishes for normalised objects under their names. *)
Definition published (kw : gmap string Value) (objs' : list (YACVSupported CADCoreLike))
    (ns : list string) : list UpdatesApiFullData :=
  zip_with (λ o' n, show_event n o' kw) objs' ns.

End Reachable.


(** ** More of [yacv.py]: call sequences, cache contents, [show_cad_all],
       [export_all] *)

Section MoreOfYACV.
Context `{Collaborators}.

(** What building an event gives: its bytes as they are, or the joined
    output of the tessellator, or what the tessellator raised.  This is the
    computation of the not-cached branch of [export], without the cache. *)
Definition build_result (event : UpdatesApiFullData) : exn + bytes :=
  match obj event with
  | ObjBytes b => inr b
  | ObjCAD c =>
      match run_tessellate (tessellate_call c (kwargs event)) with
      | inl e => inl e
      | inr gltf => inr (concat (save_to_bytes gltf))
      end
  end.

(** Every cache entry holds the build of the latest event of its name, or
    nothing if that build raised. *)
Definition cache_fresh (st : YACV) : Prop :=
  ∀ nm topic, build_events st !! nm = Some topic →
    ∃ event, last (named nm (items (show_events st))) = Some event
             ∧ items topic = match build_result event with
                             | inr data => [data]
                             | inl _ => []
                             end.

(** One call of a public method, and the state it leaves however it ends. *)
Inductive Call : Type :=
  | CallShow (objs : list (ShowObj CADLike)) (names : Names) (kw : gmap string Value)
  | CallRemove (nm : string)
  | CallClear (except_names : option (list string))
  | CallExport (nm : string)
  | CallShownObjectNames (apply_removes : bool)
  | CallStart (created : exn + ThreadingHTTPServer)
  | CallStop (args : list Z).

Definition run_call (c : Call) (st : YACV) : YACV :=
  match c with
  | CallShow objs names kw => (show objs names kw st).2
  | CallRemove nm => (remove nm st).2
  | CallClear except_names => (clear except_names st).2
  | CallExport nm => (export nm st).2
  | CallShownObjectNames apply_removes => (shown_object_names apply_removes st).2
  | CallStart created => (start created st).2
  | CallStop args => (stop args st).2
  end.

Definition run_calls (calls : list Call) (st : YACV) : YACV :=
  foldl (λ s c, run_call c s) st calls.

(** A call that, run from [s], neither shows nor removes the name [nm]: a
    [show] of other names that does not clear, a [remove] of another name,
    a [clear] that excepts [nm]; [export], the names query, [start] and
    [stop] never do either. *)
Definition leaves_name (nm : string) (c : Call) (s : YACV) : Prop :=
  match c with
  | CallShow objs names kw =>
      auto_clear kw = false
      ∧ match (resolve_names objs names s).1 with
        | Ret ns => nm ∉ ns
        | _ => True
        end
  | CallRemove n => n ≠ nm
  | CallClear except_names => nm ∈ default [] except_names
  | _ => True
  end.

(** No call of the sequence, run from [s], shows or removes [nm]. *)
Fixpoint leave_name (nm : string) (calls : list Call) (s : YACV) : Prop :=
  match calls with
  | [] => True
  | c :: calls' => leaves_name nm c s ∧ leave_name nm calls' (run_call c s)
  end.

(** [show_cad_all] with its keyword options, given what [grab_all_cad()]
    returns: the CAD objects in scope with their variable names. *)
Definition show_cad_all (all_cad : list (string * CADLike)) (kw : gmap string Value)
  : M unit :=
  show (InCAD <$> all_cad.*2) (ManyNames all_cad.*1) kw.

(** What [export_all] asks of the file system, in order. *)
Inductive FileOp : Type :=
  | Makedirs (folder : string)
  | OpenFile (folder file : string)
  | WriteFile (folder file : string) (data : bytes).

(** The loop of [export_all] over the names collected beforehand.  The file
    is opened before [export] is called, and written only if [export]
    returns bytes. *)
Fixpoint export_all_loop (folder : string)
    (export_filter : string → YACVSupported CADCoreLike → bool)
    (names : list string) (st : YACV) (ops : list FileOp)
  : outcome unit * YACV * list FileOp :=
  match names with
  | [] => (Ret tt, st, ops)
  | nm :: names' =>
      match last (_show_events nm true st) with
      | None => (Raise (ExternalError "IndexError: list index out of range"), st, ops)
      | Some event =>
          if export_filter nm (obj event) then
            let file := nm +:+ ".glb" in
            let ops := ops ++ [OpenFile folder file] in
            match export nm st with
            | (Ret (Some data), st') =>
                export_all_loop folder export_filter names' st'
                  (ops ++ [WriteFile folder file data])
            | (Ret None, st') =>
                (Raise (ExternalError "TypeError: a bytes-like object is required, not 'NoneType'"),
                 st', ops)
            | (Raise e, st') => (Raise e, st', ops)
            | (Blocks, st') => (Blocks, st', ops)
            end
          else export_all_loop folder export_filter names' st ops
      end
  end.

(** [export_all(folder, export_filter)] *)
Definition export_all (folder : string)
    (export_filter : string → YACVSupported CADCoreLike → bool) (st : YACV)
  : outcome unit * YACV * list FileOp :=
  match shown_object_names true st with
  | (Ret names, st') => export_all_loop folder export_filter names st' [Makedirs folder]
  | (Raise e, st') => (Raise e, st', [Makedirs folder])
  | (Blocks, st') => (Blocks, st', [Makedirs folder])
  end.

(** A log is live when it holds no tombstone. *)
Definition all_live (buffer : list UpdatesApiFullData) : Prop :=
  Forall (λ e, is_remove e = false) buffer.

(** The file operations of an [export_all] that meets no failure: for each
    event of the log, in order, whose name and latest payload pass the
    filter, the file of the name is opened and written with the build of
    the latest event of that name. *)
Definition exported_files (folder : string)
    (export_filter : string → YACVSupported CADCoreLike → bool)
    (buffer : list UpdatesApiFullData) : list FileOp :=
  Makedirs folder ::
  flat_map (λ e,
    match last (named (name e) buffer) with
    | Some latest =>
        match build_result latest with
        | inr data =>
            if export_filter (name e) (obj latest)
            then [OpenFile folder (name e +:+ ".glb"); WriteFile folder (name e +:+ ".glb") data]
            else []
        | inl _ => []
        end
    | None => []
    end) buffer.

(** A state is coherent when it is well formed and its cache is fresh. *)
Definition coherent (st : YACV) : Prop := state_ok st ∧ cache_fresh st.

(** The invariant of the second loop of [show], with the cache: the names
    being shown have no entry. *)
Definition publishing_coherent (names : list string) (st : YACV) : Prop :=
  coherent st
  ∧ Forall (λ e, is_remove e = true → name e ∉ names) (items (show_events st))
  ∧ (∀ n, n ∈ names → build_events st !! n = None).

(** The server was never spawned, or it was spawned once. *)
Definition spawned_once (st : YACV) : Prop :=
  (server st = None ∨ startup_complete st = true)
  ∧ ((signal_handlers st = [] ∧ atexit_handlers st = 0
      ∧ server_thread st = None ∧ startup_complete st = false)
     ∨ (signal_handlers st = [SIGTERM] ∧ atexit_handlers st = 1
        ∧ (is_Some (server_thread st) ∨ startup_complete st = true))).

End MoreOfYACV.

(** ** More of [server.py]: the [show] family *)

(** An object handed to [Server.show_cad], as far as the method looks at it:
    a [TopoDS_Shape], or some other object with the attributes [part],
    [sketch], [line] and [wrapped] that [dir] lists for it.  A shape is
    taken to have none of the four. *)
#[local] Unset Elimination Schemes.
Inductive PyObject (Shape : Type) : Type :=
  | IsShape (s : Shape)
  | Object (part sketch line wrapped : option (PyObject Shape)).
#[local] Set Elimination Schemes.
Arguments IsShape {Shape} s.
Arguments Object {Shape} part sketch line wrapped.

Section MoreOfServer.
Context `{Collaborators}.

(** [Shape(obj).rotate(Axis.X, -90).wrapped], the turn from Z-up to Y-up. *)
Variable rotate_y_up : CADCoreLike → CADCoreLike.

(** A [Server] with its object counter and the records it logs. *)
Record ServerState : Type := {
  Server_shared : Server;
  Server_obj_counter : nat;
  Server_log : list (level * string);
}.

Definition attr_part (o : PyObject CADCoreLike) : option (PyObject CADCoreLike) :=
  match o with IsShape _ => None | Object part _ _ _ => part end.
Definition attr_sketch (o : PyObject CADCoreLike) : option (PyObject CADCoreLike) :=
  match o with IsShape _ => None | Object _ sketch _ _ => sketch end.
Definition attr_line (o : PyObject CADCoreLike) : option (PyObject CADCoreLike) :=
  match o with IsShape _ => None | Object _ _ line _ => line end.

(** [while 'wrapped' in dir(obj) and not isinstance(obj, TopoDS_Shape):
    obj = obj.wrapped] *)
Fixpoint unwrap (o : PyObject CADCoreLike) : PyObject CADCoreLike :=
  match o with
  | IsShape _ => o
  | Object _ _ _ (Some w) => unwrap w
  | Object _ _ _ None => o
  end.

(** The probing of [show_cad]: nothing for a shape; otherwise [part], then
    [sketch], then [line], each on what the step before gave, then the
    [wrapped] chain. *)
Definition probe (o : PyObject CADCoreLike) : PyObject CADCoreLike :=
  match o with
  | IsShape _ => o
  | Object _ _ _ _ =>
      let o := default o (attr_part o) in
      let o := default o (attr_sketch o) in
      let o := default o (attr_line o) in
      unwrap o
  end.

(** [name or f'object_{self.obj_counter}']: [None] and the empty string are
    falsy. *)
Definition shown_name (name : option string) (ss : ServerState) : string :=
  match name with
  | Some (String _ _ as s) => s
  | Some "" | None => "object_" +:+ pretty (Server_obj_counter ss)
  end.

(** [_show_common(name, hash, start, obj, kwargs)]: returns the event it
    published. *)
Definition Server__show_common (name : option string) (hash : string)
    (obj : option CADCoreLike) (kw : gmap string Value) (ss : ServerState)
  : UpdatesApiData * ServerState :=
  let nm := shown_name name ss in
  let info := {| data_name := nm; data_hash := hash;
                 data_obj := obj; data_kwargs := Some kw |} in
  (info,
   {| Server_shared :=
        {| Server_show_events := PubSub.publish info (Server_show_events (Server_shared ss));
           Server_object_events := Server_object_events (Server_shared ss) |};
      Server_obj_counter := S (Server_obj_counter ss);
      Server_log := Server_log ss ++ [(INFO, "show_object(%s, %s) took %.3f seconds")] |}).

(** [show_gltf(gltf, name, **kwargs)] *)
Definition Server_show_gltf (gltf : bytes) (name : option string)
    (kw : gmap string Value) (ss : ServerState) : outcome unit * ServerState :=
  let '(info, ss) := Server__show_common name (_hashcode (ObjBytes gltf) kw) None kw ss in
  let publish_to := PubSub.publish [] (PubSub.publish gltf PubSub.new) in
  (Ret tt,
   {| Server_shared :=
        {| Server_show_events := Server_show_events (Server_shared ss);
           Server_object_events :=
             <[data_name info := publish_to]> (Server_object_events (Server_shared ss)) |};
      Server_obj_counter := Server_obj_counter ss;
      Server_log := Server_log ss |}).

(** [show_cad(obj, name, **kwargs)] *)
Definition Server_show_cad (o : PyObject CADCoreLike) (name : option string)
    (kw : gmap string Value) (ss : ServerState) : outcome unit * ServerState :=
  match probe o with
  | IsShape s =>
      let shape := rotate_y_up s in
      (Ret tt, (Server__show_common name (_hashcode (ObjCAD shape) kw) (Some shape) kw ss).2)
  | Object _ _ _ _ =>
      (Raise (ValueError "Cannot show object of type %s (submit issue?)"), ss)
  end.

(** [show(any_object, name, **kwargs)] *)
Definition Server_show (any_object : bytes + PyObject CADCoreLike) (name : option string)
    (kw : gmap string Value) (ss : ServerState) : outcome unit * ServerState :=
  match any_object with
  | inl gltf => Server_show_gltf gltf name kw ss
  | inr o => Server_show_cad o name kw ss
  end.

(** [export(name)] on the instance. *)
Definition ServerState_export (nm : string) (ss : ServerState) : outcome bytes * ServerState :=
  let '(result, shared) := Server_export nm (Server_shared ss) in
  (result,
   {| Server_shared := shared;
      Server_obj_counter := Server_obj_counter ss;
      Server_log := Server_log ss |}).

(** A run of [show] calls on one server, each with its object, its name and
    its options, whether or not it raises. *)
Definition Server_shows
    (calls : list ((bytes + PyObject CADCoreLike) * option string * gmap string Value))
    (ss : ServerState) : ServerState :=
  foldl (λ s c, (Server_show c.1.1 c.1.2 c.2 s).2) ss calls.

(** An object reached through [n] objects that have the attribute [wrapped]
    and none of [part], [sketch] and [line]. *)
Fixpoint wrapped_in (n : nat) (o : PyObject CADCoreLike) : PyObject CADCoreLike :=
  match n with
  | 0 => o
  | S n' => Object None None None (Some (wrapped_in n' o))
  end.

End MoreOfServer.

(** ** More sample values *)

(** The sample turn to Y-up renumbers a shape. *)
Definition sample_rotate (c : @CADCoreLike sample) : @CADCoreLike sample := c + 100.

(** A [Server] instance on the class state that has shown ["B"]. *)
Definition sample_server_state : @ServerState sample :=
  {| Server_shared := sample_server; Server_obj_counter := 0; Server_log := [] |}.

(** Shape number 3, and a build123d-like builder whose [part] wraps it. *)
Definition sample_shape (n : nat) : PyObject (@CADCoreLike sample) := IsShape n.
Definition sample_builder (n : nat) : PyObject (@CADCoreLike sample) :=
  Object (Some (Object None None None (Some (IsShape n)))) None None None.

(** States to run the calls on: ["A"] shown, ["A"] shown and removed, a
    server that has started. *)
Definition sample_http : ThreadingHTTPServer :=
  {| server_name := "localhost"; server_port := 32323 |}.
Definition sample_shown : @YACV sample :=
  (@show sample [sample_cad 3] (OneName "A") ∅ sample_init).2.
Definition sample_removed : @YACV sample := (@remove sample "A" sample_shown).2.
Definition sample_started : @YACV sample := (@start sample (inr sample_http) sample_init).2.

(** A server instance that has also shown one byte of glTF as ["G"]. *)
Definition sample_server_gltf : @ServerState sample :=
  (@Server_show_gltf sample [x01] (Some "G") ∅ sample_server_state).2.

(** The CAD objects in scope for [show_cad_all], and what preprocessing
    makes of them. *)
Definition sample_scope : list (string * @CADLike sample) := [("p", 3); ("q", 5)].
Definition sample_scope_cores : list (@CADCoreLike sample) := [3; 5].

(** Two CAD objects shown as ["x"] and ["y"], options that switch clearing
    off, and calls that neither show nor remove ["x"]. *)
Definition sample_two : @YACV sample :=
  (@show sample [sample_cad 3; sample_cad 5] (ManyNames ["x"; "y"]) ∅ sample_init).2.
Definition sample_keep : gmap string (@Value sample) :=
  {["auto_clear" := SampleBool false]}.
Definition sample_calls : list (@Call sample) :=
  [CallExport "y"; CallRemove "y"; CallShow [sample_cad 7] (OneName "z") sample_keep;
   CallExport "x"].

(** ** Proofs *)

Section Proofs.
Context `{Collaborators}.

(** *** Python list operations *)

Lemma str_eqb_eq (a b : string) : str_eqb a b = true ↔ a = b.
Proof. unfold str_eqb. apply bool_decide_eq_true. Qed.

Lemma str_eqb_ne (a b : string) : str_eqb a b = false ↔ a ≠ b.
Proof. unfold str_eqb. apply bool_decide_eq_false. Qed.

Lemma contains_str (x : string) (l : list string) :
  PyList.contains str_eqb x l = true ↔ x ∈ l.
Proof.
  unfold PyList.contains. rewrite existsb_exists. split.
  - intros (y & Hy & Heq). apply str_eqb_eq in Heq. subst.
    by apply list_elem_of_In.
  - intros Hx. exists x. split; [by apply list_elem_of_In | by apply str_eqb_eq].
Qed.

Lemma contains_str_false (x : string) (l : list string) :
  PyList.contains str_eqb x l = false ↔ x ∉ l.
Proof.
  rewrite <- contains_str. destruct (PyList.contains str_eqb x l); naive_solver.
Qed.

Lemma UpdatesApiData_eq_refl (e : UpdatesApiFullData) : UpdatesApiData_eq e e = true.
Proof.
  unfold UpdatesApiData_eq, str_eqb.
  by rewrite !bool_decide_eq_true_2.
Qed.

Lemma UpdatesApiData_eq_fields (a b : UpdatesApiFullData) :
  UpdatesApiData_eq a b = true →
  name a = name b ∧ hash a = hash b ∧ is_remove a = is_remove b.
Proof.
  unfold UpdatesApiData_eq, str_eqb. rewrite !andb_true_iff, !bool_decide_eq_true.
  tauto.
Qed.

(** [l.remove(x)] does not raise for an item that was read from [l]. *)
Lemma remove_present (x : UpdatesApiFullData) (l : list UpdatesApiFullData) :
  x ∈ l →
  PyList.remove UpdatesApiData_eq x l = Some (PyList.remove_first UpdatesApiData_eq x l).
Proof.
  unfold PyList.remove_first. induction l as [|y l IH]; intros Hx.
  - by apply elem_of_nil in Hx.
  - simpl. destruct (UpdatesApiData_eq y x) eqn:Hyx; [done|].
    apply elem_of_cons in Hx as [->|Hx].
    + by rewrite UpdatesApiData_eq_refl in Hyx.
    + by rewrite (IH Hx).
Qed.

(** Dropping the head of what a filter keeps: the first item equal to it is
    the item itself, when the filter does not tell equal items apart. *)
Lemma remove_first_filter_head (P : UpdatesApiFullData → Prop) `{∀ e, Decision (P e)}
    (buf : list UpdatesApiFullData) e rest :
  (∀ a b, UpdatesApiData_eq a b = true → P a → P b) →
  filter P buf = e :: rest →
  filter P (PyList.remove_first UpdatesApiData_eq e buf) = rest
  ∧ filter (λ x, ¬ P x) (PyList.remove_first UpdatesApiData_eq e buf)
    = filter (λ x, ¬ P x) buf.
Proof.
  intros Hcl. unfold PyList.remove_first.
  induction buf as [|x buf IH]; intros Hf; [done|].
  rewrite filter_cons in Hf. simpl.
  destruct (decide (P x)) as [Hx|Hx].
  - injection Hf as -> <-. rewrite UpdatesApiData_eq_refl. simpl.
    split; [done|]. rewrite filter_cons. by rewrite decide_False by tauto.
  - assert (He : P e).
    { assert (e ∈ filter P buf) as Hin by (rewrite Hf; left).
      by apply list_elem_of_filter in Hin as [? _]. }
    destruct (UpdatesApiData_eq x e) eqn:Hxe.
    { exfalso. apply Hx. apply (Hcl e x); [|done].
      apply UpdatesApiData_eq_fields in Hxe as (? & ? & ?).
      unfold UpdatesApiData_eq, str_eqb. by rewrite !bool_decide_eq_true_2. }
    destruct (IH Hf) as [IH1 IH2].
    destruct (PyList.remove UpdatesApiData_eq e buf) as [buf'|] eqn:Hrm; simpl in *;
      rewrite !filter_cons; repeat case_decide; try tauto; by rewrite ?IH1, ?IH2.
Qed.

(** Deleting, one by one, every item a filter keeps leaves the others. *)
Lemma delete_filtered (P : UpdatesApiFullData → Prop) `{∀ e, Decision (P e)}
    (buf : list UpdatesApiFullData) :
  (∀ a b, UpdatesApiData_eq a b = true → P a → P b) →
  foldl (λ b e, PyList.remove_first UpdatesApiData_eq e b) buf (filter P buf)
  = filter (λ x, ¬ P x) buf.
Proof.
  intros Hcl.
  remember (filter P buf) as todo eqn:Htodo.
  revert buf Htodo. induction todo as [|e todo IH]; intros buf Htodo; simpl.
  - symmetry. symmetry in Htodo.
    induction buf as [|x buf IHb]; [done|].
    rewrite filter_cons in Htodo. rewrite filter_cons.
    destruct (decide (P x)); [done|].
    rewrite decide_True by done. f_equal. by apply IHb.
  - symmetry in Htodo.
    destruct (remove_first_filter_head P buf e todo Hcl Htodo) as [H1 H2].
    rewrite (IH _ (eq_sym H1)). done.
Qed.


Lemma remove_first_length (x : UpdatesApiFullData) (l : list UpdatesApiFullData) :
  length (PyList.remove_first UpdatesApiData_eq x l) ≤ length l.
Proof.
  unfold PyList.remove_first. induction l as [|y l IH]; simpl; [lia|].
  destruct (UpdatesApiData_eq y x); simpl; [lia|].
  destruct (PyList.remove UpdatesApiData_eq x l); simpl in *; lia.
Qed.

(** *** [_show_events] *)

(** The inner loop stops because the iterator runs off the list, not
    because the fuel runs out. *)
Lemma remove_while_iterating_fuel (fuel extra i : nat) nm (res : list UpdatesApiFullData) :
  length res ≤ i + fuel →
  remove_while_iterating (fuel + extra) i nm res = remove_while_iterating fuel i nm res.
Proof.
  revert i res. induction fuel as [|fuel IH]; intros i res Hlen.
  - simpl. destruct extra; [done|]. simpl.
    by rewrite lookup_ge_None_2 by lia.
  - simpl. destruct (res !! i) as [old|]; [|done].
    destruct (str_eqb (name old) nm).
    + apply IH. pose proof (remove_first_length old res). lia.
    + apply IH. lia.
Qed.

Lemma _show_events_step_other nm apply_removes res (e : UpdatesApiFullData) :
  name e ≠ nm → _show_events_step nm apply_removes res e = res.
Proof.
  intros Hne. unfold _show_events_step.
  by rewrite (proj2 (str_eqb_ne _ _) Hne).
Qed.

(** Where no event of the name is a tombstone, the query returns the events
    of that name, in log order. *)
Lemma _show_events_fold_live nm (buf res : list UpdatesApiFullData) :
  Forall (λ e, name e = nm → is_remove e = false) buf →
  foldl (_show_events_step nm true) res buf = res ++ named nm buf.
Proof.
  revert res. induction buf as [|e buf IH]; intros res Hall; simpl.
  - by rewrite app_nil_r.
  - apply Forall_cons in Hall as [He Hall]. rewrite (IH _ Hall).
    unfold named. rewrite filter_cons. destruct (decide (name e = nm)) as [Hn|Hn].
    + unfold _show_events_step. rewrite (proj2 (str_eqb_eq _ _) Hn).
      rewrite (He Hn). simpl. by rewrite <- app_assoc.
    + by rewrite _show_events_step_other.
Qed.

Lemma _show_events_of_live nm (buf : list UpdatesApiFullData) :
  Forall (λ e, name e = nm → is_remove e = false) buf →
  _show_events_of nm true buf = named nm buf.
Proof. intros Hall. unfold _show_events_of. by rewrite _show_events_fold_live. Qed.

(** Where every event of the name is a tombstone, the query returns
    nothing. *)
Lemma _show_events_of_removed nm (buf : list UpdatesApiFullData) :
  Forall (λ e, name e = nm → is_remove e = true) buf →
  _show_events_of nm true buf = [].
Proof.
  unfold _show_events_of. induction buf as [|e buf IH]; intros Hall; [done|].
  apply Forall_cons in Hall as [He Hall]. simpl.
  replace (_show_events_step nm true [] e) with (@nil UpdatesApiFullData); [by apply IH|].
  unfold _show_events_step. destruct (str_eqb (name e) nm) eqn:Hn; [|done].
  apply str_eqb_eq in Hn. by rewrite (He Hn).
Qed.

(** In a well-formed log the events of one name are all live or all
    tombstones. *)
Lemma log_ok_cases (buf : list UpdatesApiFullData) nm :
  log_ok buf →
  Forall (λ e, name e = nm → is_remove e = false) buf
  ∨ Forall (λ e, name e = nm → is_remove e = true) buf.
Proof.
  intros Hok.
  destruct (decide (Exists (λ e, name e = nm ∧ is_remove e = true) buf)) as [Hex|Hex].
  - right. apply Exists_exists in Hex as (t & Ht & Hn & Hr).
    apply Forall_forall. intros e He Hen.
    assert (e ∈ named (name t) buf) as Hin.
    { apply list_elem_of_filter. split; [congruence|done]. }
    rewrite (Hok t Ht Hr) in Hin. apply list_elem_of_singleton in Hin. by subst.
  - left. apply Forall_forall. intros e He Hen.
    destruct (is_remove e) eqn:Hr; [|done].
    exfalso. apply Hex. apply Exists_exists. by exists e.
Qed.

Lemma named_nil nm (buf : list UpdatesApiFullData) :
  named nm buf = [] ↔ Forall (λ e, name e ≠ nm) buf.
Proof.
  unfold named. rewrite Forall_forall. split.
  - intros Hnil e He Hn.
    assert (e ∈ filter (λ e, name e = nm) buf) as Hin by by apply list_elem_of_filter.
    rewrite Hnil in Hin. by apply elem_of_nil in Hin.
  - intros Hall. destruct (filter _ buf) as [|e l] eqn:Hf; [done|].
    assert (e ∈ filter (λ e, name e = nm) buf) as Hin by (rewrite Hf; left).
    apply list_elem_of_filter in Hin as [Hn He]. by destruct (Hall e He).
Qed.


(** *** [remove] *)

Lemma foldl_delete_show_event (st : YACV) (events : list UpdatesApiFullData) :
  foldl (λ s old_show_event, delete_show_event old_show_event s) st events
  = set_show_events
      {| items := foldl (λ b e, PyList.remove_first UpdatesApiData_eq e b)
                    (items (show_events st)) events |} st.
Proof.
  revert st. induction events as [|e events IH]; intros st; simpl.
  - by destruct st as [? ? ? ? [?] ? ? ? ? ? ?].
  - by rewrite IH.
Qed.

Lemma build_events_del nm (st : YACV) :
  build_events (del_build_events nm st) = delete nm (build_events st).
Proof.
  unfold del_build_events. destruct (build_events st !! nm) eqn:Hl; [done|].
  by rewrite delete_id.
Qed.

Lemma show_events_del nm (st : YACV) :
  show_events (del_build_events nm st) = show_events st.
Proof. unfold del_build_events. by destruct (build_events st !! nm). Qed.

Lemma remove_live nm latest (st : YACV) :
  Forall (λ e, name e = nm → is_remove e = false) (items (show_events st)) →
  last (named nm (items (show_events st))) = Some latest →
  remove nm st = (Ret tt, removed nm latest st).
Proof.
  intros Hlive Hlast. unfold remove, _show_events, PubSub.buffer.
  rewrite (_show_events_of_live _ _ Hlive), Hlast.
  rewrite foldl_delete_show_event. unfold named.
  rewrite (delete_filtered (λ e, name e = nm)); [done|].
  intros a b Hab Ha. apply UpdatesApiData_eq_fields in Hab as (? & _). congruence.
Qed.

Lemma remove_absent nm (st : YACV) :
  Forall (λ e, name e = nm → is_remove e = true) (items (show_events st)) →
  remove nm st = (Ret tt, st).
Proof.
  intros Hrem. unfold remove, _show_events, PubSub.buffer.
  by rewrite (_show_events_of_removed _ _ Hrem).
Qed.

Lemma items_removed nm latest (st : YACV) :
  items (show_events (removed nm latest st))
  = filter (λ e, name e ≠ nm) (items (show_events st)) ++ [with_is_remove true latest].
Proof.
  unfold removed, publish_show_event. simpl. by rewrite show_events_del.
Qed.

Lemma build_events_removed nm latest (st : YACV) :
  build_events (removed nm latest st) = delete nm (build_events st).
Proof. unfold removed, publish_show_event. simpl. by rewrite build_events_del. Qed.

Lemma last_named_elem nm latest (buf : list UpdatesApiFullData) :
  last (named nm buf) = Some latest → latest ∈ buf ∧ name latest = nm.
Proof.
  intros Hlast. apply last_Some in Hlast as [l Hl].
  assert (latest ∈ named nm buf) as Hin.
  { rewrite Hl. apply elem_of_app. right. left. }
  apply list_elem_of_filter in Hin. tauto.
Qed.

Lemma named_other nm nm' (buf : list UpdatesApiFullData) :
  nm' ≠ nm → named nm' (filter (λ e, name e ≠ nm) buf) = named nm' buf.
Proof.
  intros Hne. unfold named. induction buf as [|e buf IH]; [done|].
  rewrite !filter_cons. destruct (decide (name e ≠ nm)) as [Hn|Hn].
  - rewrite filter_cons. destruct (decide (name e = nm')); by rewrite IH.
  - rewrite IH. destruct (decide (name e = nm')); [|done].
    exfalso. apply Hn. congruence.
Qed.

Lemma named_same nm (buf : list UpdatesApiFullData) :
  named nm (filter (λ e, name e ≠ nm) buf) = [].
Proof.
  apply named_nil. apply Forall_forall. intros e He.
  by apply list_elem_of_filter in He as [? _].
Qed.

Lemma named_app nm (l1 l2 : list UpdatesApiFullData) :
  named nm (l1 ++ l2) = named nm l1 ++ named nm l2.
Proof. apply filter_app. Qed.

(** [remove] keeps the log and the cache well formed. *)
Lemma removed_state_ok nm latest (st : YACV) :
  state_ok st →
  last (named nm (items (show_events st))) = Some latest →
  state_ok (removed nm latest st).
Proof.
  intros [Hlog Hcache] Hlast.
  destruct (last_named_elem _ _ _ Hlast) as [Hin Hname].
  split.
  - rewrite items_removed. intros t Ht Hrt.
    rewrite named_app. apply elem_of_app in Ht as [Ht|Ht].
    + apply list_elem_of_filter in Ht as [Hne Ht].
      rewrite named_other by done. rewrite (Hlog t Ht Hrt).
      unfold named. simpl. rewrite filter_cons, decide_False; [done|].
      simpl. congruence.
    + apply list_elem_of_singleton in Ht. subst t. simpl. rewrite Hname.
      rewrite named_same. unfold named. rewrite filter_cons, decide_True; done.
  - intros nm' Hsome. rewrite build_events_removed in Hsome.
    destruct (decide (nm' = nm)) as [->|Hne].
    { rewrite lookup_delete_eq in Hsome. by destruct Hsome. }
    rewrite lookup_delete_ne in Hsome by done.
    destruct (Hcache nm' Hsome) as (e & He & Hen & Her).
    exists e. split; [|done]. rewrite items_removed.
    apply elem_of_app. left. apply list_elem_of_filter. split; [congruence|done].
Qed.

(** [remove] under the invariant: either the name has live events, all of
    which go and one tombstone comes, or nothing changes. *)
Lemma remove_cases nm (st : YACV) :
  state_ok st →
  (∃ latest, last (named nm (items (show_events st))) = Some latest
     ∧ is_remove latest = false
     ∧ Forall (λ e, name e = nm → is_remove e = false) (items (show_events st))
     ∧ remove nm st = (Ret tt, removed nm latest st))
  ∨ (Forall (λ e, name e = nm → is_remove e = true) (items (show_events st))
     ∧ remove nm st = (Ret tt, st)).
Proof.
  intros [Hlog Hcache].
  destruct (log_ok_cases _ nm Hlog) as [Hlive|Hrem].
  - destruct (last (named nm (items (show_events st)))) as [latest|] eqn:Hlast.
    + left. exists latest. split; [done|].
      destruct (last_named_elem _ _ _ Hlast) as [Hin Hname].
      rewrite Forall_forall in Hlive. split; [by apply Hlive|].
      split; [by apply Forall_forall|]. apply remove_live; [|done].
      by apply Forall_forall.
    + right. apply last_None in Hlast. apply named_nil in Hlast.
      assert (Forall (λ e, name e = nm → is_remove e = true) (items (show_events st))) as Hall.
      { eapply Forall_impl; [exact Hlast|]. simpl. intros e Hne Hn. done. }
      split; [done|]. by apply remove_absent.
  - right. split; [done|]. by apply remove_absent.
Qed.

Lemma remove_state_ok nm (st : YACV) :
  state_ok st → state_ok (remove nm st).2.
Proof.
  intros Hok. destruct (remove_cases nm st Hok) as [(latest & Hlast & _ & _ & ->)|[_ ->]]; simpl.
  - by apply removed_state_ok.
  - done.
Qed.

Lemma remove_returns nm (st : YACV) : (remove nm st).1 = Ret tt.
Proof. unfold remove. by destruct (last _). Qed.


(** *** Rules for triples *)

Lemma bind_run {A B} (m : M A) (k : A → M B) (st : YACV) :
  (m ≫= k) st
  = match m st with
    | (Ret a, st') => k a st'
    | (Raise e, st') => (Raise e, st')
    | (Blocks, st') => (Blocks, st')
    end.
Proof. done. Qed.

Lemma bind_returns {A B} (m : M A) (k : A → M B) (st st' : YACV) a :
  m st = (Ret a, st') → (m ≫= k) st = k a st'.
Proof. intros Hm. by rewrite bind_run, Hm. Qed.

Lemma triple_ret {A} (a : A) (R : A → YACV → Prop) E : triple (R a) (mret a) R E.
Proof. by intros st HR. Qed.

Lemma triple_raise {A} e (R : A → YACV → Prop) (E : YACV → Prop) : triple E (raise e) R E.
Proof. by intros st HE. Qed.

Lemma triple_get (P : YACV → Prop) E : triple P get (λ s st, s = st ∧ P st) E.
Proof. by intros st HP. Qed.

Lemma triple_modify (f : YACV → YACV) (P : YACV → Prop) (R : unit → YACV → Prop) E :
  (∀ st, P st → R tt (f st)) → triple P (modify f) R E.
Proof. intros Hf st HP. by apply Hf. Qed.

Lemma triple_bind {A B} (m : M A) (k : A → M B) P (R1 : A → YACV → Prop)
    (R2 : B → YACV → Prop) E :
  triple P m R1 E → (∀ a, triple (R1 a) (k a) R2 E) → triple P (m ≫= k) R2 E.
Proof.
  intros Hm Hk st HP. specialize (Hm st HP). rewrite bind_run.
  destruct (m st) as [[a|e|] st']; [|done..].
  by apply Hk.
Qed.

Lemma triple_conseq {A} (m : M A) (P P' : YACV → Prop) (R R' : A → YACV → Prop)
    (E E' : YACV → Prop) :
  (∀ st, P' st → P st) → (∀ a st, R a st → R' a st) → (∀ st, E st → E' st) →
  triple P m R E → triple P' m R' E'.
Proof.
  intros HP HR HE Hm st HP'. specialize (Hm st (HP _ HP')).
  destruct (m st) as [[a|e|] st']; auto.
Qed.

(** A loop whose invariant may mention the items already visited. *)
Lemma triple_for_each {A} (l : list A) (body : A → M unit)
    (I : list A → YACV → Prop) E :
  (∀ visited x rest, l = visited ++ x :: rest →
     triple (I visited) (body x) (λ _, I (visited ++ [x])) E) →
  triple (I []) (for_each l body) (λ _, I l) E.
Proof.
  intros Hbody.
  assert (∀ rest visited, l = visited ++ rest →
            triple (I visited) (for_each rest body) (λ _, I l) E) as Hgen.
  { induction rest as [|x rest IH]; intros visited Hl.
    - rewrite app_nil_r in Hl. subst. by intros st HI.
    - simpl. eapply triple_bind; [by apply (Hbody visited x rest)|].
      intros []. apply IH. by rewrite <- app_assoc. }
  by apply Hgen.
Qed.

Lemma same_surroundings_refl (st : YACV) : same_surroundings st st.
Proof. by repeat split. Qed.

Lemma same_surroundings_trans (a b c : YACV) :
  same_surroundings a b → same_surroundings b c → same_surroundings a c.
Proof. unfold same_surroundings. intros ? ?. intuition congruence. Qed.

Lemma state_ok_frame (st st' : YACV) :
  show_events st' = show_events st → build_events st' = build_events st →
  state_ok st → state_ok st'.
Proof.
  intros Hs Hb [Hlog Hcache]. split.
  - by rewrite Hs.
  - intros nm. rewrite Hs, Hb. apply Hcache.
Qed.

Lemma removed_surroundings nm latest (st : YACV) :
  same_surroundings st (removed nm latest st).
Proof.
  unfold removed, publish_show_event, del_build_events. simpl.
  by destruct (build_events st !! nm).
Qed.

Lemma removed_log nm latest (st : YACV) : log (removed nm latest st) = log st.
Proof.
  unfold removed, publish_show_event, del_build_events. simpl.
  by destruct (build_events st !! nm).
Qed.

(** The effect of one [remove] on a well-formed state. *)
Lemma remove_effect nm (st : YACV) :
  state_ok st →
  let st' := (remove nm st).2 in
  state_ok st'
  ∧ Forall (λ e, name e = nm → is_remove e = true) (items (show_events st'))
  ∧ (∀ (P : UpdatesApiFullData → Prop) (HdecP : ∀ e, Decision (P e)),
       (∀ e, P e → name e ≠ nm) →
       filter P (items (show_events st')) = filter P (items (show_events st)))
  ∧ build_events st' = delete nm (build_events st)
  ∧ (∀ x, x ∈ items (show_events st') → is_remove x = false →
       x ∈ items (show_events st))
  ∧ same_surroundings st st'
  ∧ log st' = log st.
Proof.
  intros Hok st'. subst st'.
  destruct (remove_cases nm st Hok) as [(latest & Hlast & Hl & Hlive & ->)|[Hrem ->]]; cbn [snd].
  - split; [by apply removed_state_ok|].
    rewrite items_removed, build_events_removed.
    split.
    { apply Forall_app. split.
      - apply Forall_forall. intros e He Hn.
        by apply list_elem_of_filter in He as [? _].
      - by apply Forall_singleton. }
    split.
    { intros P HdecP HP. rewrite filter_app.
      rewrite (filter_cons P (with_is_remove true latest)).
      destruct (last_named_elem _ _ _ Hlast) as [_ Hname].
      rewrite decide_False by (intros HPl; by apply (HP _ HPl)).
      rewrite app_nil_r. rewrite list_filter_filter.
      apply list_filter_iff. intros e. split; [tauto|]. intros HPe. split; [done|].
      by apply HP. }
    split; [done|].
    split.
    { intros x Hx Hxl. apply elem_of_app in Hx as [Hx|Hx].
      - by apply list_elem_of_filter in Hx as [_ ?].
      - apply list_elem_of_singleton in Hx. by subst x. }
    split; [apply removed_surroundings | apply removed_log].
  - split; [done|]. split; [done|]. split; [done|].
    split.
    { destruct Hok as [_ Hcache]. rewrite delete_id; [done|].
      destruct (build_events st !! nm) eqn:Hl; [|done].
      destruct (Hcache nm (mk_is_Some _ _ Hl)) as (e & He & Hn & Hr).
      rewrite Forall_forall in Hrem. rewrite (Hrem e He Hn) in Hr. done. }
    split; [done|]. split; [apply same_surroundings_refl | done].
Qed.


(** *** [clear] *)

Lemma triple_remove nm (P : YACV → Prop) (R : unit → YACV → Prop) E :
  (∀ st, P st → R tt (remove nm st).2) → triple P (remove nm) R E.
Proof.
  intros HR st HP. specialize (HR st HP).
  pose proof (remove_returns nm st) as Hret.
  destruct (remove nm st) as [o st']. simpl in *. by subst o.
Qed.

Lemma remove_count nm (st : YACV) :
  _find_var_name_count (remove nm st).2 = _find_var_name_count st.
Proof.
  unfold remove. destruct (last _); [|done]. cbn [snd].
  rewrite foldl_delete_show_event. unfold publish_show_event, del_build_events.
  simpl. by destruct (build_events st !! nm).
Qed.

Lemma clear_loop names (st0 : YACV) (l : list UpdatesApiFullData) :
  triple (cleared names st0 [])
    (for_each l (λ event,
       if negb (PyList.contains str_eqb (name event) names)
       then remove (name event) else mret tt))
    (λ _, cleared names st0 l) (λ _, False).
Proof.
  apply (triple_for_each l _ (cleared names st0)).
  intros visited x rest _.
  destruct (PyList.contains str_eqb (name x) names) eqn:Hc; simpl.
  - apply contains_str in Hc. intros st (Hok & Hf & Hb & Hv & Hl & Hs & Hlog & Hcnt).
    simpl. split; [done|]. split; [done|]. split; [done|]. split; [|tauto].
    intros e He Hne. apply elem_of_app in He as [He|He]; [by apply Hv|].
    apply list_elem_of_singleton in He. by subst e.
  - apply contains_str_false in Hc. apply triple_remove.
    intros st (Hok & Hf & Hb & Hv & Hl & Hs & Hlog & Hcnt).
    destruct (remove_effect (name x) st Hok)
      as (Hok' & Hrem & Hfil & Hbuild & Hlive & Hsur & Hlog').
    split; [done|]. split.
    { rewrite <- Hf. apply Hfil. intros e He Hn. by rewrite Hn in He. }
    split.
    { intros n Hn. rewrite Hbuild, lookup_delete_ne; [by apply Hb|].
      intros Heq. by subst n. }
    split.
    { intros e He Hne. apply elem_of_app in He as [He|He].
      - apply Forall_forall. intros y Hy Hyn.
        destruct (is_remove y) eqn:Hyr; [done|].
        specialize (Hv e He Hne). rewrite Forall_forall in Hv.
        rewrite <- (Hv y (Hlive y Hy Hyr) Hyn). done.
      - apply list_elem_of_singleton in He. by subst e. }
    split; [by auto|].
    split; [by eapply same_surroundings_trans|].
    split; [congruence|]. by rewrite remove_count.
Qed.

(** [clear] returns, keeps the state well formed, leaves the events and
    cache entries of the excepted names alone, and leaves no live event
    under any other name. *)
Lemma clear_effect except_names (st : YACV) :
  state_ok st →
  let names := default [] except_names in
  ∃ st', clear except_names st = (Ret tt, st')
    ∧ state_ok st'
    ∧ filter (λ e, name e ∈ names) (items (show_events st'))
      = filter (λ e, name e ∈ names) (items (show_events st))
    ∧ (∀ n, n ∈ names → build_events st' !! n = build_events st !! n)
    ∧ (∀ x, x ∈ items (show_events st') → is_remove x = false →
         name x ∈ names ∧ x ∈ items (show_events st))
    ∧ same_surroundings st st'
    ∧ log st' = log st
    ∧ _find_var_name_count st' = _find_var_name_count st.
Proof.
  intros Hok names.
  assert (cleared names st [] st) as Hinit.
  { split; [done|]. split; [done|]. split; [done|].
    split; [intros e He; by apply elem_of_nil in He|].
    split; [done|]. split; [apply same_surroundings_refl|done]. }
  pose proof (clear_loop names st (PubSub.buffer (show_events st)) st Hinit) as Hloop.
  unfold clear. rewrite bind_run. unfold get at 1. fold names.
  destruct (for_each _ _ st) as [[[]|e|] st']; [|done..].
  exists st'. split; [done|].
  destruct Hloop as (Hok' & Hf & Hb & Hv & Hl & Hs & Hlog & Hcnt).
  split; [done|]. split; [done|]. split; [done|]. split; [|tauto].
  intros x Hx Hxl. split; [|by apply Hl].
  destruct (decide (name x ∈ names)) as [|Hn]; [done|].
  exfalso. specialize (Hv x (Hl x Hx Hxl) Hn). rewrite Forall_forall in Hv.
  rewrite (Hv x Hx eq_refl) in Hxl. done.
Qed.


(** *** [show] *)

Lemma triple_find_var_name o (Q : YACV → Prop) E :
  (∀ n st, Q st → Q (set_find_var_name_count n st)) →
  triple Q (_find_var_name o) (λ _, Q) E.
Proof.
  intros HQ st Hst. unfold _find_var_name. destruct (stack_lookup o); [done|].
  by apply HQ.
Qed.

Lemma triple_resolve_names objs names (Q : YACV → Prop) E :
  (∀ n st, Q st → Q (set_find_var_name_count n st)) →
  triple Q (resolve_names objs names) (λ _, Q) E.
Proof.
  intros HQ.
  assert (triple Q (comprehension _find_var_name objs) (λ _, Q) E) as Hcomp.
  { induction objs as [|o objs IH]; simpl; [by intros st Hst|].
    eapply triple_bind; [by apply triple_find_var_name|]. intros y.
    eapply triple_bind; [exact IH|]. intros ys. by intros st Hst. }
  unfold resolve_names. destruct names as [|s|l]; [done| |].
  - destruct s; [done|]. by intros st Hst.
  - destruct l; [done|]. by intros st Hst.
Qed.

Lemma kept_set_count st0 n (st : YACV) : kept st0 st → kept st0 (set_find_var_name_count n st).
Proof. intros [Hok Hs]. split; [by eapply state_ok_frame|done]. Qed.

Lemma kept_logger st0 lv fmt (st : YACV) : kept st0 st → kept st0 (logger lv fmt st).
Proof. intros [Hok Hs]. split; [by eapply state_ok_frame|done]. Qed.

Lemma triple_clear_kept st0 except_names E :
  triple (kept st0) (clear except_names) (λ _, kept st0) E.
Proof.
  intros st [Hok Hs].
  destruct (clear_effect except_names st Hok) as (st' & -> & Hok' & _ & _ & _ & Hs' & _).
  split; [done|]. by eapply same_surroundings_trans.
Qed.

Lemma drop_loop_run names (l : list UpdatesApiFullData) (st : YACV) :
  for_each l (drop_old_event names) st = (Ret tt, foldl (drop_state names) st l).
Proof.
  revert st. induction l as [|e l IH]; intros st; [done|].
  simpl. rewrite bind_run. unfold drop_old_event at 1, drop_state at 2.
  destruct (PyList.contains str_eqb (name e) names); simpl; apply IH.
Qed.

Lemma drop_loop_items names (l : list UpdatesApiFullData) (st : YACV) :
  items (show_events (foldl (drop_state names) st l))
  = foldl (λ b e, PyList.remove_first UpdatesApiData_eq e b)
      (items (show_events st)) (filter (λ e, name e ∈ names) l).
Proof.
  revert st. induction l as [|e l IH]; intros st; [done|]. simpl.
  rewrite IH, filter_cons. unfold drop_state.
  destruct (PyList.contains str_eqb (name e) names) eqn:Hc.
  - apply contains_str in Hc. rewrite decide_True by done. simpl.
    by rewrite show_events_del.
  - apply contains_str_false in Hc. by rewrite decide_False by done.
Qed.

Lemma drop_loop_build_None names (l : list UpdatesApiFullData) (st : YACV) n :
  build_events st !! n = None →
  build_events (foldl (drop_state names) st l) !! n = None.
Proof.
  revert st. induction l as [|e l IH]; intros st Hn; [done|]. simpl.
  apply IH. unfold drop_state. destruct (PyList.contains _ _ _); [|done].
  rewrite build_events_del. simpl.
  destruct (decide (name e = n)) as [->|Hne];
    [apply lookup_delete_eq | by rewrite lookup_delete_ne].
Qed.

Lemma drop_loop_build_hit names (l : list UpdatesApiFullData) (st : YACV) e :
  e ∈ l → name e ∈ names →
  build_events (foldl (drop_state names) st l) !! name e = None.
Proof.
  revert st. induction l as [|x l IH]; intros st He Hn.
  - by apply elem_of_nil in He.
  - simpl. apply elem_of_cons in He as [<-|He]; [|by apply IH].
    apply drop_loop_build_None. unfold drop_state.
    rewrite (proj2 (contains_str _ _) Hn), build_events_del.
    apply lookup_delete_eq.
Qed.

Lemma drop_loop_build_miss names (l : list UpdatesApiFullData) (st : YACV) n :
  (∀ e, e ∈ l → name e ∈ names → name e ≠ n) →
  build_events (foldl (drop_state names) st l) !! n = build_events st !! n.
Proof.
  revert st. induction l as [|x l IH]; intros st Hmiss; [done|]. simpl.
  rewrite IH by (intros e He; apply Hmiss; by right).
  unfold drop_state. destruct (PyList.contains _ _ _) eqn:Hc; [|done].
  apply contains_str in Hc. rewrite build_events_del. simpl.
  apply lookup_delete_ne. apply Hmiss; [left|done].
Qed.

Lemma drop_loop_surroundings names (l : list UpdatesApiFullData) (st : YACV) :
  same_surroundings st (foldl (drop_state names) st l)
  ∧ log (foldl (drop_state names) st l) = log st
  ∧ _find_var_name_count (foldl (drop_state names) st l) = _find_var_name_count st.
Proof.
  revert st. induction l as [|x l IH]; intros st; simpl.
  - split; [apply same_surroundings_refl|done].
  - destruct (IH (drop_state names st x)) as (Hs & Hl & Hc).
    assert (same_surroundings st (drop_state names st x)
            ∧ log (drop_state names st x) = log st
            ∧ _find_var_name_count (drop_state names st x) = _find_var_name_count st)
      as (Hs' & Hl' & Hc').
    { unfold drop_state, del_build_events.
      destruct (PyList.contains _ _ _); [|split; [apply same_surroundings_refl|done]].
      by destruct (build_events (delete_show_event x st) !! name x). }
    split; [by eapply same_surroundings_trans|]. split; congruence.
Qed.

Lemma log_ok_filter (P : UpdatesApiFullData → Prop) `{∀ e, Decision (P e)}
    (buf : list UpdatesApiFullData) :
  (∀ a b, name a = name b → P a → P b) →
  log_ok buf → log_ok (filter P buf).
Proof.
  intros Hcl Hok t Ht Hr. apply list_elem_of_filter in Ht as [HPt Ht].
  unfold named. rewrite list_filter_filter.
  rewrite <- (Hok t Ht Hr). unfold named.
  apply list_filter_iff. intros e. split; [tauto|]. intros Hn. split; [done|].
  by apply (Hcl t e).
Qed.

(** The state after the first loop of [show]: no event and no cache entry
    is left under any of the names. *)
Lemma drop_loop_effect names (st : YACV) :
  state_ok st →
  let st' := foldl (drop_state names) st (items (show_events st)) in
  items (show_events st') = filter (λ e, name e ∉ names) (items (show_events st))
  ∧ state_ok st'
  ∧ (∀ n, n ∈ names → build_events st' !! n = None)
  ∧ (∀ n, n ∉ names → build_events st' !! n = build_events st !! n).
Proof.
  intros [Hlog Hcache] st'.
  assert (items (show_events st')
          = filter (λ e, name e ∉ names) (items (show_events st))) as Hitems.
  { subst st'. rewrite drop_loop_items.
    apply (delete_filtered (λ e, name e ∈ names)).
    intros a b Hab Ha. apply UpdatesApiData_eq_fields in Hab as (Hn & _).
    by rewrite <- Hn. }
  assert (∀ n, n ∈ names → build_events st' !! n = None) as Hnone.
  { intros n Hn. destruct (build_events st !! n) as [t|] eqn:Hl.
    - destruct (Hcache n (mk_is_Some _ _ Hl)) as (e & He & Hen & _).
      subst n. by apply drop_loop_build_hit.
    - by apply drop_loop_build_None. }
  assert (∀ n, n ∉ names → build_events st' !! n = build_events st !! n) as Hsame.
  { intros n Hn. apply drop_loop_build_miss. intros e _ He Heq. by subst n. }
  split; [done|]. split; [|done].
  split.
  - rewrite Hitems. apply log_ok_filter; [|done].
    intros a b Hab Ha. by rewrite <- Hab.
  - intros n Hsome. destruct (decide (n ∈ names)) as [Hn|Hn].
    { rewrite (Hnone n Hn) in Hsome. by destruct Hsome. }
    rewrite (Hsame n Hn) in Hsome.
    destruct (Hcache n Hsome) as (e & He & Hen & Her).
    exists e. split; [|done]. rewrite Hitems.
    apply list_elem_of_filter. split; [by rewrite Hen|done].
Qed.


Lemma log_ok_publish_live (buf : list UpdatesApiFullData) ev :
  log_ok buf → is_remove ev = false →
  Forall (λ e, is_remove e = true → name e ≠ name ev) buf →
  log_ok (buf ++ [ev]).
Proof.
  intros Hok Hlive Hno t Ht Hr. apply elem_of_app in Ht as [Ht|Ht].
  - rewrite named_app, (Hok t Ht Hr). unfold named.
    rewrite filter_cons, decide_False; [done|].
    rewrite Forall_forall in Hno. intros Heq. by apply (Hno t Ht Hr).
  - apply list_elem_of_singleton in Ht. subst t. congruence.
Qed.

Lemma state_ok_publish_live ev (st : YACV) :
  state_ok st → is_remove ev = false →
  Forall (λ e, is_remove e = true → name e ≠ name ev) (items (show_events st)) →
  state_ok (publish_show_event ev st).
Proof.
  intros [Hlog Hcache] Hlive Hno. split.
  - simpl. by apply log_ok_publish_live.
  - intros n Hsome. destruct (Hcache n Hsome) as (e & He & Hrest).
    exists e. split; [|done]. simpl. apply elem_of_app. by left.
Qed.

Lemma triple_publish_one names st0 kw o n :
  n ∈ names →
  triple (publishing names st0) (publish_one kw (o, n))
    (λ _, publishing names st0) (kept st0).
Proof.
  intros Hn st (Hok & Hno & Hs). unfold publish_one. simpl.
  destruct (normalise kw o) as [e|o']; simpl; [by split|].
  split; [|split; [|done]].
  - apply state_ok_publish_live; [done..|].
    eapply Forall_impl; [exact Hno|]. simpl. intros e He Hr Heq.
    apply (He Hr). by rewrite Heq.
  - simpl. apply Forall_app. split; [done|]. by apply Forall_singleton.
Qed.

Lemma triple_publish_loop names st0 kw objs :
  triple (publishing names st0) (for_each (zip objs names) (publish_one kw))
    (λ _, publishing names st0) (kept st0).
Proof.
  apply (triple_for_each (zip objs names) _ (λ _, publishing names st0)).
  intros visited [o n] rest Hzip. apply triple_publish_one.
  assert ((o, n) ∈ zip objs names) as Hin.
  { rewrite Hzip. apply elem_of_app. right. left. }
  apply (elem_of_zip_r _ _ _ _ Hin).
Qed.

Lemma triple_drop_loop names st0 s E :
  triple (λ st, s = st ∧ kept st0 st)
    (for_each (PubSub.buffer (show_events s)) (drop_old_event names))
    (λ _ st, publishing names st0 st
             ∧ Forall (λ e, name e ∉ names) (items (show_events st))
             ∧ (∀ n, n ∈ names → build_events st !! n = None)
             ∧ log st = log s
             ∧ _find_var_name_count st = _find_var_name_count s) E.
Proof.
  intros st [-> [Hok Hs]]. rewrite drop_loop_run. unfold PubSub.buffer.
  destruct (drop_loop_effect names st Hok) as (Hitems & Hok' & Hnone & _).
  destruct (drop_loop_surroundings names (items (show_events st)) st) as (Hs' & Hlog & Hc).
  assert (Forall (λ e, name e ∉ names)
            (items (show_events (foldl (drop_state names) st (items (show_events st))))))
    as Hall.
  { rewrite Hitems. apply Forall_forall. intros e He.
    by apply list_elem_of_filter in He as [? _]. }
  split; [|done]. split; [done|]. split.
  - eapply Forall_impl; [exact Hall|]. by intros e He _.
  - by eapply same_surroundings_trans.
Qed.

(** [show], however it ends, leaves the state well formed and touches
    nothing but the log, the cache, the name counter and the records. *)
Lemma show_kept objs names kw st0 :
  triple (kept st0) (show objs names kw) (λ _, kept st0) (kept st0).
Proof.
  unfold show.
  eapply triple_bind; [apply triple_resolve_names, kept_set_count|].
  intros ns. eapply (triple_bind _ _ _ (λ _, kept st0)).
  { destruct (bool_decide _); by intros st Hst. }
  intros []. eapply (triple_bind _ _ _ (λ _, kept st0)).
  { destruct (auto_clear kw); [apply triple_clear_kept | by intros st Hst]. }
  intros []. eapply triple_bind; [apply triple_get|].
  intros s. eapply (triple_bind _ _ _ (λ _, publishing ns st0)).
  { eapply triple_conseq; [| | |apply triple_drop_loop]; simpl; [done| |done].
    intros [] st. tauto. }
  intros []. eapply triple_bind; [apply triple_publish_loop|].
  intros []. apply triple_modify. intros st (Hok & _ & Hs).
  by apply kept_logger.
Qed.

(** *** [export] *)

Lemma lookup_publish_build nm data (st : YACV) :
  build_events (publish_build nm data st) !! nm
  = PubSub.publish data <$> build_events st !! nm.
Proof. unfold publish_build. simpl. apply lookup_alter_eq. Qed.

Lemma next_built_hit nm topic (st : YACV) :
  build_events st !! nm = Some topic →
  (next_built nm ≫= λ data, mret (Some data)) st
  = (match PubSub.subscribe_next topic with
     | Ret data => Ret (Some data)
     | Raise e => Raise e
     | Blocks => Blocks
     end, st).
Proof.
  intros Hl. rewrite bind_run. unfold next_built. rewrite Hl.
  by destruct (PubSub.subscribe_next topic).
Qed.

(** [export] of an unknown name. *)
Lemma export_not_found nm (st : YACV) :
  _show_events nm true st = [] →
  export nm st = (Ret None, logger WARNING "Object %s not found" st).
Proof. intros Hnil. unfold export. by rewrite Hnil. Qed.

(** [export] when the cache has an entry. *)
Lemma export_cached nm event topic (st : YACV) :
  last (_show_events nm true st) = Some event →
  build_events st !! nm = Some topic →
  export nm st
  = (match PubSub.subscribe_next topic with
     | Ret data => Ret (Some data)
     | Raise e => Raise e
     | Blocks => Blocks
     end, st).
Proof.
  intros Hlast Hhit. unfold export. rewrite Hlast, Hhit.
  rewrite bind_run. simpl. by apply next_built_hit.
Qed.

(** The first [export] of raw bytes. *)
Lemma export_first_bytes nm event b (st : YACV) :
  last (_show_events nm true st) = Some event →
  build_events st !! nm = None →
  obj event = ObjBytes b →
  export nm st = (Ret (Some b), publish_build nm b (entry_created nm st)).
Proof.
  intros Hlast Hmiss Hobj. unfold export. rewrite Hlast, Hmiss.
  unfold build_object. rewrite Hobj.
  repeat (rewrite bind_run; simpl).
  unfold next_built. rewrite lookup_publish_build. simpl.
  by rewrite lookup_insert_eq.
Qed.

(** The first [export] of a CAD object. *)
Lemma export_first_cad nm event c (st : YACV) :
  last (_show_events nm true st) = Some event →
  build_events st !! nm = None →
  obj event = ObjCAD c →
  let call := tessellate_call c (kwargs event) in
  export nm st
  = match run_tessellate call with
    | inl e => (Raise e, record_tessellate call (entry_created nm st))
    | inr gltf =>
        (Ret (Some (concat (save_to_bytes gltf))),
         logger INFO "export(%s) took %.3f seconds, %d parts"
           (publish_build nm (concat (save_to_bytes gltf))
              (record_tessellate call (entry_created nm st))))
    end.
Proof.
  intros Hlast Hmiss Hobj call. unfold export. rewrite Hlast, Hmiss.
  unfold build_object. rewrite Hobj. fold call.
  repeat (rewrite bind_run; simpl).
  destruct (run_tessellate call) as [e|gltf]; [done|].
  repeat (rewrite bind_run; simpl).
  unfold next_built. simpl. rewrite lookup_alter_eq. simpl.
  by rewrite lookup_insert_eq.
Qed.


Lemma _show_events_last nm event (st : YACV) :
  state_ok st →
  last (_show_events nm true st) = Some event →
  event ∈ items (show_events st) ∧ name event = nm ∧ is_remove event = false
  ∧ last (named nm (items (show_events st))) = Some event.
Proof.
  intros [Hlog _] Hlast. unfold _show_events, PubSub.buffer in Hlast.
  destruct (log_ok_cases _ nm Hlog) as [Hlive|Hrem].
  - rewrite (_show_events_of_live _ _ Hlive) in Hlast.
    destruct (last_named_elem _ _ _ Hlast) as [Hin Hn].
    rewrite Forall_forall in Hlive. split; [done|]. split; [done|].
    split; [by apply Hlive|done].
  - by rewrite (_show_events_of_removed _ _ Hrem) in Hlast.
Qed.

Lemma state_ok_new_entry nm (st st' : YACV) :
  show_events st' = show_events st →
  (∀ n, n ≠ nm → build_events st' !! n = build_events st !! n) →
  (∃ e, e ∈ items (show_events st) ∧ name e = nm ∧ is_remove e = false) →
  state_ok st → state_ok st'.
Proof.
  intros Hs Hb Hev [Hlog Hcache]. split; [by rewrite Hs|].
  intros n Hsome. rewrite Hs. destruct (decide (n = nm)) as [->|Hne]; [done|].
  rewrite (Hb n Hne) in Hsome. by apply Hcache.
Qed.

(** [export] touches one cache entry at most, and never the log. *)
Lemma export_frame nm (st : YACV) :
  show_events (export nm st).2 = show_events st
  ∧ (∀ n, n ≠ nm → build_events (export nm st).2 !! n = build_events st !! n)
  ∧ _find_var_name_count (export nm st).2 = _find_var_name_count st
  ∧ server_thread (export nm st).2 = server_thread st
  ∧ startup_complete (export nm st).2 = startup_complete st.
Proof.
  destruct (last (_show_events nm true st)) as [event|] eqn:Hlast.
  - destruct (build_events st !! nm) as [topic|] eqn:Hc.
    + by rewrite (export_cached _ _ _ _ Hlast Hc).
    + destruct (obj event) as [b|c] eqn:Hobj.
      * rewrite (export_first_bytes _ _ _ _ Hlast Hc Hobj). simpl.
        split; [done|]. split; [|done]. intros n Hn.
        by rewrite lookup_alter_ne, lookup_insert_ne.
      * rewrite (export_first_cad _ _ _ _ Hlast Hc Hobj).
        destruct (run_tessellate _); simpl.
        { split; [done|]. split; [|done]. intros n Hn. by rewrite lookup_insert_ne. }
        split; [done|]. split; [|done]. intros n Hn.
        by rewrite lookup_alter_ne, lookup_insert_ne.
  - apply last_None in Hlast. by rewrite (export_not_found _ _ Hlast).
Qed.

Lemma export_state_ok nm (st : YACV) : state_ok st → state_ok (export nm st).2.
Proof.
  intros Hok. destruct (export_frame nm st) as (Hs & Hb & _).
  destruct (last (_show_events nm true st)) as [event|] eqn:Hlast.
  - destruct (_show_events_last _ _ _ Hok Hlast) as (Hin & Hn & Hl & _).
    apply (state_ok_new_entry nm st); [done..| |done]. by exists event.
  - apply last_None in Hlast. rewrite (export_not_found _ _ Hlast).
    by apply (state_ok_frame st).
Qed.

(** *** Lifecycle *)

Lemma start_frame created (st : YACV) :
  show_events (start created st).2 = show_events st
  ∧ build_events (start created st).2 = build_events st
  ∧ tessellate_calls (start created st).2 = tessellate_calls st.
Proof.
  unfold start, start_spawn, start_wait, _run_server. rewrite !bind_run.
  destruct (server_thread st); [done|].
  destruct (startup_complete st) eqn:Hsc; [done|].
  destruct created; repeat (rewrite bind_run; simpl); by rewrite ?Hsc.
Qed.

Lemma stop_frame args (st : YACV) :
  show_events (stop args st).2 = show_events st
  ∧ build_events (stop args st).2 = build_events st
  ∧ tessellate_calls (stop args st).2 = tessellate_calls st.
Proof.
  unfold stop. destruct (server_thread st); [|done]. simpl.
  destruct (server st); [|done]. destruct args as [|signum args]; [done|].
  by destruct (bool_decide _).
Qed.

(** *** The invariant holds in every reachable state *)

Lemma init_state_ok : state_ok init.
Proof.
  split.
  - intros t Ht. by apply elem_of_nil in Ht.
  - intros nm Hsome. simpl in Hsome. rewrite lookup_empty in Hsome. by destruct Hsome.
Qed.

Lemma show_state_ok objs names kw (st : YACV) :
  state_ok st → state_ok (show objs names kw st).2.
Proof.
  intros Hok.
  assert (kept st st) as Hk by (split; [done|apply same_surroundings_refl]).
  pose proof (show_kept objs names kw st st Hk) as Hshow.
  destruct (show objs names kw st) as [[a|e|] st']; apply Hshow.
Qed.

Lemma clear_state_ok except_names (st : YACV) :
  state_ok st → state_ok (clear except_names st).2.
Proof.
  intros Hok. by destruct (clear_effect except_names st Hok) as (st' & -> & Hok' & _).
Qed.

Lemma reachable_state_ok (st : YACV) : reachable st → state_ok st.
Proof.
  induction 1 as [|objs names kw st _ IH|nm st _ IH|ex st _ IH|nm st _ IH
                  |ar st _ IH|created st _ IH|args st _ IH].
  - apply init_state_ok.
  - by apply show_state_ok.
  - by apply remove_state_ok.
  - by apply clear_state_ok.
  - by apply export_state_ok.
  - done.
  - destruct (start_frame created st) as (Hs & Hb & _). by apply (state_ok_frame st).
  - destruct (stop_frame args st) as (Hs & Hb & _). by apply (state_ok_frame st).
Qed.

Lemma resolve_names_given objs ns names :
  names_given ns names → resolve_names objs names = mret ns.
Proof.
  intros [(s & -> & Hne & ->) | [-> Hne]]; [by destruct s | by destruct ns].
Qed.

Lemma publish_loop_run kw objs objs' ns (st : YACV) :
  Forall2 (λ o o', normalise kw o = inr o') objs objs' →
  for_each (zip objs ns) (publish_one kw) st
  = (Ret tt, foldl (λ s ev, publish_show_event ev s) st (published kw objs' ns)).
Proof.
  intros Hnorm. revert ns st.
  induction Hnorm as [|o o' objs objs' Ho _ IH]; intros ns st; [done|].
  destruct ns as [|n ns]; [done|]. simpl.
  rewrite bind_run. unfold publish_one at 1. simpl. rewrite Ho. simpl. apply IH.
Qed.

Lemma foldl_publish_show_event (events : list UpdatesApiFullData) (st : YACV) :
  items (show_events (foldl (λ s ev, publish_show_event ev s) st events))
  = items (show_events st) ++ events
  ∧ build_events (foldl (λ s ev, publish_show_event ev s) st events) = build_events st
  ∧ same_surroundings st (foldl (λ s ev, publish_show_event ev s) st events).
Proof.
  revert st. induction events as [|ev events IH]; intros st; simpl.
  - rewrite app_nil_r. split; [done|]. split; [done|apply same_surroundings_refl].
  - destruct (IH (publish_show_event ev st)) as (Hi & Hb & Hs).
    rewrite Hi, Hb. simpl. rewrite <- app_assoc. split; [done|]. split; [done|].
    eapply same_surroundings_trans; [|exact Hs]. by repeat split.
Qed.

(** [show] with given names, as many as objects, all of which can be
    normalised: it returns, and the state it leaves is the one after the
    optional clearing, less the events and cache entries of the names, plus
    the events published. *)
Lemma show_run objs objs' ns names kw (st : YACV) :
  state_ok st → names_given ns names → length ns = length objs →
  Forall2 (λ o o', normalise kw o = inr o') objs objs' →
  let st1 := auto_cleared ns kw st in
  show objs names kw st
  = (Ret tt,
     logger INFO "show %s took %.3f seconds"
       (foldl (λ s ev, publish_show_event ev s)
          (foldl (drop_state ns) st1 (items (show_events st1)))
          (published kw objs' ns))).
Proof.
  intros Hok Hgiven Hlen Hnorm st1. unfold show.
  rewrite (resolve_names_given _ _ _ Hgiven).
  rewrite bind_run. simpl. rewrite bool_decide_eq_true_2 by done.
  rewrite bind_run. simpl.
  assert ((if auto_clear kw then clear (Some ns) else mret tt) st = (Ret tt, st1)) as Hclear.
  { subst st1. unfold auto_cleared. destruct (auto_clear kw); [|done].
    by destruct (clear_effect (Some ns) st Hok) as (st' & -> & _). }
  rewrite (bind_returns _ _ _ _ _ Hclear).
  rewrite bind_run. unfold get at 1. rewrite bind_run, drop_loop_run.
  unfold PubSub.buffer. rewrite bind_run, (publish_loop_run _ _ _ _ _ Hnorm). done.
Qed.

Lemma show_effect objs objs' ns names kw (st : YACV) :
  state_ok st → names_given ns names → length ns = length objs →
  Forall2 (λ o o', normalise kw o = inr o') objs objs' →
  let st' := (show objs names kw st).2 in
  (show objs names kw st).1 = Ret tt
  ∧ items (show_events st')
    = filter (λ e, name e ∉ ns) (items (show_events (auto_cleared ns kw st)))
      ++ published kw objs' ns
  ∧ (∀ n, n ∈ ns → build_events st' !! n = None)
  ∧ tessellate_calls st' = tessellate_calls st.
Proof.
  intros Hok Hgiven Hlen Hnorm st'. subst st'.
  rewrite (show_run _ _ _ _ _ _ Hok Hgiven Hlen Hnorm). cbn [fst snd].
  set (st1 := auto_cleared ns kw st).
  assert (state_ok st1 ∧ tessellate_calls st1 = tessellate_calls st) as [Hok1 Htc].
  { subst st1. unfold auto_cleared. destruct (auto_clear kw); [|done].
    destruct (clear_effect (Some ns) st Hok) as (s & -> & Hs & _ & _ & _ & Hsur & _).
    split; [done|]. apply Hsur. }
  destruct (drop_loop_effect ns st1 Hok1) as (Hitems & _ & Hnone & _).
  destruct (drop_loop_surroundings ns (items (show_events st1)) st1) as (Hsur & _).
  destruct (foldl_publish_show_event (published kw objs' ns)
              (foldl (drop_state ns) st1 (items (show_events st1))))
    as (Hi & Hb & Hs).
  split; [done|]. simpl. rewrite Hi, Hb, Hitems.
  split; [done|]. split; [done|].
  rewrite <- Htc.
  transitivity (tessellate_calls (foldl (drop_state ns) st1 (items (show_events st1)))).
  - apply Hs.
  - apply Hsur.
Qed.

(** Among the events published under pairwise distinct names, each name has
    exactly one. *)
Lemma named_published_once kw objs' ns nm i o' :
  NoDup ns → ns !! i = Some nm → objs' !! i = Some o' →
  named nm (published kw objs' ns) = [show_event nm o' kw].
Proof.
  unfold named, published. revert objs' i.
  induction ns as [|n ns IH]; intros objs' i Hnd Hn Ho; [done|].
  apply NoDup_cons in Hnd as [Hnotin Hnd].
  destruct objs' as [|x objs']; [done|]. simpl. rewrite filter_cons. simpl.
  destruct i as [|i]; simpl in *.
  - injection Hn as ->. injection Ho as ->. rewrite decide_True by done. f_equal.
    clear IH. revert objs'. induction ns as [|m ns IHn]; intros objs'.
    + by destruct objs'.
    + destruct objs' as [|y objs']; [done|]. simpl. rewrite filter_cons. simpl.
      rewrite decide_False.
      * apply IHn; [set_solver | by apply NoDup_cons in Hnd as [_ ?]].
      * intros ->. apply Hnotin. left.
  - rewrite decide_False.
    + by apply (IH objs' i).
    + intros ->. apply Hnotin. by apply list_elem_of_lookup_2 in Hn.
Qed.

(** After such a [show], the event published for a name is the only event
    of that name in the log and the only current one. *)
Lemma show_current objs objs' ns names kw (st : YACV) i nm o' :
  state_ok st → names_given ns names → length ns = length objs →
  Forall2 (λ o o', normalise kw o = inr o') objs objs' →
  NoDup ns → ns !! i = Some nm → objs' !! i = Some o' →
  let st' := (show objs names kw st).2 in
  named nm (items (show_events st')) = [show_event nm o' kw]
  ∧ _show_events nm true st' = [show_event nm o' kw].
Proof.
  intros Hok Hgiven Hlen Hnorm Hnd Hn Ho st'.
  destruct (show_effect objs objs' ns names kw st Hok Hgiven Hlen Hnorm)
    as (_ & Hitems & _).
  fold st' in Hitems.
  assert (nm ∈ ns) as Hin by by apply list_elem_of_lookup_2 in Hn.
  assert (named nm (items (show_events st')) = [show_event nm o' kw]) as Hnamed.
  { rewrite Hitems, named_app, (named_published_once _ _ _ _ _ _ Hnd Hn Ho).
    replace (named nm (filter _ _)) with (@nil UpdatesApiFullData); [done|].
    symmetry. apply named_nil, Forall_forall. intros e He Hen.
    apply list_elem_of_filter in He as [Hout _]. by rewrite Hen in Hout. }
  split; [done|].
  unfold _show_events, PubSub.buffer. rewrite _show_events_of_live; [done|].
  rewrite Hitems. apply Forall_app. split.
  - apply Forall_forall. intros e He Hen.
    apply list_elem_of_filter in He as [Hout _]. by rewrite Hen in Hout.
  - apply Forall_forall. intros e He _. unfold published in He.
    apply elem_of_zip_with in He as (x & n & -> & _). done.
Qed.

End Proofs.

(** ** The claims *)

Section Claims.
Context `{Collaborators}.

(** *** Claims about [export] and [remove] of names without a current event *)

(** C1. For every name with no live show event in the log, [export] gives no
    result: [YACV.export] logs the warning and returns [None] without
    touching the cache or the builder, and [Server.export] raises
    [HTTPNotFound]. *)
Theorem C1_export_not_found (nm : string) (st : YACV) (s : Server) :
  Forall (λ e, name e = nm → is_remove e = true) (PubSub.buffer (show_events st)) →
  Forall (λ data, data_name data ≠ nm) (PubSub.buffer (Server_show_events s)) →
  export nm st = (Ret None, logger WARNING "Object %s not found" st)
  ∧ Server_export nm s
    = (Raise (HTTPNotFound ("No object named " +:+ nm +:+ " was previously shown")), s).
Proof.
  intros Hst Hs. split.
  - apply export_not_found. unfold _show_events. by apply _show_events_of_removed.
  - unfold Server_export.
    destruct (list_find _ _) as [[i data]|] eqn:Hfind; [|done].
    apply list_find_Some in Hfind as (Hi & Hn & _).
    rewrite Forall_forall in Hs. exfalso. apply (Hs data); [|done].
    by apply list_elem_of_lookup_2 in Hi.
Qed.

(** Removing a name leaves no live event under it. *)
Lemma remove_leaves_no_live nm (st : YACV) :
  reachable st →
  Forall (λ e, name e = nm → is_remove e = true) (items (show_events (remove nm st).2)).
Proof.
  intros Hr. apply reachable_state_ok in Hr.
  by destruct (remove_effect nm st Hr) as (_ & Hrem & _).
Qed.

(** [remove] followed by [export] of the same name finds nothing. *)
Lemma export_after_remove nm (st : YACV) :
  reachable st →
  (export nm (remove nm st).2).1 = Ret None.
Proof.
  intros Hr. rewrite export_not_found; [done|].
  unfold _show_events. apply _show_events_of_removed.
  by apply remove_leaves_no_live.
Qed.

(** C6 (as amended). For every name that was never shown, [remove] raises
    nothing: it returns normally and leaves the whole state, log and cache
    included, as it was. *)
Theorem C6_remove_unknown_name_is_silent (nm : string) (st : YACV) :
  Forall (λ e, name e ≠ nm) (PubSub.buffer (show_events st)) →
  remove nm st = (Ret tt, st).
Proof.
  intros Hnone. apply remove_absent.
  eapply Forall_impl; [exact Hnone|]. by intros e Hne Hn.
Qed.

(** C5. For every name with a current show event, [remove] returns after
    deleting every event of that name from the log, publishing one
    tombstone that copies the latest show event (same name, hash, payload
    and options, [is_remove] set) and dropping the cache entry of the
    name; the tombstone is then the only event of that name. *)
Theorem C5_remove_current_name (nm : string) (st : YACV) :
  reachable st →
  _show_events nm true st ≠ [] →
  ∃ latest,
    last (_show_events nm true st) = Some latest
    ∧ last (named nm (PubSub.buffer (show_events st))) = Some latest
    ∧ is_remove latest = false
    ∧ (remove nm st).1 = Ret tt
    ∧ PubSub.buffer (show_events (remove nm st).2)
      = filter (λ e, name e ≠ nm) (PubSub.buffer (show_events st))
        ++ [with_is_remove true latest]
    ∧ named nm (PubSub.buffer (show_events (remove nm st).2))
      = [with_is_remove true latest]
    ∧ hash (with_is_remove true latest) = hash latest
    ∧ is_remove (with_is_remove true latest) = true
    ∧ build_events (remove nm st).2 = delete nm (build_events st)
    ∧ build_events (remove nm st).2 !! nm = None.
Proof.
  intros Hr Hcur. apply reachable_state_ok in Hr. unfold PubSub.buffer.
  destruct (remove_cases nm st Hr) as [(latest & Hlast & Hl & Hlive & Hrm)|[Hrem _]].
  - exists latest. unfold _show_events, PubSub.buffer.
    rewrite (_show_events_of_live _ _ Hlive), Hrm. cbn [fst snd].
    rewrite items_removed, build_events_removed.
    destruct (last_named_elem _ _ _ Hlast) as [_ Hname].
    repeat split; try done.
    + rewrite named_app, named_same. unfold named.
      rewrite filter_cons, decide_True; done.
    + apply lookup_delete_eq.
  - exfalso. apply Hcur. unfold _show_events. by apply _show_events_of_removed.
Qed.


(** *** The names query after a removal *)

Lemma str_remove_Some (x : string) (res res' : list string) :
  PyList.remove str_eqb x res = Some res' → x ∈ res ∧ ∀ y, y ∈ res' → y ∈ res.
Proof.
  revert res'. induction res as [|z res IH]; intros res' Hrm; [done|].
  simpl in Hrm. destruct (str_eqb z x) eqn:Hzx.
  - apply str_eqb_eq in Hzx. injection Hrm as <-. subst z.
    split; [left|]. intros y Hy. by right.
  - destruct (PyList.remove str_eqb x res) as [r|] eqn:Hr; [|done].
    injection Hrm as <-. destruct (IH r eq_refl) as [Hx Hsub].
    split; [by right|]. intros y Hy.
    apply elem_of_cons in Hy as [->|Hy]; [left | right; by apply Hsub].
Qed.

(** The loop of [shown_object_names] raises as soon as the log holds a
    tombstone whose name no earlier live event carries. *)
Lemma shown_object_names_loop_raises (buf : list UpdatesApiFullData) res t :
  t ∈ buf → is_remove t = true → name t ∉ res →
  (∀ e, e ∈ buf → is_remove e = false → name e ≠ name t) →
  shown_object_names_loop true buf res
  = Raise (ValueError "list.remove(x): x not in list").
Proof.
  revert res. induction buf as [|o buf IH]; intros res Ht Hr Hres Hlive.
  - by apply elem_of_nil in Ht.
  - simpl. destruct (is_remove o) eqn:Ho; simpl.
    + destruct (PyList.remove str_eqb (name o) res) as [res'|] eqn:Hrm; [|done].
      destruct (str_remove_Some _ _ _ Hrm) as [Hin Hsub].
      apply elem_of_cons in Ht as [->|Ht]; [done|].
      apply IH; [done..| |].
      * intros Hn. apply Hres. by apply Hsub.
      * intros e He. apply Hlive. by right.
    + apply elem_of_cons in Ht as [->|Ht]; [congruence|].
      apply IH; [done..| |].
      * intros Hn. apply elem_of_app in Hn as [Hn|Hn]; [done|].
        apply list_elem_of_singleton in Hn.
        apply (Hlive o); [left|done|done].
      * intros e He. apply Hlive. by right.
Qed.

(** In every reachable state, once a current name has been removed the
    names query raises [ValueError] instead of returning. *)
Lemma shown_object_names_after_remove nm (st : YACV) :
  reachable st → _show_events nm true st ≠ [] →
  (shown_object_names true (remove nm st).2).1
  = Raise (ValueError "list.remove(x): x not in list").
Proof.
  intros Hr Hcur. apply reachable_state_ok in Hr.
  destruct (remove_cases nm st Hr) as [(latest & Hlast & Hl & Hlive & Hrm)|[Hrem _]].
  - rewrite Hrm. cbn [snd]. unfold shown_object_names, PubSub.buffer. cbn [fst].
    rewrite items_removed.
    destruct (last_named_elem _ _ _ Hlast) as [_ Hname].
    apply (shown_object_names_loop_raises _ _ (with_is_remove true latest)).
    + apply elem_of_app. right. left.
    + done.
    + apply not_elem_of_nil.
    + intros e He Hel. apply elem_of_app in He as [He|He].
      * apply list_elem_of_filter in He as [Hne _]. simpl. congruence.
      * apply list_elem_of_singleton in He. subst e. done.
  - exfalso. apply Hcur. unfold _show_events. by apply _show_events_of_removed.
Qed.

(** *** [clear] *)

Lemma clear_loop_run names (l : list UpdatesApiFullData) (s : YACV) :
  for_each l (λ event,
    if negb (PyList.contains str_eqb (name event) names)
    then remove (name event) else mret tt) s
  = (Ret tt, foldl (λ s e, (remove (name e) s).2) s (filter (λ e, name e ∉ names) l)).
Proof.
  revert s. induction l as [|e l IH]; intros s; [done|].
  simpl. rewrite filter_cons.
  destruct (PyList.contains str_eqb (name e) names) eqn:Hc; simpl.
  - apply contains_str in Hc. rewrite decide_False by tauto.
    rewrite bind_run. simpl. apply IH.
  - apply contains_str_false in Hc. rewrite decide_True by done.
    assert (remove (name e) s = (Ret tt, (remove (name e) s).2)) as Hrun.
    { pose proof (remove_returns (name e) s) as Hret.
      destruct (remove (name e) s) as [o s']. simpl in *. by subst o. }
    rewrite (bind_returns _ _ _ _ _ Hrun). apply IH.
Qed.

Lemma clear_run except_names (st : YACV) :
  clear except_names st
  = (Ret tt,
     foldl (λ s e, (remove (name e) s).2) st
       (filter (λ e, name e ∉ default [] except_names)
          (PubSub.buffer (show_events st)))).
Proof. unfold clear. rewrite bind_run. unfold get at 1. apply clear_loop_run. Qed.

(** Without an argument [clear] excepts nothing. *)
Lemma clear_default (st : YACV) : clear None st = clear (Some []) st.
Proof. reflexivity. Qed.

(** C9. For every list of excepted names, [clear] returns after calling
    [remove] on the name of every logged event that is not excepted;
    afterwards no name outside the list has a current event or a cache
    entry, every live event left carries an excepted name, and the events
    and cache entries of the excepted names are as before. *)
Theorem C9_clear_removes_all_but_excepted (except_names : list string) (st : YACV) :
  reachable st →
  ∃ st',
    clear (Some except_names) st = (Ret tt, st')
    ∧ st' = foldl (λ s e, (remove (name e) s).2) st
              (filter (λ e, name e ∉ except_names) (PubSub.buffer (show_events st)))
    ∧ (∀ nm, nm ∉ except_names →
         _show_events nm true st' = [] ∧ build_events st' !! nm = None)
    ∧ (∀ e, e ∈ PubSub.buffer (show_events st') → is_remove e = false →
         name e ∈ except_names)
    ∧ filter (λ e, name e ∈ except_names) (PubSub.buffer (show_events st'))
      = filter (λ e, name e ∈ except_names) (PubSub.buffer (show_events st))
    ∧ (∀ nm, nm ∈ except_names → build_events st' !! nm = build_events st !! nm).
Proof.
  intros Hr. apply reachable_state_ok in Hr.
  destruct (clear_effect (Some except_names) st Hr)
    as (st' & Hrun & Hok & Hf & Hb & Hlive & _).
  simpl in Hf, Hb, Hlive.
  exists st'. split; [done|]. split.
  { rewrite clear_run in Hrun. by injection Hrun as <-. }
  assert (∀ nm, nm ∉ except_names →
            Forall (λ e, name e = nm → is_remove e = true) (items (show_events st')))
    as Hgone.
  { intros nm Hnm. apply Forall_forall. intros e He Hn.
    destruct (is_remove e) eqn:Hre; [done|].
    destruct (Hlive e He Hre) as [Hin _]. by rewrite Hn in Hin. }
  split.
  { intros nm Hnm. split.
    - unfold _show_events. by apply _show_events_of_removed, Hgone.
    - destruct (build_events st' !! nm) as [topic|] eqn:Hl; [|done].
      destruct Hok as [_ Hcache].
      destruct (Hcache nm (mk_is_Some _ _ Hl)) as (e & He & Hn & Hre).
      specialize (Hgone nm Hnm). rewrite Forall_forall in Hgone.
      by rewrite (Hgone e He Hn) in Hre. }
  split; [|done].
  intros e He Hre. by destruct (Hlive e He Hre).
Qed.


(** *** [show] of raw bytes *)

(** C10. For every byte string shown under a given name, [show] returns and
    the following [export] of the name returns exactly those bytes; neither
    call invokes the build function. *)
Theorem C10_show_bytes_then_export_is_identity (nm : string) (names : Names)
    (b : bytes) (kw : gmap string Value) (st : YACV) :
  reachable st → names_given [nm] names →
  let shown := show [InBytes b] names kw st in
  shown.1 = Ret tt
  ∧ (export nm shown.2).1 = Ret (Some b)
  ∧ tessellate_calls (export nm shown.2).2 = tessellate_calls st.
Proof.
  intros Hr Hgiven shown. apply reachable_state_ok in Hr.
  assert (Forall2 (λ o o', normalise kw o = inr o') [InBytes b] [ObjBytes b]) as Hnorm
    by by repeat constructor.
  destruct (show_effect [InBytes b] [ObjBytes b] [nm] names kw st Hr Hgiven eq_refl Hnorm)
    as (Hret & _ & Hnone & Htc).
  destruct (show_current [InBytes b] [ObjBytes b] [nm] names kw st 0 nm (ObjBytes b)
              Hr Hgiven eq_refl Hnorm)
    as (_ & Hcur); [apply NoDup_singleton | done | done |].
  fold shown in Hret, Hnone, Htc, Hcur.
  assert (last (_show_events nm true shown.2) = Some (show_event nm (ObjBytes b) kw))
    as Hlast by by rewrite Hcur.
  assert (build_events shown.2 !! nm = None) as Hmiss by (apply Hnone; left).
  rewrite (export_first_bytes _ _ _ _ Hlast Hmiss eq_refl). cbn [fst snd].
  split; [done|]. split; [done|]. exact Htc.
Qed.

(** *** Lifecycle *)

(** C7. [start] raises the assertion error, leaving the state as it was,
    whenever the thread handle is set or the startup signal has fired.
    Otherwise it spawns the serving thread and waits: the wait returns only
    in a state where the signal has fired, so the caller is released once
    the server is created and stays blocked when creating it fails. *)
Theorem C7_start_guard_and_wait (created : exn + ThreadingHTTPServer) (st : YACV) :
  (server_thread st ≠ None ∨ startup_complete st = true →
     ∃ msg, start created st = (Raise (AssertionError msg), st))
  ∧ (server_thread st = None → startup_complete st = false →
     ∃ st1,
       start_spawn st = (Ret tt, st1)
       ∧ server_thread st1 = Some ThreadStarted
       ∧ startup_complete st1 = false
       ∧ start_wait st1 = (Blocks, st1)
       ∧ match created with
         | inr srv =>
             ∃ st2, start created st = (Ret tt, st2)
                    ∧ server_thread st2 = Some ThreadServing
                    ∧ server st2 = Some srv
                    ∧ startup_complete st2 = true
         | inl _ =>
             ∃ st2, start created st = (Blocks, st2)
                    ∧ server_thread st2 = Some ThreadDead
                    ∧ startup_complete st2 = false
         end)
  ∧ (∀ s, (start_wait s).1 = Ret tt ↔ startup_complete s = true).
Proof.
  split; [|split].
  - intros Hrun. unfold start, start_spawn. rewrite bind_run.
    destruct (server_thread st) as [t|] eqn:Ht; [by eexists|].
    destruct Hrun as [Hrun|Hrun]; [done|]. rewrite Hrun. by eexists.
  - intros Ht Hsc. unfold start, start_spawn. rewrite bind_run, Ht, Hsc.
    eexists. split; [done|]. split; [done|]. split; [exact Hsc|].
    split; [unfold start_wait; simpl; by rewrite Hsc|].
    destruct created as [e|srv]; repeat (rewrite bind_run; simpl);
      unfold start_wait; simpl; rewrite ?Hsc; by eexists.
  - intros s. unfold start_wait. by destruct (startup_complete s).
Qed.

(** C8. [stop] on a server that is not running returns normally after
    logging one error record; the thread handle, the server, the event log,
    the build cache and every other field are as before. *)
Theorem C8_stop_when_not_running (args : list Z) (st : YACV) :
  server_thread st = None →
  stop args st
  = (Ret tt, logger ERROR "Cannot stop server because it is not running" st)
  ∧ log (stop args st).2
    = log st ++ [(ERROR, "Cannot stop server because it is not running")]
  ∧ server_thread (stop args st).2 = server_thread st
  ∧ server (stop args st).2 = server st
  ∧ startup_complete (stop args st).2 = startup_complete st
  ∧ show_events (stop args st).2 = show_events st
  ∧ build_events (stop args st).2 = build_events st
  ∧ tessellate_calls (stop args st).2 = tessellate_calls st.
Proof. intros Ht. unfold stop. by rewrite Ht. Qed.

End Claims.

(** ** More properties of [yacv.py] *)

Section MoreProofs.
Context `{Collaborators}.

(** *** The cache holds builds of current events *)

Lemma named_filter_out (ns : list string) nm (buf : list UpdatesApiFullData) :
  nm ∉ ns → named nm (filter (λ e, name e ∉ ns) buf) = named nm buf.
Proof.
  intros Hout. unfold named. rewrite list_filter_filter.
  apply list_filter_iff. intros e. split; [tauto|].
  intros Hn. split; [done|]. by rewrite Hn.
Qed.

Lemma cache_fresh_frame (st st' : YACV) :
  show_events st' = show_events st → build_events st' = build_events st →
  cache_fresh st → cache_fresh st'.
Proof. intros Hs Hb Hf nm topic. rewrite Hs, Hb. apply Hf. Qed.

Lemma coherent_frame (st st' : YACV) :
  show_events st' = show_events st → build_events st' = build_events st →
  coherent st → coherent st'.
Proof.
  intros Hs Hb [Hok Hf]. split; [by eapply state_ok_frame | by eapply cache_fresh_frame].
Qed.

Lemma remove_coherent nm (st : YACV) : coherent st → coherent (remove nm st).2.
Proof.
  intros [Hok Hf].
  destruct (remove_effect nm st Hok) as (Hok' & _ & Hfil & Hbuild & _).
  split; [done|]. intros n topic Hl. rewrite Hbuild in Hl.
  destruct (decide (n = nm)) as [->|Hne]; [by rewrite lookup_delete_eq in Hl|].
  rewrite lookup_delete_ne in Hl by done.
  destruct (Hf n topic Hl) as (event & Hlast & Hitems).
  exists event. split; [|done]. unfold named.
  rewrite (Hfil (λ e, name e = n)); [done|]. intros e He. congruence.
Qed.

Lemma triple_clear_coherent except_names E :
  triple coherent (clear except_names) (λ _, coherent) E.
Proof.
  unfold clear. eapply triple_bind; [apply triple_get|]. intros s.
  eapply triple_conseq;
    [| | |apply (triple_for_each _ _ (λ _, coherent) E)]; simpl.
  - intros st [_ Hst]. exact Hst.
  - by intros [] st.
  - done.
  - intros visited x rest _. destruct (negb _); [|by intros st Hst].
    apply triple_remove. intros st. apply remove_coherent.
Qed.

Lemma triple_drop_loop_coherent names s :
  triple (λ st, s = st ∧ coherent st)
    (for_each (PubSub.buffer (show_events s)) (drop_old_event names))
    (λ _, publishing_coherent names) coherent.
Proof.
  intros st [-> [Hok Hf]]. rewrite drop_loop_run. unfold PubSub.buffer.
  destruct (drop_loop_effect names st Hok) as (Hitems & Hok' & Hnone & Hsame).
  split; [split; [done|]|split; [|done]].
  - intros n topic Hl. destruct (decide (n ∈ names)) as [Hin|Hout].
    { by rewrite (Hnone n Hin) in Hl. }
    rewrite (Hsame n Hout) in Hl. destruct (Hf n topic Hl) as (event & Hlast & Hit).
    exists event. split; [|done]. by rewrite Hitems, named_filter_out.
  - rewrite Hitems. apply Forall_forall. intros e He _.
    by apply list_elem_of_filter in He as [? _].
Qed.

Lemma triple_publish_one_coherent names kw o n :
  n ∈ names →
  triple (publishing_coherent names) (publish_one kw (o, n))
    (λ _, publishing_coherent names) coherent.
Proof.
  intros Hn st ([Hok Hf] & Hno & Hnone). unfold publish_one. simpl.
  destruct (normalise kw o) as [e|o']; simpl; [by split|].
  split; [split|split].
  - apply state_ok_publish_live; [done..|].
    eapply Forall_impl; [exact Hno|]. simpl. intros e He Hr Heq.
    apply (He Hr). by rewrite Heq.
  - intros n' topic Hl. simpl in Hl.
    destruct (Hf n' topic Hl) as (event & Hlast & Hit).
    exists event. split; [|done]. simpl. rewrite named_app.
    unfold named at 2. rewrite filter_cons, decide_False, app_nil_r; [done|].
    simpl. intros ->. by rewrite (Hnone _ Hn) in Hl.
  - simpl. apply Forall_app. split; [done|]. by apply Forall_singleton.
  - done.
Qed.

Lemma show_coherent objs names kw :
  triple coherent (show objs names kw) (λ _, coherent) coherent.
Proof.
  unfold show.
  eapply triple_bind.
  { apply triple_resolve_names. intros n st. by apply coherent_frame. }
  intros ns. eapply (triple_bind _ _ _ (λ _, coherent)).
  { destruct (bool_decide _); by intros st Hst. }
  intros []. eapply (triple_bind _ _ _ (λ _, coherent)).
  { destruct (auto_clear kw); [apply triple_clear_coherent | by intros st Hst]. }
  intros []. eapply triple_bind; [apply triple_get|].
  intros s. eapply triple_bind; [apply triple_drop_loop_coherent|].
  intros []. eapply (triple_bind _ _ _ (λ _, publishing_coherent ns)).
  { apply (triple_for_each (zip objs ns) _ (λ _, publishing_coherent ns)).
    intros visited [o n] rest Hzip. apply triple_publish_one_coherent.
    assert ((o, n) ∈ zip objs ns) as Hin.
    { rewrite Hzip. apply elem_of_app. right. left. }
    apply (elem_of_zip_r _ _ _ _ Hin). }
  intros []. apply triple_modify. intros st (Hc & _).
  by apply (coherent_frame st).
Qed.

Lemma export_coherent nm (st : YACV) : coherent st → coherent (export nm st).2.
Proof.
  intros [Hok Hf]. split; [by apply export_state_ok|].
  destruct (export_frame nm st) as (Hs & Hb & _).
  intros n topic Hl. rewrite Hs.
  destruct (decide (n = nm)) as [->|Hne]; [|rewrite (Hb n Hne) in Hl; by apply Hf].
  destruct (last (_show_events nm true st)) as [event|] eqn:Hlast.
  - destruct (_show_events_last _ _ _ Hok Hlast) as (_ & _ & _ & Hlatest).
    destruct (build_events st !! nm) as [t|] eqn:Hc.
    + rewrite (export_cached _ _ _ _ Hlast Hc) in Hl. cbn [snd] in Hl.
      by apply Hf.
    + exists event. split; [done|]. unfold build_result.
      destruct (obj event) as [b|c] eqn:Hobj.
      * rewrite (export_first_bytes _ _ _ _ Hlast Hc Hobj) in Hl. cbn [snd] in Hl.
        rewrite lookup_publish_build in Hl. simpl in Hl.
        rewrite lookup_insert_eq in Hl. by injection Hl as <-.
      * rewrite (export_first_cad _ _ _ _ Hlast Hc Hobj) in Hl.
        destruct (run_tessellate _) as [e|gltf]; cbn [snd] in Hl; simpl in Hl.
        { rewrite lookup_insert_eq in Hl. by injection Hl as <-. }
        rewrite lookup_alter_eq in Hl. simpl in Hl.
        rewrite lookup_insert_eq in Hl. by injection Hl as <-.
  - apply last_None in Hlast. rewrite (export_not_found _ _ Hlast) in Hl.
    by apply Hf.
Qed.

Lemma reachable_coherent (st : YACV) : reachable st → coherent st.
Proof.
  induction 1 as [|objs names kw st _ IH|nm st _ IH|ex st _ IH|nm st _ IH
                  |ar st _ IH|created st _ IH|args st _ IH].
  - split; [apply init_state_ok|]. intros nm topic Hl. simpl in Hl.
    by rewrite lookup_empty in Hl.
  - pose proof (show_coherent objs names kw st IH) as Hshow.
    destruct (show objs names kw st) as [[a|e|] st']; apply Hshow.
  - by apply remove_coherent.
  - pose proof (triple_clear_coherent ex (λ _, False) st IH) as Hclear.
    by destruct (clear ex st) as [[a|e|] st'].
  - by apply export_coherent.
  - done.
  - destruct (start_frame created st) as (Hs & Hb & _). by apply (coherent_frame st).
  - destruct (stop_frame args st) as (Hs & Hb & _). by apply (coherent_frame st).
Qed.

(** What [export] gives for a current name in a state whose cache is
    fresh. *)
Lemma export_outcome nm event (st : YACV) :
  coherent st →
  last (_show_events nm true st) = Some event →
  (export nm st).1
  = match build_result event with
    | inr data => Ret (Some data)
    | inl e => match build_events st !! nm with Some _ => Blocks | None => Raise e end
    end.
Proof.
  intros [Hok Hf] Hlast.
  destruct (_show_events_last _ _ _ Hok Hlast) as (_ & _ & _ & Hlatest).
  destruct (build_events st !! nm) as [topic|] eqn:Hc.
  - rewrite (export_cached _ _ _ _ Hlast Hc). cbn [fst].
    destruct (Hf nm topic Hc) as (ev & Hev & Hit).
    rewrite Hlatest in Hev. injection Hev as <-.
    unfold PubSub.subscribe_next. rewrite Hit.
    by destruct (build_result event).
  - unfold build_result. destruct (obj event) as [b|c] eqn:Hobj.
    + by rewrite (export_first_bytes _ _ _ _ Hlast Hc Hobj).
    + rewrite (export_first_cad _ _ _ _ Hlast Hc Hobj).
      by destruct (run_tessellate _).
Qed.

(** X1. In every reachable state, [export] of a current name returns bytes
    exactly when building the latest event of that name gives bytes, and
    then returns those: what comes out of the cache is never the build of
    an earlier event. *)
Theorem export_returns_build_of_current_event (nm : string) (st : YACV)
    (event : UpdatesApiFullData) :
  reachable st →
  last (_show_events nm true st) = Some event →
  (∀ data, build_result event = inr data → (export nm st).1 = Ret (Some data))
  ∧ (∀ data, (export nm st).1 = Ret (Some data) → build_result event = inr data)
  ∧ (∀ e, build_result event = inl e →
       (export nm st).1
       = match build_events st !! nm with Some _ => Blocks | None => Raise e end).
Proof.
  intros Hr Hlast.
  rewrite (export_outcome nm event st (reachable_coherent st Hr) Hlast).
  destruct (build_result event) as [e|d].
  - split; [done|]. split; [by destruct (build_events st !! nm)|]. by intros e' [= <-].
  - split; [by intros data [= <-]|]. split; [by intros data [= <-]|]. done.
Qed.


(** *** The names query *)

Lemma shown_object_names_loop_live apply_removes (buf : list UpdatesApiFullData) res :
  Forall (λ e, is_remove e = false ∨ apply_removes = false) buf →
  shown_object_names_loop apply_removes buf res = Ret (res ++ (name <$> buf)).
Proof.
  revert res. induction buf as [|o buf IH]; intros res Hall; simpl.
  - by rewrite app_nil_r.
  - apply Forall_cons in Hall as [Ho Hall].
    replace (negb (is_remove o) || negb apply_removes) with true
      by (destruct Ho as [-> | ->]; [done|by rewrite orb_true_r]).
    rewrite (IH _ Hall). by rewrite <- app_assoc.
Qed.

Lemma shown_object_names_tombstone (st : YACV) :
  state_ok st → ¬ all_live (PubSub.buffer (show_events st)) →
  shown_object_names true st = (Raise (ValueError "list.remove(x): x not in list"), st).
Proof.
  intros [Hlog _] Hnot. unfold shown_object_names, PubSub.buffer, all_live in *.
  apply not_Forall_Exists in Hnot; [|intros e; apply _].
  apply Exists_exists in Hnot as (t & Ht & Hrt).
  apply not_false_is_true in Hrt.
  rewrite (shown_object_names_loop_raises _ _ t); [done..|apply not_elem_of_nil|].
  intros e He Hel Hn.
  assert (e ∈ named (name t) (items (show_events st))) as Hin
    by by apply list_elem_of_filter.
  rewrite (Hlog t Ht Hrt) in Hin. apply list_elem_of_singleton in Hin.
  subst e. congruence.
Qed.

Lemma shown_object_names_all_live (st : YACV) :
  all_live (PubSub.buffer (show_events st)) →
  shown_object_names true st = (Ret (name <$> PubSub.buffer (show_events st)), st).
Proof.
  intros Hlive. unfold shown_object_names.
  rewrite shown_object_names_loop_live; [done|].
  eapply Forall_impl; [exact Hlive|]. intros e He. by left.
Qed.

(** X2. [shown_object_names] without applying removals always returns the
    name of every logged event, tombstones included.  Applying them, in
    every reachable state it returns those names when the log holds no
    tombstone, and raises [ValueError] as soon as it holds one. *)
Theorem shown_object_names_returns_iff_no_tombstone (st : YACV) :
  reachable st →
  shown_object_names false st = (Ret (name <$> PubSub.buffer (show_events st)), st)
  ∧ (all_live (PubSub.buffer (show_events st)) →
       shown_object_names true st = (Ret (name <$> PubSub.buffer (show_events st)), st))
  ∧ (¬ all_live (PubSub.buffer (show_events st)) →
       shown_object_names true st
       = (Raise (ValueError "list.remove(x): x not in list"), st)).
Proof.
  intros Hr. apply reachable_state_ok in Hr. split; [|split].
  - unfold shown_object_names. rewrite shown_object_names_loop_live; [done|].
    apply Forall_forall. intros e _. by right.
  - apply shown_object_names_all_live.
  - by apply shown_object_names_tombstone.
Qed.

(** *** [remove] twice, [stop] twice *)

(** X3. In every reachable state a second [remove] of the same name changes
    nothing: no second tombstone is published. *)
Theorem remove_twice_is_remove_once (nm : string) (st : YACV) :
  reachable st →
  remove nm (remove nm st).2 = (Ret tt, (remove nm st).2).
Proof.
  intros Hr. apply remove_absent.
  apply reachable_state_ok in Hr.
  by destruct (remove_effect nm st Hr) as (_ & Hrem & _).
Qed.

(** X4. [stop] on a started server whose HTTP server exists clears the
    thread handle and leaves the log, the cache and the startup signal as
    they are; it ends in [SystemExit(0)] exactly when its first argument is
    SIGINT or SIGTERM, and returns otherwise.  A [stop] after it, as the
    exit hook makes, only logs that the server is not running. *)
Theorem stop_then_stop (args args' : list Z) (t : Thread) (srv : ThreadingHTTPServer)
    (st : YACV) :
  server_thread st = Some t → server st = Some srv →
  let st' := (stop args st).2 in
  (stop args st).1
  = match args with
    | signum :: _ =>
        if bool_decide (signum = SIGINT ∨ signum = SIGTERM)
        then Raise (SystemExit 0) else Ret tt
    | [] => Ret tt
    end
  ∧ server_thread st' = None
  ∧ server st' = Some srv
  ∧ startup_complete st' = startup_complete st
  ∧ show_events st' = show_events st
  ∧ build_events st' = build_events st
  ∧ stop args' st'
    = (Ret tt, logger ERROR "Cannot stop server because it is not running" st').
Proof.
  intros Ht Hs st'.
  assert (∃ s, stop args st
               = (match args with
                  | signum :: _ =>
                      if bool_decide (signum = SIGINT ∨ signum = SIGTERM)
                      then Raise (SystemExit 0) else Ret tt
                  | [] => Ret tt
                  end, s)
               ∧ server_thread s = None ∧ server s = Some srv
               ∧ startup_complete s = startup_complete st
               ∧ show_events s = show_events st
               ∧ build_events s = build_events st) as (s & Hrun & Hrest).
  { unfold stop. rewrite Ht. simpl. rewrite Hs.
    destruct args as [|signum args]; [by eexists|].
    destruct (bool_decide _); by eexists. }
  subst st'. rewrite Hrun. cbn [fst snd].
  destruct Hrest as (Hn & ? & ? & ? & ?).
  repeat split; try done. unfold stop. by rewrite Hn.
Qed.


(** *** Sequences of calls *)

Lemma run_call_reachable (c : Call) (st : YACV) :
  reachable st → reachable (run_call c st).
Proof.
  intros Hr. destruct c; unfold run_call;
    [by apply reachable_show | by apply reachable_remove | by apply reachable_clear
    | by apply reachable_export | by apply reachable_shown_object_names
    | by apply reachable_start | by apply reachable_stop].
Qed.

Lemma run_calls_reachable (calls : list Call) (st : YACV) :
  reachable st → reachable (run_calls calls st).
Proof.
  unfold run_calls. revert st. induction calls as [|c calls IH]; intros st Hr; [done|].
  simpl. by apply IH, run_call_reachable.
Qed.

Lemma show_surroundings objs names kw (st : YACV) :
  state_ok st → same_surroundings st (show objs names kw st).2.
Proof.
  intros Hok.
  assert (kept st st) as Hk by (split; [done|apply same_surroundings_refl]).
  pose proof (show_kept objs names kw st st Hk) as Hshow.
  destruct (show objs names kw st) as [[a|e|] st']; apply Hshow.
Qed.

Lemma start_returned created (st : YACV) :
  (start created st).1 = Ret tt → startup_complete (start created st).2 = true.
Proof.
  unfold start, start_spawn, start_wait, _run_server. rewrite !bind_run.
  destruct (server_thread st); [done|].
  destruct (startup_complete st) eqn:Hsc; [done|].
  destruct created; repeat (rewrite bind_run; simpl); by rewrite ?Hsc.
Qed.

Lemma start_after_startup created (st : YACV) :
  startup_complete st = true →
  ∃ msg, start created st = (Raise (AssertionError msg), st).
Proof.
  intros Hsc. unfold start, start_spawn. rewrite bind_run, Hsc.
  destruct (server_thread st); by eexists.
Qed.

Lemma run_call_startup_complete (c : Call) (st : YACV) :
  reachable st → startup_complete st = true → startup_complete (run_call c st) = true.
Proof.
  intros Hr Hsc. apply reachable_state_ok in Hr.
  destruct c as [objs names kw|nm|ex|nm|ar|created|args]; simpl.
  - destruct (show_surroundings objs names kw st Hr) as (_ & _ & -> & _). done.
  - destruct (remove_effect nm st Hr) as (_ & _ & _ & _ & _ & (_ & _ & -> & _) & _). done.
  - destruct (clear_effect ex st Hr)
      as (st' & Hrun & _ & _ & _ & _ & (_ & _ & Hs & _) & _).
    rewrite Hrun. simpl. congruence.
  - destruct (export_frame nm st) as (_ & _ & _ & _ & ->). done.
  - done.
  - by destruct (start_after_startup created st Hsc) as [msg ->].
  - unfold stop. destruct (server_thread st); [|done]. simpl.
    destruct (server st); [|done]. destruct args as [|signum args]; [done|].
    by destruct (bool_decide _).
Qed.

(** X5. Once [start] has returned, every later [start] raises the assertion
    error and changes nothing, whatever was called in between, [stop]
    included: the startup signal is never cleared. *)
Theorem start_after_start_always_raises (created created' : exn + ThreadingHTTPServer)
    (calls : list Call) (st : YACV) :
  reachable st →
  (start created st).1 = Ret tt →
  ∃ msg,
    start created' (run_calls calls (start created st).2)
    = (Raise (AssertionError msg), run_calls calls (start created st).2).
Proof.
  intros Hr Hret. apply start_after_startup.
  assert (reachable (start created st).2) as Hr' by by apply reachable_start.
  pose proof (start_returned created st Hret) as Hsc.
  revert Hr' Hsc. generalize (start created st).2 as s. unfold run_calls.
  induction calls as [|c calls IH]; intros s Hs Hsc; [done|].
  simpl. apply IH; [by apply run_call_reachable | by apply run_call_startup_complete].
Qed.

(** X6. In every reachable state the build function is called by [export]
    alone, and by it only for a current name without a cache entry whose
    latest event carries a CAD object: once, with that object and the
    options of that event.  No other call, and no other [export], adds to
    the trace of builds. *)
Theorem only_export_of_uncached_cad_builds (c : Call) (st : YACV) :
  reachable st →
  tessellate_calls (run_call c st)
  = tessellate_calls st
    ++ match c with
       | CallExport nm =>
           match build_events st !! nm, last (_show_events nm true st) with
           | None, Some event =>
               match obj event with
               | ObjCAD cad => [tessellate_call cad (kwargs event)]
               | ObjBytes _ => []
               end
           | _, _ => []
           end
       | _ => []
       end.
Proof.
  intros Hr. apply reachable_state_ok in Hr.
  destruct c as [objs names kw|nm|ex|nm|ar|created|args]; simpl; rewrite ?app_nil_r.
  - by destruct (show_surroundings objs names kw st Hr) as (_ & _ & _ & _ & _ & _ & ->).
  - by destruct (remove_effect nm st Hr)
      as (_ & _ & _ & _ & _ & (_ & _ & _ & _ & _ & _ & ->) & _).
  - destruct (clear_effect ex st Hr)
      as (st' & Hrun & _ & _ & _ & _ & (_ & _ & _ & _ & _ & _ & Hs) & _).
    by rewrite Hrun.
  - destruct (last (_show_events nm true st)) as [event|] eqn:Hlast.
    + destruct (build_events st !! nm) as [topic|] eqn:Hc.
      * rewrite (export_cached _ _ _ _ Hlast Hc). by rewrite app_nil_r.
      * destruct (obj event) as [b|cad] eqn:Hobj.
        -- rewrite (export_first_bytes _ _ _ _ Hlast Hc Hobj). by rewrite app_nil_r.
        -- rewrite (export_first_cad _ _ _ _ Hlast Hc Hobj).
           by destruct (run_tessellate _).
    + apply last_None in Hlast. rewrite (export_not_found _ _ Hlast).
      destruct (build_events st !! nm); by rewrite app_nil_r.
  - done.
  - by destruct (start_frame created st) as (_ & _ & ->).
  - by destruct (stop_frame args st) as (_ & _ & ->).
Qed.

(** *** [show] replaces the scene *)

(** Looking up names never fails and touches nothing but the counter. *)
Lemma resolve_names_returns objs names (st : YACV) :
  ∃ ns st0, resolve_names objs names st = (Ret ns, st0)
    ∧ show_events st0 = show_events st
    ∧ build_events st0 = build_events st
    ∧ same_surroundings st st0
    ∧ _find_var_name_count st ≤ _find_var_name_count st0.
Proof.
  assert (∀ s, ∃ ns st0, comprehension _find_var_name objs s = (Ret ns, st0)
            ∧ show_events st0 = show_events s
            ∧ build_events st0 = build_events s
            ∧ same_surroundings s st0
            ∧ _find_var_name_count s ≤ _find_var_name_count st0) as Hcomp.
  { induction objs as [|o objs IH]; intros s; simpl.
    - exists [], s. split; [done|]. split; [done|]. split; [done|].
      split; [apply same_surroundings_refl|done].
    - rewrite bind_run. unfold _find_var_name at 1.
      destruct (stack_lookup o) as [key|].
      + destruct (IH s) as (ns & st0 & Hrun & Hrest).
        rewrite bind_run, Hrun. by exists (key :: ns), st0.
      + destruct (IH (set_find_var_name_count (S (_find_var_name_count s)) s))
          as (ns & st0 & Hrun & Hs & Hb & Hsur & Hc).
        rewrite bind_run, Hrun. eexists _, st0. split; [done|].
        split; [done|]. split; [done|]. split; [exact Hsur|].
        simpl in Hc. lia. }
  unfold resolve_names. destruct names as [|s|l]; [apply Hcomp| |].
  - destruct s; [apply Hcomp|]. eexists _, st. split; [done|].
    split; [done|]. split; [done|]. split; [apply same_surroundings_refl|done].
  - destruct l; [apply Hcomp|]. eexists _, st. split; [done|].
    split; [done|]. split; [done|]. split; [apply same_surroundings_refl|done].
Qed.

(** [show] from the names it resolved, as many as objects, when every object
    can be normalised. *)
Lemma show_run_from objs objs' ns names kw (st st0 : YACV) :
  state_ok st0 → resolve_names objs names st = (Ret ns, st0) →
  length ns = length objs →
  Forall2 (λ o o', normalise kw o = inr o') objs objs' →
  let st1 := auto_cleared ns kw st0 in
  show objs names kw st
  = (Ret tt,
     logger INFO "show %s took %.3f seconds"
       (foldl (λ s ev, publish_show_event ev s)
          (foldl (drop_state ns) st1 (items (show_events st1)))
          (published kw objs' ns))).
Proof.
  intros Hok Hres Hlen Hnorm st1. unfold show.
  rewrite (bind_returns _ _ _ _ _ Hres).
  rewrite bool_decide_eq_true_2 by done.
  rewrite bind_run. simpl.
  assert ((if auto_clear kw then clear (Some ns) else mret tt) st0 = (Ret tt, st1)) as Hclear.
  { subst st1. unfold auto_cleared. destruct (auto_clear kw); [|done].
    by destruct (clear_effect (Some ns) st0 Hok) as (st' & -> & _). }
  rewrite (bind_returns _ _ _ _ _ Hclear).
  rewrite bind_run. unfold get at 1. rewrite bind_run, drop_loop_run.
  unfold PubSub.buffer. rewrite bind_run, (publish_loop_run _ _ _ _ _ Hnorm). done.
Qed.

Lemma published_live kw objs' ns :
  Forall (λ e, is_remove e = false) (published kw objs' ns).
Proof.
  apply Forall_forall. intros e He. unfold published in He.
  by apply elem_of_zip_with in He as (x & n & -> & _).
Qed.

Lemma published_names kw objs' ns :
  length ns = length objs' → name <$> published kw objs' ns = ns.
Proof.
  unfold published. revert objs'.
  induction ns as [|n ns IH]; intros [|o objs'] Hlen; simpl in *; try done.
  f_equal. apply IH. lia.
Qed.

Lemma filter_all {A} (P : A → Prop) `{∀ x, Decision (P x)} (l : list A) :
  Forall P l → filter P l = l.
Proof.
  induction 1 as [|x l Hx _ IH]; [done|].
  by rewrite filter_cons, decide_True, IH.
Qed.

Lemma filter_none {A} (P : A → Prop) `{∀ x, Decision (P x)} (l : list A) :
  Forall (λ x, ¬ P x) l → filter P l = [].
Proof.
  induction 1 as [|x l Hx _ IH]; [done|].
  by rewrite filter_cons, decide_False, IH.
Qed.

(** The scene a clearing [show] leaves. *)
Lemma show_scene objs objs' ns names kw (st : YACV) :
  state_ok st → (resolve_names objs names st).1 = Ret ns →
  length ns = length objs →
  Forall2 (λ o o', normalise kw o = inr o') objs objs' →
  auto_clear kw = true →
  let st' := (show objs names kw st).2 in
  (show objs names kw st).1 = Ret tt
  ∧ state_ok st'
  ∧ filter (λ e, is_remove e = false) (items (show_events st')) = published kw objs' ns.
Proof.
  intros Hok Hres Hlen Hnorm Hac st'.
  destruct (resolve_names_returns objs names st) as (ns0 & st0 & Hrun & Hs & Hb & _).
  rewrite Hrun in Hres. injection Hres as ->.
  assert (state_ok st0) as Hok0 by by apply (state_ok_frame st).
  assert (state_ok st') as Hok'.
  { subst st'. pose proof (show_state_ok objs names kw st Hok). done. }
  subst st'. split; [|split; [done|]].
  { by rewrite (show_run_from _ _ _ _ _ _ _ Hok0 Hrun Hlen Hnorm). }
  rewrite (show_run_from _ _ _ _ _ _ _ Hok0 Hrun Hlen Hnorm). cbn [snd]. simpl.
  unfold auto_cleared. rewrite Hac.
  destruct (clear_effect (Some ns) st0 Hok0)
    as (st1 & Hclear & Hok1 & _ & _ & Hlive & _).
  rewrite Hclear. cbn [snd].
  destruct (drop_loop_effect ns st1 Hok1) as (Hitems & _).
  destruct (foldl_publish_show_event (published kw objs' ns)
              (foldl (drop_state ns) st1 (items (show_events st1)))) as (Hi & _).
  rewrite Hi, Hitems, filter_app.
  rewrite (filter_all _ (published kw objs' ns)) by apply published_live.
  rewrite filter_none; [done|].
  apply Forall_forall. intros e He Hl.
  apply list_elem_of_filter in He as [Hout He].
  destruct (Hlive e He Hl) as [Hin _]. simpl in Hin. done.
Qed.

Lemma named_live_only nm (buf : list UpdatesApiFullData) :
  Forall (λ e, name e = nm → is_remove e = false) buf →
  named nm buf = named nm (filter (λ e, is_remove e = false) buf).
Proof.
  unfold named. induction 1 as [|e buf He _ IH]; [done|].
  rewrite !filter_cons. destruct (decide (name e = nm)) as [Hn|Hn].
  - rewrite (decide_True _ _ (He Hn)), filter_cons, decide_True by done.
    by rewrite IH.
  - destruct (decide (is_remove e = false)); [|done].
    by rewrite filter_cons, decide_False.
Qed.

(** In a well-formed log the current events of a name are the live events
    of that name. *)
Lemma _show_events_live_named nm (st : YACV) :
  state_ok st →
  _show_events nm true st
  = named nm (filter (λ e, is_remove e = false) (items (show_events st))).
Proof.
  intros [Hlog _]. unfold _show_events, PubSub.buffer.
  destruct (log_ok_cases _ nm Hlog) as [Hlive|Hdead].
  - rewrite _show_events_of_live by done. by apply named_live_only.
  - rewrite _show_events_of_removed by done. symmetry. apply named_nil.
    apply Forall_forall. intros e He Hn.
    apply list_elem_of_filter in He as [Hl He].
    rewrite Forall_forall in Hdead. rewrite (Hdead e He Hn) in Hl. done.
Qed.

(** X7. A [show] that clears (the default) replaces the scene: in every
    reachable state, when the call resolves to as many names as objects and
    every object can be preprocessed, it returns, the live events of the log
    are exactly the events it published, the current events of any name are
    the ones just published under it, and [export] of any other name finds
    nothing. *)
Theorem show_auto_clear_replaces_scene (objs : list (ShowObj CADLike))
    (objs' : list (YACVSupported CADCoreLike)) (ns : list string) (names : Names)
    (kw : gmap string Value) (st : YACV) :
  reachable st →
  (resolve_names objs names st).1 = Ret ns →
  length ns = length objs →
  Forall2 (λ o o', normalise kw o = inr o') objs objs' →
  auto_clear kw = true →
  let st' := (show objs names kw st).2 in
  (show objs names kw st).1 = Ret tt
  ∧ filter (λ e, is_remove e = false) (items (show_events st')) = published kw objs' ns
  ∧ (∀ n, _show_events n true st' = named n (published kw objs' ns))
  ∧ (∀ n, n ∉ ns → export n st' = (Ret None, logger WARNING "Object %s not found" st')).
Proof.
  intros Hr Hres Hlen Hnorm Hac st'. apply reachable_state_ok in Hr.
  destruct (show_scene objs objs' ns names kw st Hr Hres Hlen Hnorm Hac)
    as (Hret & Hok' & Hlive).
  fold st' in Hok', Hlive.
  assert (∀ n, _show_events n true st' = named n (published kw objs' ns)) as Hcur.
  { intros n. by rewrite _show_events_live_named, Hlive. }
  split; [done|]. split; [done|]. split; [done|].
  intros n Hn. apply export_not_found. rewrite Hcur. apply named_nil.
  apply Forall_forall. intros e He Hen. apply Hn.
  rewrite <- (published_names kw objs' ns), <- Hen.
  - by apply list_elem_of_fmap_2.
  - rewrite Hlen. by apply Forall2_length in Hnorm.
Qed.

(** *** [show_cad_all] *)

Lemma show_cad_all_names (all_cad : list (string * CADLike)) (st : YACV) :
  resolve_names (InCAD <$> all_cad.*2) (ManyNames all_cad.*1) st = (Ret all_cad.*1, st).
Proof. by destruct all_cad. Qed.

(** X8. [show_cad_all] shows the scope and nothing else: in every reachable
    state, when every CAD object in scope can be preprocessed and clearing
    is on (the default), it returns, the live events of the log are exactly
    one event per object in scope, in order, under the variable names, and
    [export] of any other name finds nothing; with nothing in scope it
    clears the scene. *)
Theorem show_cad_all_shows_the_scope (all_cad : list (string * CADLike))
    (cores : list CADCoreLike) (kw : gmap string Value) (st : YACV) :
  reachable st →
  Forall2 (λ c c', _preprocess_cad c.2 kw = inr c') all_cad cores →
  auto_clear kw = true →
  let st' := (show_cad_all all_cad kw st).2 in
  (show_cad_all all_cad kw st).1 = Ret tt
  ∧ filter (λ e, is_remove e = false) (items (show_events st'))
    = zip_with (λ c' n, show_event n (ObjCAD c') kw) cores all_cad.*1
  ∧ (∀ n, n ∉ all_cad.*1 →
       export n st' = (Ret None, logger WARNING "Object %s not found" st')).
Proof.
  intros Hr Hpre Hac st'. apply reachable_state_ok in Hr.
  assert (Forall2 (λ o o', normalise kw o = inr o')
            (InCAD <$> all_cad.*2) (ObjCAD <$> cores)) as Hnorm.
  { induction Hpre as [|[n c] c' l l' Hc _ IH]; [constructor|].
    rewrite !fmap_cons. constructor; [|exact IH].
    simpl in Hc. unfold normalise. simpl. by rewrite Hc. }
  assert ((resolve_names (InCAD <$> all_cad.*2) (ManyNames all_cad.*1) st).1
          = Ret all_cad.*1) as Hres by by rewrite show_cad_all_names.
  assert (length all_cad.*1 = length (InCAD <$> all_cad.*2)) as Hlen
    by by rewrite !length_fmap.
  destruct (show_scene _ _ _ _ kw st Hr Hres Hlen Hnorm Hac) as (Hret & Hok' & Hlive).
  unfold show_cad_all in st'. fold st' in Hok', Hlive.
  assert (published kw (ObjCAD <$> cores) all_cad.*1
          = zip_with (λ c' n, show_event n (ObjCAD c') kw) cores all_cad.*1) as Hpub.
  { unfold published. generalize (all_cad.*1). clear.
    induction cores as [|c cores IH]; intros [|n l]; simpl; try done. by rewrite IH. }
  split; [done|]. split; [by rewrite Hlive|].
  intros n Hn. apply export_not_found.
  rewrite _show_events_live_named, Hlive by done. apply named_nil.
  apply Forall_forall. intros e He Hen. apply Hn.
  rewrite <- (published_names kw (ObjCAD <$> cores) all_cad.*1), <- Hen.
  - by apply list_elem_of_fmap_2.
  - rewrite Hlen. by apply Forall2_length in Hnorm.
Qed.

(** *** Generated names *)

Lemma show_current_from objs objs' ns names kw (st st0 : YACV) i nm o' :
  state_ok st0 → resolve_names objs names st = (Ret ns, st0) →
  length ns = length objs →
  Forall2 (λ o o', normalise kw o = inr o') objs objs' →
  NoDup ns → ns !! i = Some nm → objs' !! i = Some o' →
  let st' := (show objs names kw st).2 in
  (show objs names kw st).1 = Ret tt
  ∧ named nm (items (show_events st')) = [show_event nm o' kw]
  ∧ _show_events nm true st' = [show_event nm o' kw].
Proof.
  intros Hok Hres Hlen Hnorm Hnd Hn Ho st'. subst st'.
  rewrite (show_run_from _ _ _ _ _ _ _ Hok Hres Hlen Hnorm). cbn [fst snd].
  split; [done|].
  set (st1 := auto_cleared ns kw st0).
  assert (state_ok st1) as Hok1.
  { subst st1. unfold auto_cleared. destruct (auto_clear kw); [|done].
    by destruct (clear_effect (Some ns) st0 Hok) as (s & -> & Hs & _). }
  destruct (drop_loop_effect ns st1 Hok1) as (Hitems & _).
  destruct (foldl_publish_show_event (published kw objs' ns)
              (foldl (drop_state ns) st1 (items (show_events st1)))) as (Hi & _).
  unfold _show_events, PubSub.buffer. simpl. rewrite Hi, Hitems.
  assert (named nm (filter (λ e, name e ∉ ns) (items (show_events st1))) = []) as Hnone.
  { apply named_nil, Forall_forall. intros e He Hen.
    apply list_elem_of_filter in He as [Hout _]. rewrite Hen in Hout.
    apply Hout. by apply list_elem_of_lookup_2 in Hn. }
  assert (named nm (filter (λ e, name e ∉ ns) (items (show_events st1))
                    ++ published kw objs' ns) = [show_event nm o' kw]) as Hnamed.
  { by rewrite named_app, Hnone, (named_published_once _ _ _ _ _ _ Hnd Hn Ho). }
  split; [done|]. rewrite _show_events_of_live; [done|].
  apply Forall_app. split.
  - apply named_nil in Hnone. eapply Forall_impl; [exact Hnone|]. by intros e He Hen.
  - eapply Forall_impl; [apply published_live|]. by intros e He _.
Qed.

Lemma drop_loop_count names (l : list UpdatesApiFullData) (st : YACV) :
  _find_var_name_count (foldl (drop_state names) st l) = _find_var_name_count st.
Proof.
  revert st. induction l as [|e l IH]; intros st; [done|].
  simpl. rewrite IH. unfold drop_state.
  destruct (PyList.contains str_eqb (name e) names); [|done].
  unfold del_build_events. by destruct (build_events _ !! _).
Qed.

Lemma publish_loop_count (events : list UpdatesApiFullData) (st : YACV) :
  _find_var_name_count (foldl (λ s ev, publish_show_event ev s) st events)
  = _find_var_name_count st.
Proof.
  revert st. induction events as [|ev events IH]; intros st; [done|].
  simpl. by rewrite IH.
Qed.

Lemma comprehension_found key objs (st : YACV) :
  Forall (λ o, stack_lookup o = Some key) objs →
  comprehension _find_var_name objs st = (Ret (replicate (length objs) key), st).
Proof.
  induction 1 as [|o objs Ho _ IH]; [done|].
  simpl. rewrite bind_run. unfold _find_var_name at 1. rewrite Ho.
  by rewrite bind_run, IH.
Qed.

Lemma published_one_name kw key objs' :
  published kw objs' (replicate (length objs') key)
  = (λ o', show_event key o' kw) <$> objs'.
Proof.
  unfold published. induction objs' as [|o' objs' IH]; [done|].
  simpl. by rewrite IH.
Qed.

(** X9. Objects shown without names all get the one name the stack search
    gives them.  The search of [_find_var_name] starts in its own frame,
    whose parameter [obj] is the object, so in the source that name is
    always [obj].  When the search gives [key] for every object of a
    [show] without names, the names of the call are [key] repeated and the
    counter stays where it is; when every object can be preprocessed the
    call returns, the current events of [key] are the objects of the call
    in order, and [export] of [key] serves the last object only. *)
Theorem show_without_names_uses_one_name (key : string)
    (objs : list (ShowObj CADLike)) (objs' : list (YACVSupported CADCoreLike))
    (kw : gmap string Value) (st : YACV) :
  reachable st →
  objs ≠ [] →
  Forall (λ o, stack_lookup o = Some key) objs →
  Forall2 (λ o o', normalise kw o = inr o') objs objs' →
  let st' := (show objs NoNames kw st).2 in
  resolve_names objs NoNames st = (Ret (replicate (length objs) key), st)
  ∧ (show objs NoNames kw st).1 = Ret tt
  ∧ _find_var_name_count st' = _find_var_name_count st
  ∧ _show_events key true st' = (λ o', show_event key o' kw) <$> objs'
  ∧ (∀ o', last objs' = Some o' →
       (export key st').1
       = match build_result (show_event key o' kw) with
         | inr data => Ret (Some data)
         | inl e => Raise e
         end).
Proof.
  intros Hr Hne Hstack Hnorm st'.
  pose proof (reachable_state_ok st Hr) as Hok.
  set (ns := replicate (length objs) key).
  assert (resolve_names objs NoNames st = (Ret ns, st)) as Hres
    by by apply comprehension_found.
  assert (length ns = length objs) as Hlen by apply length_replicate.
  assert (length objs' = length objs) as Hlen'
    by (symmetry; by apply Forall2_length in Hnorm).
  assert (key ∈ ns) as Hin.
  { subst ns. destruct objs as [|o objs]; [done|]. left. }
  pose proof (show_run_from _ _ _ _ _ _ _ Hok Hres Hlen Hnorm) as Hrun.
  cbv zeta in Hrun.
  set (st1 := auto_cleared ns kw st) in Hrun.
  assert (state_ok st1 ∧ _find_var_name_count st1 = _find_var_name_count st)
    as [Hok1 Hcount].
  { subst st1. unfold auto_cleared. destruct (auto_clear kw); [|done].
    by destruct (clear_effect (Some ns) st Hok)
      as (s & -> & Hs & _ & _ & _ & _ & _ & Hc). }
  destruct (drop_loop_effect ns st1 Hok1) as (Hitems & _ & Hnone & _).
  destruct (foldl_publish_show_event (published kw objs' ns)
              (foldl (drop_state ns) st1 (items (show_events st1))))
    as (Hi & Hb & _).
  assert (published kw objs' ns = (λ o', show_event key o' kw) <$> objs') as Hpub.
  { subst ns. rewrite <- Hlen'. apply published_one_name. }
  assert (items (show_events st')
          = filter (λ e, name e ∉ ns) (items (show_events st1))
            ++ ((λ o', show_event key o' kw) <$> objs')) as Hlog.
  { subst st'. rewrite Hrun. cbn [snd]. simpl. by rewrite Hi, Hitems, Hpub. }
  assert (build_events st' !! key = None) as Hmiss.
  { subst st'. rewrite Hrun. cbn [snd]. simpl. rewrite Hb. by apply Hnone. }
  assert (_show_events key true st' = (λ o', show_event key o' kw) <$> objs') as Hcur.
  { unfold _show_events, PubSub.buffer. rewrite _show_events_of_live.
    - rewrite Hlog, named_app.
      replace (named key (filter _ _)) with (@nil UpdatesApiFullData).
      + unfold named. simpl. apply filter_all. apply Forall_forall.
        intros e He. by apply list_elem_of_fmap in He as (o' & -> & _).
      + symmetry. apply named_nil, Forall_forall. intros e He Hen.
        apply list_elem_of_filter in He as [Hout _]. by rewrite Hen in Hout.
    - rewrite Hlog. apply Forall_app. split.
      + apply Forall_forall. intros e He Hen.
        apply list_elem_of_filter in He as [Hout _]. by rewrite Hen in Hout.
      + apply Forall_forall. intros e He _.
        by apply list_elem_of_fmap in He as (o' & -> & _). }
  split; [done|]. split; [by rewrite Hrun|]. split.
  { subst st'. rewrite Hrun. cbn [snd]. simpl.
    by rewrite publish_loop_count, drop_loop_count. }
  split; [done|].
  intros o' Hlast.
  assert (last (_show_events key true st') = Some (show_event key o' kw)) as Hlatest.
  { by rewrite Hcur, fmap_last, Hlast. }
  assert (coherent st') as Hcoh by by apply reachable_coherent, reachable_show.
  rewrite (export_outcome key _ st' Hcoh Hlatest), Hmiss. done.
Qed.

(** *** [export_all] *)

(** X10. Once anything has been removed, [export_all] exports nothing: in
    every reachable state whose log holds a tombstone it creates the folder
    and then raises the [ValueError] of the names query, before any file is
    opened and with the state unchanged. *)
Theorem export_all_raises_after_any_remove (folder : string)
    (export_filter : string → YACVSupported CADCoreLike → bool) (st : YACV) :
  reachable st →
  ¬ all_live (PubSub.buffer (show_events st)) →
  export_all folder export_filter st
  = (Raise (ValueError "list.remove(x): x not in list"), st, [Makedirs folder]).
Proof.
  intros Hr Hnot. apply reachable_state_ok in Hr.
  unfold export_all. by rewrite shown_object_names_tombstone.
Qed.

Lemma all_live_current nm (st : YACV) :
  all_live (items (show_events st)) →
  _show_events nm true st = named nm (items (show_events st)).
Proof.
  intros Hlive. unfold _show_events, PubSub.buffer. apply _show_events_of_live.
  eapply Forall_impl; [exact Hlive|]. by intros e He _.
Qed.

Lemma export_all_loop_run folder export_filter (buffer : list UpdatesApiFullData)
    (l : list UpdatesApiFullData) (s : YACV) (ops : list FileOp) :
  coherent s → items (show_events s) = buffer → all_live buffer →
  Forall (λ e, ∃ data, build_result e = inr data) buffer →
  l ⊆ buffer →
  ∃ s', export_all_loop folder export_filter (name <$> l) s ops
        = (Ret tt, s',
           ops ++ flat_map (λ e,
             match last (named (name e) buffer) with
             | Some latest =>
                 match build_result latest with
                 | inr data =>
                     if export_filter (name e) (obj latest)
                     then [OpenFile folder (name e +:+ ".glb");
                           WriteFile folder (name e +:+ ".glb") data]
                     else []
                 | inl _ => []
                 end
             | None => []
             end) l)
    ∧ coherent s' ∧ show_events s' = show_events s.
Proof.
  intros Hc Hitems Hlive Hbuild. revert s ops Hc Hitems.
  induction l as [|e l IH]; intros s ops Hc Hitems Hsub.
  - exists s. simpl. by rewrite app_nil_r.
  - assert (e ∈ buffer) as He by (apply Hsub; left).
    assert (l ⊆ buffer) as Hsub' by (intros x Hx; apply Hsub; by right).
    assert (_show_events (name e) true s = named (name e) buffer) as Hcur.
    { rewrite all_live_current; by rewrite Hitems. }
    assert (e ∈ named (name e) buffer) as Hin by by apply list_elem_of_filter.
    destruct (last (named (name e) buffer)) as [latest|] eqn:Hlast; cycle 1.
    { apply last_None in Hlast. rewrite Hlast in Hin. by apply elem_of_nil in Hin. }
    assert (latest ∈ buffer) as Hlatest.
    { apply last_Some_elem_of in Hlast. by apply list_elem_of_filter in Hlast as [_ ?]. }
    rewrite Forall_forall in Hbuild. destruct (Hbuild latest Hlatest) as [data Hdata].
    rewrite fmap_cons. cbn [export_all_loop flat_map]. rewrite Hcur, Hlast, Hdata.
    destruct (export_filter (name e) (obj latest)) eqn:Hflt.
    + assert ((export (name e) s).1 = Ret (Some data)) as Hexp.
      { rewrite (export_outcome _ latest) by (done || by rewrite Hcur).
        by rewrite Hdata. }
      destruct (export (name e) s) as [out s1] eqn:Hrun. simpl in Hexp. subst out.
      assert (coherent s1) as Hc1.
      { pose proof (export_coherent (name e) s Hc) as Hx. by rewrite Hrun in Hx. }
      destruct (export_frame (name e) s) as (Hs1 & _). rewrite Hrun in Hs1.
      cbn [snd] in Hs1.
      destruct (IH s1 ((ops ++ [OpenFile folder (name e +:+ ".glb")])
                         ++ [WriteFile folder (name e +:+ ".glb") data]) Hc1)
        as (s' & Hloop & Hc' & Hs'); [by rewrite Hs1|done|].
      exists s'. rewrite Hloop. split.
      { f_equal. rewrite <- !app_assoc. done. }
      split; [done|]. by rewrite Hs', Hs1.
    + destruct (IH s ops Hc Hitems Hsub') as (s' & Hloop & Hc' & Hs').
      exists s'. by rewrite Hloop.
Qed.

(** X11. On a reachable state whose log holds no tombstone and whose events
    can all be built, [export_all] returns, leaves the log as it is, and
    asks the file system for the folder and then, for each event of the log
    in order whose name and latest payload pass the filter, for the file of
    that name, written with the build of the latest event of that name. *)
Theorem export_all_writes_latest_builds (folder : string)
    (export_filter : string → YACVSupported CADCoreLike → bool) (st : YACV) :
  reachable st →
  all_live (PubSub.buffer (show_events st)) →
  Forall (λ e, ∃ data, build_result e = inr data) (PubSub.buffer (show_events st)) →
  ∃ st', export_all folder export_filter st
         = (Ret tt, st', exported_files folder export_filter (PubSub.buffer (show_events st)))
    ∧ show_events st' = show_events st.
Proof.
  intros Hr Hlive Hbuild. apply reachable_coherent in Hr.
  unfold export_all. rewrite shown_object_names_all_live by done.
  unfold PubSub.buffer in *.
  destruct (export_all_loop_run folder export_filter (items (show_events st))
              (items (show_events st)) st [Makedirs folder] Hr eq_refl Hlive Hbuild)
    as (s' & Hloop & _ & Hs'); [done|].
  exists s'. by rewrite Hloop.
Qed.

(** *** The handlers [start] registers *)

Lemma spawned_once_frame (st st' : YACV) :
  same_surroundings st st' → spawned_once st → spawned_once st'.
Proof.
  intros (Ht & Hs & Hc & _ & Hh & Ha & _). unfold spawned_once.
  by rewrite Ht, Hs, Hc, Hh, Ha.
Qed.

Lemma export_surroundings nm (st : YACV) :
  server_thread (export nm st).2 = server_thread st
  ∧ server (export nm st).2 = server st
  ∧ startup_complete (export nm st).2 = startup_complete st
  ∧ signal_handlers (export nm st).2 = signal_handlers st
  ∧ atexit_handlers (export nm st).2 = atexit_handlers st.
Proof.
  destruct (last (_show_events nm true st)) as [event|] eqn:Hlast.
  - destruct (build_events st !! nm) as [topic|] eqn:Hc.
    + by rewrite (export_cached _ _ _ _ Hlast Hc).
    + destruct (obj event) as [b|c] eqn:Hobj.
      * by rewrite (export_first_bytes _ _ _ _ Hlast Hc Hobj).
      * rewrite (export_first_cad _ _ _ _ Hlast Hc Hobj).
        by destruct (run_tessellate _).
  - apply last_None in Hlast. by rewrite (export_not_found _ _ Hlast).
Qed.

Lemma start_spawned_once created (st : YACV) :
  spawned_once st → spawned_once (start created st).2.
Proof.
  intros Hso. unfold start, start_spawn, start_wait, _run_server.
  rewrite !bind_run.
  destruct (server_thread st) as [t|] eqn:Ht; [exact Hso|].
  destruct (startup_complete st) eqn:Hsc; [exact Hso|].
  destruct Hso as [Hsrv Hcase]. rewrite Ht, Hsc in Hcase.
  destruct Hcase as [(Hh & Ha & _)|(_ & _ & [[? [=]]|[=]])].
  destruct created as [e|srv]; repeat (rewrite bind_run; simpl); rewrite ?Hsc;
    unfold spawned_once; simpl; rewrite Hh, Ha.
  - split; [left; destruct Hsrv; [done|congruence]|]. right. split; [done|]. split; [done|].
    left. by eexists.
  - split; [by right|]. right. split; [done|]. split; [done|]. by right.
Qed.

Lemma stop_spawned_once args (st : YACV) :
  spawned_once st → spawned_once (stop args st).2.
Proof.
  intros Hso. unfold stop.
  destruct (server_thread st) as [t|] eqn:Ht; [|exact Hso]. simpl.
  destruct Hso as [Hsrv Hcase]. rewrite Ht in Hcase.
  destruct (server st) as [srv|] eqn:Hs.
  - destruct Hsrv as [[=]|Hsc].
    destruct Hcase as [(_ & _ & [=] & _)|(Hh & Ha & _)].
    assert (spawned_once
              (logger INFO "Stopping server (confirmed)..."
                 (set_server_thread None
                    (logger INFO "Stopping server (sent)..."
                       (logger INFO "Stopping server (waiting for no more frontend requests)..."
                          (logger INFO "Stopping server (waiting for at least one frontend request first, cancel with CTRL+C)..." st)))))) as Hdone.
    { split; simpl; [by right|]. right. split; [done|]. split; [done|]. by right. }
    destruct args as [|signum args]; [done|]. by destruct (bool_decide _).
  - simpl. split; simpl; [by left|]. rewrite Ht.
    destruct Hcase as [(_ & _ & [=] & _)|Hcase]. by right.
Qed.

Lemma reachable_spawned_once (st : YACV) : reachable st → spawned_once st.
Proof.
  induction 1 as [|objs names kw st Hr IH|nm st Hr IH|ex st Hr IH|nm st Hr IH
                  |ar st _ IH|created st _ IH|args st _ IH].
  - split; [by left|]. by left.
  - apply reachable_state_ok in Hr.
    apply (spawned_once_frame st); [by apply show_surroundings|done].
  - apply reachable_state_ok in Hr.
    destruct (remove_effect nm st Hr) as (_ & _ & _ & _ & _ & Hsur & _).
    apply (spawned_once_frame st); [exact Hsur|done].
  - apply reachable_state_ok in Hr.
    destruct (clear_effect ex st Hr) as (st' & Hrun & _ & _ & _ & _ & Hsur & _).
    rewrite Hrun. apply (spawned_once_frame st); [exact Hsur|done].
  - destruct (export_surroundings nm st) as (Ht & Hs & Hc & Hh & Ha).
    unfold spawned_once. by rewrite Ht, Hs, Hc, Hh, Ha.
  - done.
  - by apply start_spawned_once.
  - by apply stop_spawned_once.
Qed.

(** X12. Whatever is called, [start] registers [stop] at most once, and for
    one signal number only: [SIGINT | SIGTERM] is 15, which is SIGTERM, so
    in every reachable state the registered signals are none or SIGTERM
    alone, never SIGINT, with as many exit hooks as signals. *)
Theorem stop_is_never_registered_for_SIGINT (st : YACV) :
  reachable st →
  ((signal_handlers st = [] ∧ atexit_handlers st = 0)
   ∨ (signal_handlers st = [SIGTERM] ∧ atexit_handlers st = 1))
  ∧ (is_Some (server_thread st) → signal_handlers st = [SIGTERM])
  ∧ SIGINT ∉ signal_handlers st.
Proof.
  intros Hr. destruct (reachable_spawned_once st Hr) as [_ Hcase].
  destruct Hcase as [(Hh & Ha & Ht & _)|(Hh & Ha & _)]; rewrite Hh.
  - split; [by left|]. split; [|apply not_elem_of_nil].
    rewrite Ht. by intros [? [=]].
  - split; [by right|]. split; [done|].
    intros Hin. apply list_elem_of_singleton in Hin. discriminate.
Qed.

(** *** Tombstones left by a clearing [show] *)

(** [remove] never makes a name vanish from the log. *)
Lemma remove_keeps_names nm nm' (st : YACV) :
  state_ok st →
  (∃ e, e ∈ items (show_events st) ∧ name e = nm) →
  ∃ e, e ∈ items (show_events (remove nm' st).2) ∧ name e = nm.
Proof.
  intros Hok (e & He & Hn).
  destruct (remove_cases nm' st Hok) as [(latest & Hlast & _ & _ & Hrun)|[_ Hrun]];
    rewrite Hrun; cbn [snd]; [|by exists e].
  rewrite items_removed. destruct (decide (nm = nm')) as [->|Hne].
  - exists (with_is_remove true latest). split; [apply elem_of_app; right; left|].
    apply last_named_elem in Hlast as [_ Hname]. done.
  - exists e. split; [|done]. apply elem_of_app. left.
    apply list_elem_of_filter. split; [congruence|done].
Qed.

Lemma clear_keeps_names except_names nm (st : YACV) :
  state_ok st →
  (∃ e, e ∈ items (show_events st) ∧ name e = nm) →
  ∃ e, e ∈ items (show_events (clear except_names st).2) ∧ name e = nm.
Proof.
  intros Hok Hex. rewrite clear_run. cbn [snd].
  generalize (filter (λ e, name e ∉ default [] except_names)
                (PubSub.buffer (show_events st))).
  intros l. revert st Hok Hex. induction l as [|x l IH]; intros st Hok Hex; [done|].
  simpl. apply IH; [by apply remove_state_ok | by apply remove_keeps_names].
Qed.

(** X13. A clearing [show] (the default) that replaces anything breaks the
    names query: in every reachable state whose log holds an event under a
    name the call does not show, the call leaves a tombstone of that name,
    after which [shown_object_names] raises [ValueError] and [export_all]
    raises it before opening any file. *)
Theorem show_over_other_names_breaks_names_query (objs : list (ShowObj CADLike))
    (objs' : list (YACVSupported CADCoreLike)) (ns : list string) (names : Names)
    (kw : gmap string Value) (e : UpdatesApiFullData) (folder : string)
    (export_filter : string → YACVSupported CADCoreLike → bool) (st : YACV) :
  reachable st →
  (resolve_names objs names st).1 = Ret ns →
  length ns = length objs →
  Forall2 (λ o o', normalise kw o = inr o') objs objs' →
  auto_clear kw = true →
  e ∈ items (show_events st) → name e ∉ ns →
  let st' := (show objs names kw st).2 in
  (show objs names kw st).1 = Ret tt
  ∧ (∃ t, t ∈ items (show_events st') ∧ name t = name e ∧ is_remove t = true)
  ∧ shown_object_names true st'
    = (Raise (ValueError "list.remove(x): x not in list"), st')
  ∧ export_all folder export_filter st'
    = (Raise (ValueError "list.remove(x): x not in list"), st', [Makedirs folder]).
Proof.
  intros Hr Hres Hlen Hnorm Hac He Hout st'. apply reachable_state_ok in Hr.
  destruct (resolve_names_returns objs names st) as (ns0 & st0 & Hrun & Hs & Hb & _).
  rewrite Hrun in Hres. injection Hres as ->.
  assert (state_ok st0) as Hok0 by by apply (state_ok_frame st).
  assert (state_ok st') as Hok' by apply (show_state_ok objs names kw st Hr).
  assert (∃ t, t ∈ items (show_events st') ∧ name t = name e ∧ is_remove t = true)
    as Htomb.
  { subst st'. rewrite (show_run_from _ _ _ _ _ _ _ Hok0 Hrun Hlen Hnorm). cbn [snd].
    simpl. unfold auto_cleared. rewrite Hac.
    destruct (clear_keeps_names (Some ns) (name e) st0 Hok0) as (t & Ht & Hn).
    { exists e. by rewrite Hs. }
    destruct (clear_effect (Some ns) st0 Hok0)
      as (st1 & Hclear & Hok1 & _ & _ & Hlive & _).
    rewrite Hclear in Ht |- *. cbn [snd] in Ht |- *.
    destruct (drop_loop_effect ns st1 Hok1) as (Hitems & _).
    destruct (foldl_publish_show_event (published kw objs' ns)
                (foldl (drop_state ns) st1 (items (show_events st1)))) as (Hi & _).
    exists t. rewrite Hi, Hitems. split; [|split; [done|]].
    - apply elem_of_app. left. apply list_elem_of_filter. split; [by rewrite Hn|done].
    - destruct (is_remove t) eqn:Hrt; [done|].
      destruct (Hlive t Ht Hrt) as [Hin _]. simpl in Hin. by rewrite Hn in Hin. }
  assert (¬ all_live (PubSub.buffer (show_events st'))) as Hnot.
  { destruct Htomb as (t & Ht & _ & Hrt). intros Hlive.
    unfold all_live, PubSub.buffer in Hlive. rewrite Forall_forall in Hlive.
    rewrite (Hlive t Ht) in Hrt. done. }
  split.
  { by rewrite (show_run_from _ _ _ _ _ _ _ Hok0 Hrun Hlen Hnorm). }
  split; [done|]. split; [by apply shown_object_names_tombstone|].
  unfold export_all. by rewrite shown_object_names_tombstone.
Qed.

End MoreProofs.

(** ** The claims on the build cache and on [show] *)

Section CacheAndShowClaims.
Context `{Collaborators}.

(** *** Calls that leave a name alone *)

Lemma named_filter_in (ns : list string) nm (buf : list UpdatesApiFullData) :
  nm ∈ ns → named nm (filter (λ e, name e ∈ ns) buf) = named nm buf.
Proof.
  intros Hin. unfold named. rewrite list_filter_filter.
  apply list_filter_iff. intros e. split; [tauto|].
  intros Hn. split; [done|]. by rewrite Hn.
Qed.

Lemma publish_loop_keeps_name nm kw (l : list (ShowObj CADLike * string)) (s : YACV) :
  Forall (λ p, p.2 ≠ nm) l →
  named nm (items (show_events (for_each l (publish_one kw) s).2))
  = named nm (items (show_events s))
  ∧ build_events (for_each l (publish_one kw) s).2 = build_events s.
Proof.
  intros Hall. revert s. induction Hall as [|[o n] l Hn _ IH]; intros s; [done|].
  simpl. rewrite bind_run.
  assert (∃ out s1, publish_one kw (o, n) s = (out, s1)
            ∧ named nm (items (show_events s1)) = named nm (items (show_events s))
            ∧ build_events s1 = build_events s
            ∧ (∀ e, out = Raise e ∨ out = Blocks → True)) as (out & s1 & Hp & Hn1 & Hb1 & _).
  { unfold publish_one. simpl. destruct (normalise kw o) as [e|o']; simpl.
    - by eexists _, _.
    - eexists _, _. split; [done|]. split; [|done]. simpl.
      rewrite named_app. unfold named at 2.
      by rewrite filter_cons, decide_False, app_nil_r. }
  rewrite Hp. destruct (IH s1) as [Hnamed Hbuild].
  destruct out as [[]|e|]; simpl; [|done..].
  by rewrite Hnamed, Hbuild.
Qed.

Lemma show_keeps_name nm objs names kw (st : YACV) :
  state_ok st → leaves_name nm (CallShow objs names kw) st →
  named nm (items (show_events (show objs names kw st).2))
  = named nm (items (show_events st))
  ∧ build_events (show objs names kw st).2 !! nm = build_events st !! nm.
Proof.
  intros Hok [Hac Hout].
  destruct (resolve_names_returns objs names st) as (ns & st0 & Hrun & Hs & Hb & _).
  rewrite Hrun in Hout. simpl in Hout.
  assert (state_ok st0) as Hok0 by by apply (state_ok_frame st).
  destruct (drop_loop_effect ns st0 Hok0) as (Hitems & _ & _ & Hmiss).
  destruct (publish_loop_keeps_name nm kw (zip objs ns)
              (foldl (drop_state ns) st0 (items (show_events st0))))
    as [Hnamed Hbuild].
  { apply Forall_forall. intros [o n] Hin Heq. simpl in Heq. subst n.
    apply Hout. by apply (elem_of_zip_r _ _ _ _ Hin). }
  rewrite Hitems, named_filter_out in Hnamed by done.
  assert (build_events
            (for_each (zip objs ns) (publish_one kw)
               (foldl (drop_state ns) st0 (items (show_events st0)))).2 !! nm
          = build_events st !! nm) as Hlookup
    by by rewrite Hbuild, (Hmiss nm Hout), Hb.
  clear Hbuild.
  assert (show objs names kw st
          = if bool_decide (length ns = length objs)
            then match for_each (zip objs ns) (publish_one kw)
                         (foldl (drop_state ns) st0 (items (show_events st0))) with
                 | (Ret _, s2) => (Ret tt, logger INFO "show %s took %.3f seconds" s2)
                 | (Raise e, s2) => (Raise e, s2)
                 | (Blocks, s2) => (Blocks, s2)
                 end
            else (Raise (AssertionError "Number of names must match the number of objects"),
                  st0)) as Hshow.
  { unfold show. rewrite (bind_returns _ _ _ _ _ Hrun).
    destruct (bool_decide (length ns = length objs)); [|done].
    rewrite bind_run. simpl. rewrite Hac. rewrite bind_run. simpl.
    rewrite bind_run. unfold get at 1. rewrite bind_run, drop_loop_run.
    unfold PubSub.buffer. rewrite bind_run.
    by destruct (for_each (zip objs ns) (publish_one kw) _) as [[[]|e|] s2]. }
  rewrite Hshow. clear Hshow. destruct (bool_decide (length ns = length objs)).
  - destruct (for_each (zip objs ns) (publish_one kw)
                (foldl (drop_state ns) st0 (items (show_events st0))))
      as [[[]|e|] s2]; cbn [snd] in Hnamed, Hlookup; rewrite Hs in Hnamed;
      (split; [etrans; [|exact Hnamed]|etrans; [|exact Hlookup]]; reflexivity).
  - cbn [snd]. by rewrite Hs, Hb.
Qed.

Lemma remove_keeps_name nm n (st : YACV) :
  state_ok st → n ≠ nm →
  named nm (items (show_events (remove n st).2)) = named nm (items (show_events st))
  ∧ build_events (remove n st).2 !! nm = build_events st !! nm.
Proof.
  intros Hok Hne.
  destruct (remove_effect n st Hok) as (_ & _ & Hfil & Hbuild & _).
  split.
  - unfold named. apply Hfil. intros e He. congruence.
  - rewrite Hbuild. by apply lookup_delete_ne.
Qed.

Lemma clear_keeps_name nm except_names (st : YACV) :
  state_ok st → nm ∈ default [] except_names →
  named nm (items (show_events (clear except_names st).2))
  = named nm (items (show_events st))
  ∧ build_events (clear except_names st).2 !! nm = build_events st !! nm.
Proof.
  intros Hok Hin.
  destruct (clear_effect except_names st Hok) as (st' & Hrun & _ & Hfil & Hbuild & _).
  rewrite Hrun. cbn [snd]. split; [|by apply Hbuild].
  rewrite <- (named_filter_in (default [] except_names) nm (items (show_events st')))
    by done.
  rewrite Hfil. by apply named_filter_in.
Qed.

Lemma export_keeps_name nm n topic (st : YACV) :
  build_events st !! nm = Some topic →
  named nm (items (show_events (export n st).2)) = named nm (items (show_events st))
  ∧ build_events (export n st).2 !! nm = Some topic.
Proof.
  intros Hhit. destruct (export_frame n st) as (Hs & Hb & _).
  split; [by rewrite Hs|].
  destruct (decide (nm = n)) as [<-|Hne]; [|by rewrite Hb].
  destruct (last (_show_events nm true st)) as [event|] eqn:Hlast.
  - by rewrite (export_cached _ _ _ _ Hlast Hhit).
  - apply last_None in Hlast. by rewrite (export_not_found _ _ Hlast).
Qed.

Lemma run_call_keeps_name nm (c : Call) topic (s : YACV) :
  state_ok s → leaves_name nm c s →
  build_events s !! nm = Some topic →
  named nm (items (show_events (run_call c s))) = named nm (items (show_events s))
  ∧ build_events (run_call c s) !! nm = Some topic.
Proof.
  intros Hok Hleave Hhit.
  destruct c as [objs names kw|n|ex|n|ar|created|args]; unfold run_call.
  - destruct (show_keeps_name nm objs names kw s Hok Hleave) as [Hn Hb].
    by rewrite Hn, Hb.
  - destruct (remove_keeps_name nm n s Hok Hleave) as [Hn Hb]. by rewrite Hn, Hb.
  - destruct (clear_keeps_name nm ex s Hok Hleave) as [Hn Hb]. by rewrite Hn, Hb.
  - by apply export_keeps_name.
  - done.
  - destruct (start_frame created s) as (Hs & Hb & _). by rewrite Hs, Hb.
  - destruct (stop_frame args s) as (Hs & Hb & _). by rewrite Hs, Hb.
Qed.

Lemma run_calls_keep_name nm (calls : list Call) topic (s : YACV) :
  reachable s → leave_name nm calls s →
  build_events s !! nm = Some topic →
  named nm (items (show_events (run_calls calls s))) = named nm (items (show_events s))
  ∧ build_events (run_calls calls s) !! nm = Some topic.
Proof.
  unfold run_calls. revert s.
  induction calls as [|c calls IH]; intros s Hr Hleave Hhit; [done|].
  destruct Hleave as [Hc Hrest]. simpl.
  destruct (run_call_keeps_name nm c topic s (reachable_state_ok s Hr) Hc Hhit)
    as [Hn Hb].
  destruct (IH (run_call c s) (run_call_reachable c s Hr) Hrest Hb) as [Hn' Hb'].
  split; [congruence|done].
Qed.

(** In well-formed logs the current events of a name depend on the events
    of that name only. *)
Lemma _show_events_by_named nm (s s' : YACV) :
  state_ok s → state_ok s' →
  named nm (items (show_events s')) = named nm (items (show_events s)) →
  _show_events nm true s' = _show_events nm true s.
Proof.
  intros Hok Hok' Hn.
  assert (∀ buf : list UpdatesApiFullData,
            named nm (filter (λ e, is_remove e = false) buf)
            = filter (λ e, is_remove e = false) (named nm buf)) as Hcomm.
  { intros buf. unfold named. rewrite !list_filter_filter.
    apply list_filter_iff. intros e. tauto. }
  by rewrite !_show_events_live_named, !Hcomm, Hn.
Qed.

(** *** The claims on the build cache and on [show] *)

(** C3 (as amended). For every reachable state and every name whose latest
    current event is [event] and that has no cache entry, the first
    [export] creates the entry and calls the build function exactly once
    when the payload is a CAD object and not at all when it is raw bytes;
    it returns the built bytes, the raw bytes, or raises what the build
    raised.  Once it has returned [data], after any sequence of calls none
    of which shows or removes the name, [export] of the name returns
    [data] again and changes nothing: no build call, no new entry. *)
Theorem C3_export_builds_once_then_reuses (nm : string) (st : YACV)
    (event : UpdatesApiFullData) :
  reachable st →
  last (_show_events nm true st) = Some event →
  build_events st !! nm = None →
  tessellate_calls (export nm st).2
  = tessellate_calls st
    ++ match obj event with
       | ObjCAD c => [tessellate_call c (kwargs event)]
       | ObjBytes _ => []
       end
  ∧ is_Some (build_events (export nm st).2 !! nm)
  ∧ (export nm st).1
    = match obj event with
      | ObjBytes b => Ret (Some b)
      | ObjCAD c =>
          match run_tessellate (tessellate_call c (kwargs event)) with
          | inl e => Raise e
          | inr gltf => Ret (Some (concat (save_to_bytes gltf)))
          end
      end
  ∧ ∀ data, (export nm st).1 = Ret (Some data) →
      ∀ calls, leave_name nm calls (export nm st).2 →
        export nm (run_calls calls (export nm st).2)
        = (Ret (Some data), run_calls calls (export nm st).2).
Proof.
  intros Hr Hlast Hmiss.
  assert (∀ data,
            build_events (export nm st).2 !! nm = Some {| items := [data] |} →
            ∀ calls, leave_name nm calls (export nm st).2 →
              export nm (run_calls calls (export nm st).2)
              = (Ret (Some data), run_calls calls (export nm st).2)) as Hagain.
  { intros data Hhit calls Hleave.
    assert (reachable (export nm st).2) as Hr1 by by apply reachable_export.
    destruct (run_calls_keep_name nm calls _ _ Hr1 Hleave Hhit) as [Hn Hb].
    destruct (export_frame nm st) as (Hs & _). rewrite Hs in Hn.
    assert (last (_show_events nm true (run_calls calls (export nm st).2)) = Some event)
      as Hcur.
    { rewrite (_show_events_by_named nm st); [done| |by apply reachable_state_ok, run_calls_reachable|done].
      by apply reachable_state_ok. }
    by rewrite (export_cached _ _ _ _ Hcur Hb). }
  revert Hagain. destruct (obj event) as [b|c] eqn:Hobj.
  - rewrite (export_first_bytes _ _ _ _ Hlast Hmiss Hobj). cbn [fst snd].
    rewrite lookup_publish_build. simpl. rewrite lookup_insert_eq, app_nil_r. simpl.
    intros Hagain. split; [done|]. split; [by eexists|]. split; [done|].
    intros data [= <-]. by apply Hagain.
  - rewrite (export_first_cad _ _ _ _ Hlast Hmiss Hobj).
    destruct (run_tessellate _) as [e|gltf]; cbn [fst snd].
    + simpl. rewrite lookup_insert_eq. intros _.
      split; [done|]. split; [by eexists|]. split; [done|]. by intros data.
    + simpl. rewrite lookup_alter_eq. simpl. rewrite lookup_insert_eq. simpl.
      intros Hagain. split; [done|]. split; [by eexists|]. split; [done|].
      intros data [= <-]. by apply Hagain.
Qed.

(** [show] from the names it resolved: what it leaves in the log and in the
    cache. *)
Lemma show_effect_from objs objs' ns names kw (st st0 : YACV) :
  state_ok st0 → resolve_names objs names st = (Ret ns, st0) →
  length ns = length objs →
  Forall2 (λ o o', normalise kw o = inr o') objs objs' →
  let st' := (show objs names kw st).2 in
  items (show_events st')
  = filter (λ e, name e ∉ ns) (items (show_events (auto_cleared ns kw st0)))
    ++ published kw objs' ns
  ∧ (∀ n, n ∈ ns → build_events st' !! n = None).
Proof.
  intros Hok Hres Hlen Hnorm st'. subst st'.
  rewrite (show_run_from _ _ _ _ _ _ _ Hok Hres Hlen Hnorm). cbn [snd].
  set (st1 := auto_cleared ns kw st0).
  assert (state_ok st1) as Hok1.
  { subst st1. unfold auto_cleared. destruct (auto_clear kw); [|done].
    by destruct (clear_effect (Some ns) st0 Hok) as (s & -> & Hs & _). }
  destruct (drop_loop_effect ns st1 Hok1) as (Hitems & _ & Hnone & _).
  destruct (foldl_publish_show_event (published kw objs' ns)
              (foldl (drop_state ns) st1 (items (show_events st1))))
    as (Hi & Hb & _).
  simpl. by rewrite Hi, Hb, Hitems.
Qed.

(** C4 (as amended). For every [show] whose names, given or found, are
    pairwise distinct and as many as its objects, and whose objects can all
    be normalised, and for every name [nm] among them: the call returns;
    the log then holds what it kept from before, nothing of which carries a
    name of the call, followed by the events of the call; the one event
    published for [nm] is live, the only event of that name in the log and
    the only current one; and no cache entry is left for [nm].  Without
    auto-clearing, what is kept is every earlier event of the other
    names. *)
Theorem C4_show_replaces_event_of_same_name
    (objs : list (ShowObj CADLike)) (objs' : list (YACVSupported CADCoreLike))
    (ns : list string) (names : Names) (kw : gmap string Value) (st : YACV)
    (i : nat) (nm : string) (o' : YACVSupported CADCoreLike) :
  reachable st →
  (resolve_names objs names st).1 = Ret ns → length ns = length objs →
  Forall2 (λ o o', normalise kw o = inr o') objs objs' →
  NoDup ns → ns !! i = Some nm → objs' !! i = Some o' →
  let st' := (show objs names kw st).2 in
  let event := show_event nm o' kw in
  (show objs names kw st).1 = Ret tt
  ∧ (∃ rest,
       PubSub.buffer (show_events st') = rest ++ published kw objs' ns
       ∧ Forall (λ e, name e ∉ ns) rest
       ∧ (auto_clear kw = false →
            rest = filter (λ e, name e ∉ ns) (PubSub.buffer (show_events st))))
  ∧ named nm (PubSub.buffer (show_events st')) = [event]
  ∧ _show_events nm true st' = [event]
  ∧ is_remove event = false
  ∧ build_events st' !! nm = None.
Proof.
  intros Hr Hres Hlen Hnorm Hnd Hn Ho st' event. apply reachable_state_ok in Hr.
  destruct (resolve_names_returns objs names st) as (ns0 & st0 & Hrun & Hs & Hb & _).
  rewrite Hrun in Hres. injection Hres as ->.
  assert (state_ok st0) as Hok0 by by apply (state_ok_frame st).
  destruct (show_effect_from objs objs' ns names kw st st0 Hok0 Hrun Hlen Hnorm)
    as (Hitems & Hnone).
  destruct (show_current_from objs objs' ns names kw st st0 i nm o'
              Hok0 Hrun Hlen Hnorm Hnd Hn Ho) as (Hret & Hnamed & Hcur).
  fold st' in Hitems, Hnone, Hnamed, Hcur. fold event in Hnamed, Hcur.
  unfold PubSub.buffer.
  split; [done|]. split; [|split; [done|split; [done|split; [done|]]]].
  - eexists. split; [exact Hitems|]. split.
    + apply Forall_forall. intros e He. by apply list_elem_of_filter in He as [? _].
    + intros Hac. unfold auto_cleared. by rewrite Hac, Hs.
  - apply Hnone. by apply list_elem_of_lookup_2 in Hn.
Qed.

End CacheAndShowClaims.

(** ** More properties of [server.py] *)

Section MoreServerProofs.
Context `{Collaborators}.
Variable rotate_y_up : CADCoreLike → CADCoreLike.


(** *** The [show] family of [Server] *)

Lemma list_find_app_is_Some {A} (P : A → Prop) `{∀ x, Decision (P x)} (l1 l2 : list A) :
  is_Some (list_find P l1) → list_find P (l1 ++ l2) = list_find P l1.
Proof.
  intros [[i x] Hf]. rewrite Hf. apply list_find_app_Some. by left.
Qed.

Lemma list_find_last_is_Some {A} (P : A → Prop) `{∀ x, Decision (P x)} (l : list A) x :
  P x → is_Some (list_find P (l ++ [x])).
Proof.
  intros Hx. destruct (list_find P (l ++ [x])) eqn:Hf; [by eexists|].
  apply list_find_None in Hf. rewrite Forall_forall in Hf.
  destruct (Hf x); [|done]. apply elem_of_app. right. left.
Qed.

Lemma Server_show_cad_shape s name kw (ss : ServerState) :
  Server_show_cad rotate_y_up (IsShape s) name kw ss
  = (Ret tt,
     (Server__show_common name (_hashcode (ObjCAD (rotate_y_up s)) kw)
        (Some (rotate_y_up s)) kw ss).2).
Proof. done. Qed.

(** X14. A glTF shown through [Server.show] can be fetched back: whatever
    the state and the name (given, empty or missing), [export] of the name
    it was published under returns exactly the bytes shown, and changes
    nothing. *)
Theorem Server_show_gltf_then_export (gltf : bytes) (name : option string)
    (kw : gmap string Value) (ss : ServerState) :
  let ss' := (Server_show rotate_y_up (inl gltf) name kw ss).2 in
  (Server_show rotate_y_up (inl gltf) name kw ss).1 = Ret tt
  ∧ (ServerState_export (shown_name name ss) ss').1 = Ret gltf
  ∧ Server_shared (ServerState_export (shown_name name ss) ss').2 = Server_shared ss'.
Proof.
  simpl. unfold ServerState_export, Server_export. simpl.
  unfold PubSub.buffer. simpl.
  destruct (list_find_last_is_Some (λ data, data_name data = shown_name name ss)
              (items (Server_show_events (Server_shared ss)))
              {| data_name := shown_name name ss;
                 data_hash := _hashcode (ObjBytes gltf) kw;
                 data_obj := None; data_kwargs := Some kw |} eq_refl) as [found Hf].
  rewrite Hf. by rewrite lookup_insert_eq.
Qed.

(** X15. [Server.show_cad] never touches what [export] serves: for a name
    that has been shown before, [export] after the call has the outcome it
    had before it, whatever object was shown and under whatever name.  So a
    CAD object shown under the name of an earlier glTF leaves [export]
    returning the old glTF. *)
Theorem Server_show_cad_keeps_export (o : PyObject CADCoreLike) (name : option string)
    (kw : gmap string Value) (nm : string) (ss : ServerState) :
  is_Some (list_find (λ data, data_name data = nm)
             (PubSub.buffer (Server_show_events (Server_shared ss)))) →
  let ss' := (Server_show_cad rotate_y_up o name kw ss).2 in
  Server_object_events (Server_shared ss') = Server_object_events (Server_shared ss)
  ∧ (ServerState_export nm ss').1 = (ServerState_export nm ss).1.
Proof.
  intros Hshown. unfold Server_show_cad. destruct (probe o) as [s|? ? ? ?]; [|done].
  simpl. split; [done|].
  unfold ServerState_export, Server_export. simpl. unfold PubSub.buffer in *. simpl.
  rewrite (list_find_app_is_Some _ _ _ Hshown).
  destruct Hshown as [found ->].
  by destruct (Server_object_events (Server_shared ss) !! nm).
Qed.

(** X16. [Server.export] never delivers a CAD object: after a successful
    [show_cad] under a name without a cache entry, [export] of that name
    stores an empty entry and waits on it, and so does every later
    [export] of the name. *)
Theorem Server_export_of_cad_never_returns (o : PyObject CADCoreLike) (s : CADCoreLike)
    (name : option string) (kw : gmap string Value) (ss : ServerState) :
  probe o = IsShape s →
  Server_object_events (Server_shared ss) !! shown_name name ss = None →
  let nm := shown_name name ss in
  let ss1 := (Server_show_cad rotate_y_up o name kw ss).2 in
  let ss2 := (ServerState_export nm ss1).2 in
  (Server_show_cad rotate_y_up o name kw ss).1 = Ret tt
  ∧ (ServerState_export nm ss1).1 = Blocks
  ∧ Server_object_events (Server_shared ss2) !! nm = Some PubSub.new
  ∧ (ServerState_export nm ss2).1 = Blocks
  ∧ Server_shared (ServerState_export nm ss2).2 = Server_shared ss2.
Proof.
  intros Hprobe Hnone. unfold Server_show_cad. rewrite Hprobe. simpl.
  unfold ServerState_export, Server_export. simpl. unfold PubSub.buffer. simpl.
  destruct (list_find_last_is_Some (λ data, data_name data = shown_name name ss)
              (items (Server_show_events (Server_shared ss)))
              {| data_name := shown_name name ss;
                 data_hash := _hashcode (ObjCAD (rotate_y_up s)) kw;
                 data_obj := Some (rotate_y_up s); data_kwargs := Some kw |} eq_refl)
    as [found Hf].
  rewrite Hf, Hnone. simpl. rewrite Hf. simpl. by rewrite lookup_insert_eq.
Qed.

Lemma unwrap_wrapped_in n (o : PyObject CADCoreLike) :
  unwrap (wrapped_in n o) = unwrap o.
Proof. induction n as [|n IH]; [done|]. simpl. exact IH. Qed.

(** X17. [show_cad] looks through wrappers: an object that reaches a shape
    through any number of [wrapped] attributes is shown exactly as that
    shape is.  Behind a first wrapper only [wrapped] is followed: the
    attributes [part], [sketch] and [line] of a wrapped object are not
    looked at. *)
Theorem Server_show_cad_through_wrappers (n : nat) (o : PyObject CADCoreLike)
    (s : CADCoreLike) (name : option string) (kw : gmap string Value) (ss : ServerState) :
  Server_show_cad rotate_y_up (wrapped_in n (IsShape s)) name kw ss
  = Server_show_cad rotate_y_up (IsShape s) name kw ss
  ∧ probe (wrapped_in (S n) o) = unwrap o
  ∧ (unwrap o = IsShape s →
     Server_show_cad rotate_y_up (wrapped_in (S n) o) name kw ss
     = Server_show_cad rotate_y_up (IsShape s) name kw ss).
Proof.
  assert (probe (wrapped_in (S n) o) = unwrap o) as Hprobe.
  { simpl. apply unwrap_wrapped_in. }
  split; [|split; [done|]].
  - unfold Server_show_cad. destruct n as [|n]; [done|].
    simpl. by rewrite unwrap_wrapped_in.
  - intros Hs. unfold Server_show_cad. by rewrite Hprobe, Hs.
Qed.

Lemma Server_show_counter any_object name kw (ss : ServerState) :
  Server_obj_counter ss ≤ Server_obj_counter (Server_show rotate_y_up any_object name kw ss).2
  ∧ ((Server_show rotate_y_up any_object name kw ss).1 = Ret tt →
     Server_obj_counter (Server_show rotate_y_up any_object name kw ss).2
     = S (Server_obj_counter ss)).
Proof.
  destruct any_object as [gltf|o]; simpl.
  - split; [lia|done].
  - unfold Server_show_cad. destruct (probe o); simpl; [split; [lia|done]|].
    split; [lia|done].
Qed.

Lemma Server_shows_counter calls (ss : ServerState) :
  Server_obj_counter ss ≤ Server_obj_counter (Server_shows rotate_y_up calls ss).
Proof.
  unfold Server_shows. revert ss. induction calls as [|c calls IH]; intros ss; [done|].
  simpl. etrans; [|apply IH]. apply Server_show_counter.
Qed.

(** X18. A generated name is never generated again: every [show] that
    returns, named or not, advances the object counter by one, no [show]
    lowers it, and so after a returned [show] and any further calls the
    name an unnamed object would get differs from the one it would have
    got before. *)
Theorem Server_generated_names_are_fresh (any_object : bytes + PyObject CADCoreLike)
    (name : option string) (kw : gmap string Value)
    (calls : list ((bytes + PyObject CADCoreLike) * option string * gmap string Value))
    (ss : ServerState) :
  (Server_show rotate_y_up any_object name kw ss).1 = Ret tt →
  let ss' := Server_shows rotate_y_up calls (Server_show rotate_y_up any_object name kw ss).2 in
  Server_obj_counter ss < Server_obj_counter ss'
  ∧ shown_name None ss' ≠ shown_name None ss
  ∧ shown_name (Some "") ss' ≠ shown_name None ss.
Proof.
  intros Hret ss'.
  assert (Server_obj_counter ss < Server_obj_counter ss') as Hlt.
  { subst ss'. eapply Nat.lt_le_trans; [|apply Server_shows_counter].
    destruct (Server_show_counter any_object name kw ss) as [_ Hs].
    rewrite (Hs Hret). lia. }
  split; [done|].
  assert (shown_name None ss' ≠ shown_name None ss) as Hne.
  { simpl. intros Heq. injection Heq as Heq. apply pretty_nat_inj in Heq. lia. }
  done.
Qed.

End MoreServerProofs.

(** ** The claims on concrete runs *)

#[local] Existing Instance sample.


(** C1, on the log left by [show] then [remove] of ["A"], and on a server
    that has shown ["B"] only. *)
Lemma C1_export_not_found_witness :
  export "A" (remove "A" (show [sample_bytes [x01]] (OneName "A") ∅ sample_init).2).2
  = (Ret None,
     logger WARNING "Object %s not found"
       (remove "A" (show [sample_bytes [x01]] (OneName "A") ∅ sample_init).2).2)
  ∧ Server_export "A" sample_server
    = (Raise (HTTPNotFound "No object named A was previously shown"), sample_server).
Proof.
  apply (C1_export_not_found "A").
  - vm_compute. repeat constructor.
  - vm_compute. repeat constructor. discriminate.
Defined.

(** C2. After [show(b'\x01', names='A')] and [remove('A')] the names query
    raises [ValueError]; before the removal it returned [['A']]. *)
Theorem C2_names_query_raises_after_remove :
  (shown_object_names true (show [sample_bytes [x01]] (OneName "A") ∅ sample_init).2).1
  = Ret ["A"]
  ∧ (shown_object_names true
       (remove "A" (show [sample_bytes [x01]] (OneName "A") ∅ sample_init).2).2).1
    = Raise (ValueError "list.remove(x): x not in list").
Proof. split; vm_compute; reflexivity. Qed.

(** C3 as stated fails in two ways.  On raw bytes the name is current, the
    cache has no entry, the first [export] returns, and the build function
    has not been called once but never.  On a CAD object whose build raises
    there is no first result, and the next [export] returns nothing: it
    waits on the empty entry. *)
Lemma C3_counterexample :
  _show_events "A" true (show [sample_bytes [x01]] (OneName "A") ∅ sample_init).2 ≠ []
  ∧ build_events (show [sample_bytes [x01]] (OneName "A") ∅ sample_init).2 !! "A" = None
  ∧ (export "A" (show [sample_bytes [x01]] (OneName "A") ∅ sample_init).2).1 = Ret (Some [x01])
  ∧ tessellate_calls (export "A" (show [sample_bytes [x01]] (OneName "A") ∅ sample_init).2).2 = []
  ∧ (export "x" (show [sample_cad 13] (OneName "x") ∅ sample_init).2).1
    = Raise (ExternalError "tessellation failed")
  ∧ (export "x" (export "x" (show [sample_cad 13] (OneName "x") ∅ sample_init).2).2).1
    = Blocks.
Proof. split; [vm_compute; discriminate|]. repeat split; vm_compute; reflexivity. Qed.

(** C3 as amended, on CAD object number 3 shown as ["x"] beside ["y"]: one
    build call, and the same bytes again after an [export] and a [remove]
    of ["y"], a [show] of ["z"] that does not clear, and another [export]
    of ["x"]. *)
Lemma C3_export_builds_once_then_reuses_witness :
  length (tessellate_calls (export "x" sample_two).2)
  = S (length (tessellate_calls sample_two))
  ∧ export "x" (run_calls sample_calls (export "x" sample_two).2)
    = (Ret (Some [x67; x6c; x54; x46; x00; x00; x00]),
       run_calls sample_calls (export "x" sample_two).2).
Proof.
  destruct (C3_export_builds_once_then_reuses "x" sample_two
              (show_event "x" (sample_core 3) ∅))
    as (Hcalls & _ & _ & Hagain).
  - apply reachable_show, reachable_init.
  - vm_compute. reflexivity.
  - vm_compute. reflexivity.
  - split.
    + rewrite Hcalls. vm_compute. reflexivity.
    + apply Hagain; [vm_compute; reflexivity|].
      split; [exact I|]. split; [discriminate|]. split; [|split; exact I].
      split; [vm_compute; reflexivity|].
      intros Hin. apply list_elem_of_singleton in Hin. discriminate Hin.
Defined.

(** C4 as stated fails where one call names two objects alike: both events
    stay live and current under the name, whether the names are given or,
    for objects shown without names, found. *)
Lemma C4_counterexample :
  (show [sample_cad 3; sample_cad 5] (ManyNames ["x"; "x"]) ∅ sample_init).1 = Ret tt
  ∧ _show_events "x" true
      (show [sample_cad 3; sample_cad 5] (ManyNames ["x"; "x"]) ∅ sample_init).2
    = [show_event "x" (sample_core 3) ∅; show_event "x" (sample_core 5) ∅]
  ∧ (show [sample_cad 3; sample_cad 5] NoNames ∅ sample_init).1 = Ret tt
  ∧ _show_events "obj" true (show [sample_cad 3; sample_cad 5] NoNames ∅ sample_init).2
    = [show_event "obj" (sample_core 3) ∅; show_event "obj" (sample_core 5) ∅].
Proof. repeat split; vm_compute; reflexivity. Qed.

(** C4 as amended, on a [show] of two objects as ["A"] and ["B"] after
    ["A"] was shown with other content. *)
Lemma C4_show_replaces_event_of_same_name_witness :
  _show_events "A" true
    (show [sample_cad 5; sample_cad 7] (ManyNames ["A"; "B"]) ∅
       (show [sample_cad 3] (OneName "A") ∅ sample_init).2).2
  = [show_event "A" (sample_core 5) ∅]
  ∧ build_events
      (show [sample_cad 5; sample_cad 7] (ManyNames ["A"; "B"]) ∅
         (show [sample_cad 3] (OneName "A") ∅ sample_init).2).2
    !! "A" = None.
Proof.
  destruct (C4_show_replaces_event_of_same_name
              [sample_cad 5; sample_cad 7] [sample_core 5; sample_core 7]
              ["A"; "B"] (ManyNames ["A"; "B"]) ∅
              (show [sample_cad 3] (OneName "A") ∅ sample_init).2
              0 "A" (sample_core 5))
    as (_ & _ & _ & Hcur & _ & Hnone).
  - apply reachable_show, reachable_init.
  - reflexivity.
  - reflexivity.
  - repeat constructor.
  - apply NoDup_cons. split; [|apply NoDup_singleton].
    intros Hin. apply list_elem_of_singleton in Hin. discriminate.
  - reflexivity.
  - reflexivity.
  - split; [exact Hcur | exact Hnone].
Defined.

(** C5, on the removal of a name shown once. *)
Lemma C5_remove_current_name_witness :
  ∃ latest,
    PubSub.buffer (show_events (remove "A" (show [sample_cad 3] (OneName "A") ∅ sample_init).2).2)
    = [with_is_remove true latest]
    ∧ hash latest = "cad3".
Proof.
  destruct (C5_remove_current_name "A" (show [sample_cad 3] (OneName "A") ∅ sample_init).2)
    as (latest & Hlast & _ & _ & _ & Hbuf & _).
  - apply reachable_show, reachable_init.
  - vm_compute. discriminate.
  - exists latest. split.
    + rewrite Hbuf. reflexivity.
    + vm_compute in Hlast. injection Hlast as <-. reflexivity.
Defined.

(** C6 as stated fails on a fresh server: nothing was shown as ["A"], and
    [remove] returns instead of raising. *)
Lemma C6_counterexample :
  Forall (λ e, name e ≠ "A") (PubSub.buffer (show_events sample_init))
  ∧ (remove "A" sample_init).1 = Ret tt
  ∧ ∀ e, (remove "A" sample_init).1 ≠ Raise e.
Proof. split; [constructor|]. split; [reflexivity|]. intros e. discriminate. Qed.

(** C6 as amended, on a log that holds another name. *)
Lemma C6_remove_unknown_name_is_silent_witness :
  remove "A" (show [sample_cad 3] (OneName "B") ∅ sample_init).2
  = (Ret tt, (show [sample_cad 3] (OneName "B") ∅ sample_init).2).
Proof.
  apply C6_remove_unknown_name_is_silent.
  vm_compute. repeat constructor. discriminate.
Defined.

(** C7, on a fresh server whose socket binds, and on a second [start]. *)
Lemma C7_start_guard_and_wait_witness :
  (start (inr {| server_name := "localhost"; server_port := 32323 |}) sample_init).1 = Ret tt
  ∧ ∃ msg,
      (start (inr {| server_name := "localhost"; server_port := 32323 |})
         (start (inr {| server_name := "localhost"; server_port := 32323 |}) sample_init).2).1
      = Raise (AssertionError msg).
Proof.
  split.
  - destruct (C7_start_guard_and_wait
                (inr {| server_name := "localhost"; server_port := 32323 |}) sample_init)
      as (_ & Hspawn & _).
    destruct (Hspawn eq_refl eq_refl) as (st1 & _ & _ & _ & _ & st2 & -> & _).
    reflexivity.
  - destruct (C7_start_guard_and_wait
                (inr {| server_name := "localhost"; server_port := 32323 |})
                (start (inr {| server_name := "localhost"; server_port := 32323 |}) sample_init).2)
      as (Hguard & _).
    destruct Hguard as [msg ->]; [left; vm_compute; discriminate|].
    by exists msg.
Defined.

(** C8, on a server that was never started. *)
Lemma C8_stop_when_not_running_witness :
  stop [SIGTERM] sample_init
  = (Ret tt, logger ERROR "Cannot stop server because it is not running" sample_init).
Proof. apply (C8_stop_when_not_running [SIGTERM] sample_init). reflexivity. Defined.

(** C9, on a log with two live names, clearing all but ["A"]. *)
Lemma C9_clear_removes_all_but_excepted_witness :
  ∃ st',
    clear (Some ["A"])
      (show [sample_cad 3; sample_cad 5] (ManyNames ["A"; "B"]) ∅ sample_init).2 = (Ret tt, st')
    ∧ _show_events "B" true st' = []
    ∧ named "A" (PubSub.buffer (show_events st')) = [show_event "A" (sample_core 3) ∅].
Proof.
  destruct (C9_clear_removes_all_but_excepted ["A"]
              (show [sample_cad 3; sample_cad 5] (ManyNames ["A"; "B"]) ∅ sample_init).2)
    as (st' & Hrun & Hfold & Hgone & _).
  - apply reachable_show, reachable_init.
  - exists st'. split; [exact Hrun|]. split.
    + apply Hgone. vm_compute. intros Hin. inversion Hin as [|? ? ? Hin']. inversion Hin'.
    + rewrite Hfold. vm_compute. reflexivity.
Defined.

(** C10, on one byte shown as ["A"] on a fresh server. *)
Lemma C10_show_bytes_then_export_is_identity_witness :
  (export "A" (show [sample_bytes [x2a]] (OneName "A") ∅ sample_init).2).1 = Ret (Some [x2a])
  ∧ tessellate_calls (export "A" (show [sample_bytes [x2a]] (OneName "A") ∅ sample_init).2).2 = [].
Proof.
  destruct (C10_show_bytes_then_export_is_identity "A" (OneName "A") [x2a] ∅
              sample_init) as (_ & Hexport & Hcalls).
  - apply reachable_init.
  - left. exists "A". split; [reflexivity|]. split; [discriminate | reflexivity].
  - split; [exact Hexport | exact Hcalls].
Defined.

(** ** Edge cases worth knowing *)

(** Two objects shown under one name in one call both stay in the log, and
    [export] builds the later one. *)
Remark show_same_name_twice_in_one_call :
  _show_events "x" true
    (show [sample_cad 3; sample_cad 5] (ManyNames ["x"; "x"]) ∅ sample_init).2
  = [show_event "x" (sample_core 3) ∅; show_event "x" (sample_core 5) ∅]
  ∧ map call_obj
      (tessellate_calls
         (export "x"
            (show [sample_cad 3; sample_cad 5] (ManyNames ["x"; "x"]) ∅ sample_init).2).2)
    = [5].
Proof. split; vm_compute; reflexivity. Qed.

(** On a log that no sequence of calls produces, with two live events ahead
    of their tombstone, the inner loop of [_show_events] removes under its
    own iterator and the second event survives. *)
Remark _show_events_skips_while_removing :
  _show_events_of "x" true
    [show_event "x" (sample_core 3) ∅; show_event "x" (sample_core 5) ∅;
     with_is_remove true (show_event "x" (sample_core 5) ∅)]
  = [show_event "x" (sample_core 5) ∅].
Proof. vm_compute. reflexivity. Qed.

(** The empty string given as [names] is falsy: the object is shown under
    the name [_find_var_name] finds for it, and nothing is current under
    [""]. *)
Remark show_under_empty_string :
  map name
    (PubSub.buffer (show_events (show [sample_bytes [x01]] (OneName "") ∅ sample_init).2))
  = ["obj"]
  ∧ (export "" (show [sample_bytes [x01]] (OneName "") ∅ sample_init).2).1 = Ret None.
Proof. split; vm_compute; reflexivity. Qed.

(** A build that raises leaves its empty topic in the cache: the next
    [export] of the name waits on it. *)
Remark export_after_failed_build :
  (export "x" (show [sample_cad 13] (OneName "x") ∅ sample_init).2).1
  = Raise (ExternalError "tessellation failed")
  ∧ (export "x" (export "x" (show [sample_cad 13] (OneName "x") ∅ sample_init).2).2).1
    = Blocks.
Proof. split; vm_compute; reflexivity. Qed.

(** ** The further properties on concrete runs *)

Lemma sample_shown_reachable : reachable sample_shown.
Proof. apply reachable_show, reachable_init. Qed.

Lemma sample_removed_reachable : reachable sample_removed.
Proof. apply reachable_remove, sample_shown_reachable. Qed.

(** X1, on CAD object number 3 shown as ["A"]. *)
Lemma export_returns_build_of_current_event_witness :
  (export "A" sample_shown).1 = Ret (Some [x67; x6c; x54; x46; x00; x00; x00]).
Proof.
  destruct (export_returns_build_of_current_event "A" sample_shown
              (show_event "A" (sample_core 3) ∅)) as (Hbuild & _).
  - apply sample_shown_reachable.
  - vm_compute. reflexivity.
  - apply Hbuild. vm_compute. reflexivity.
Defined.

(** X2, on the log left by [show] then [remove] of ["A"]. *)
Lemma shown_object_names_returns_iff_no_tombstone_witness :
  shown_object_names false sample_removed
  = (Ret (name <$> PubSub.buffer (show_events sample_removed)), sample_removed)
  ∧ shown_object_names true sample_removed
    = (Raise (ValueError "list.remove(x): x not in list"), sample_removed).
Proof.
  destruct (shown_object_names_returns_iff_no_tombstone sample_removed)
    as (Hall & _ & Hraise).
  - apply sample_removed_reachable.
  - split; [exact Hall|]. apply Hraise. intros Hlive.
    vm_compute in Hlive. apply Forall_inv in Hlive. discriminate Hlive.
Defined.

(** X3, on ["A"] shown once. *)
Lemma remove_twice_is_remove_once_witness :
  remove "A" (remove "A" sample_shown).2 = (Ret tt, (remove "A" sample_shown).2).
Proof. apply remove_twice_is_remove_once, sample_shown_reachable. Defined.

(** X4, on a started server stopped by SIGTERM and then by the exit hook. *)
Lemma stop_then_stop_witness :
  (stop [SIGTERM] sample_started).1 = Raise (SystemExit 0)
  ∧ server_thread (stop [SIGTERM] sample_started).2 = None
  ∧ stop [] (stop [SIGTERM] sample_started).2
    = (Ret tt,
       logger ERROR "Cannot stop server because it is not running"
         (stop [SIGTERM] sample_started).2).
Proof.
  destruct (stop_then_stop [SIGTERM] [] ThreadServing sample_http sample_started
              eq_refl eq_refl) as (Hout & Hthread & _ & _ & _ & _ & Hagain).
  split; [exact Hout|]. split; [exact Hthread | exact Hagain].
Defined.

(** X5, with a [stop] and a [show] between the two [start]s. *)
Lemma start_after_start_always_raises_witness :
  ∃ msg,
    start (inr sample_http)
      (run_calls [CallStop []; CallShow [sample_cad 3] (OneName "A") ∅]
         (start (inr sample_http) sample_init).2)
    = (Raise (AssertionError msg),
       run_calls [CallStop []; CallShow [sample_cad 3] (OneName "A") ∅]
         (start (inr sample_http) sample_init).2).
Proof.
  apply start_after_start_always_raises; [apply reachable_init | reflexivity].
Defined.

(** X6, on the first and the second [export] of a CAD object. *)
Lemma only_export_of_uncached_cad_builds_witness :
  length (tessellate_calls (run_call (CallExport "A") sample_shown)) = 1
  ∧ tessellate_calls (run_call (CallExport "A") (run_call (CallExport "A") sample_shown))
    = tessellate_calls (run_call (CallExport "A") sample_shown).
Proof.
  split.
  - rewrite (only_export_of_uncached_cad_builds (CallExport "A") sample_shown)
      by apply sample_shown_reachable.
    vm_compute. reflexivity.
  - rewrite (only_export_of_uncached_cad_builds (CallExport "A")
               (run_call (CallExport "A") sample_shown))
      by apply reachable_export, sample_shown_reachable.
    vm_compute. reflexivity.
Defined.

(** X7, on ["B"] shown over a scene that holds ["A"]. *)
Lemma show_auto_clear_replaces_scene_witness :
  filter (λ e, is_remove e = false)
    (items (show_events (show [sample_cad 5] (OneName "B") ∅ sample_shown).2))
  = [show_event "B" (sample_core 5) ∅]
  ∧ (export "A" (show [sample_cad 5] (OneName "B") ∅ sample_shown).2).1 = Ret None.
Proof.
  destruct (show_auto_clear_replaces_scene [sample_cad 5] [sample_core 5] ["B"]
              (OneName "B") ∅ sample_shown) as (_ & Hlive & _ & Hgone).
  - apply sample_shown_reachable.
  - reflexivity.
  - reflexivity.
  - repeat constructor.
  - reflexivity.
  - split; [exact Hlive|]. rewrite (Hgone "A"); [reflexivity|].
    intros Hin. apply list_elem_of_singleton in Hin. discriminate Hin.
Defined.

(** X8, on a scope with two CAD objects, over a scene that holds ["A"]. *)
Lemma show_cad_all_shows_the_scope_witness :
  (show_cad_all sample_scope ∅ sample_shown).1 = Ret tt
  ∧ filter (λ e, is_remove e = false)
      (items (show_events (show_cad_all sample_scope ∅ sample_shown).2))
    = [show_event "p" (sample_core 3) ∅; show_event "q" (sample_core 5) ∅].
Proof.
  destruct (show_cad_all_shows_the_scope sample_scope sample_scope_cores ∅ sample_shown)
    as (Hret & Hlive & _).
  - apply sample_shown_reachable.
  - repeat constructor.
  - reflexivity.
  - split; [exact Hret | exact Hlive].
Defined.

(** X9, on a CAD object and a byte string shown without names on a fresh
    server. *)
Lemma show_without_names_uses_one_name_witness :
  resolve_names [sample_cad 3; sample_bytes [x01]] NoNames sample_init
  = (Ret ["obj"; "obj"], sample_init)
  ∧ _show_events "obj" true
      (show [sample_cad 3; sample_bytes [x01]] NoNames ∅ sample_init).2
    = [show_event "obj" (sample_core 3) ∅; show_event "obj" (ObjBytes [x01]) ∅]
  ∧ (export "obj" (show [sample_cad 3; sample_bytes [x01]] NoNames ∅ sample_init).2).1
    = Ret (Some [x01]).
Proof.
  destruct (show_without_names_uses_one_name "obj"
              [sample_cad 3; sample_bytes [x01]] [sample_core 3; ObjBytes [x01]] ∅
              sample_init) as (Hnames & _ & _ & Hcur & Hexport).
  - apply reachable_init.
  - discriminate.
  - repeat constructor.
  - repeat constructor.
  - split; [exact Hnames|]. split; [exact Hcur|].
    rewrite (Hexport (ObjBytes [x01])); reflexivity.
Defined.

(** X10, on the log left by [show] then [remove] of ["A"]. *)
Lemma export_all_raises_after_any_remove_witness :
  export_all "out" (λ _ _, true) sample_removed
  = (Raise (ValueError "list.remove(x): x not in list"), sample_removed, [Makedirs "out"]).
Proof.
  apply export_all_raises_after_any_remove.
  - apply sample_removed_reachable.
  - intros Hlive. vm_compute in Hlive. apply Forall_inv in Hlive. discriminate Hlive.
Defined.

(** X11, on a CAD object and a byte string shown as ["a"] and ["b"]. *)
Lemma export_all_writes_latest_builds_witness :
  (export_all "out" (λ _ _, true)
     (show [sample_cad 3; sample_bytes [x01]] (ManyNames ["a"; "b"]) ∅ sample_init).2).2
  = [Makedirs "out";
     OpenFile "out" "a.glb"; WriteFile "out" "a.glb" [x67; x6c; x54; x46; x00; x00; x00];
     OpenFile "out" "b.glb"; WriteFile "out" "b.glb" [x01]].
Proof.
  destruct (export_all_writes_latest_builds "out" (λ _ _, true)
              (show [sample_cad 3; sample_bytes [x01]] (ManyNames ["a"; "b"]) ∅
                 sample_init).2) as (st' & Hrun & _).
  - apply reachable_show, reachable_init.
  - vm_compute. repeat constructor.
  - vm_compute. repeat (constructor; [eexists; reflexivity|]). constructor.
  - rewrite Hrun. vm_compute. reflexivity.
Defined.

(** X12, on a server that has started. *)
Lemma stop_is_never_registered_for_SIGINT_witness :
  signal_handlers sample_started = [SIGTERM]
  ∧ SIGINT ∉ signal_handlers sample_started.
Proof.
  destruct (stop_is_never_registered_for_SIGINT sample_started) as (_ & Hterm & Hint).
  - apply reachable_start, reachable_init.
  - split; [|exact Hint]. apply Hterm. vm_compute. eexists. reflexivity.
Defined.

(** X13, on ["B"] shown over a scene that holds ["A"]. *)
Lemma show_over_other_names_breaks_names_query_witness :
  shown_object_names true (show [sample_cad 5] (OneName "B") ∅ sample_shown).2
  = (Raise (ValueError "list.remove(x): x not in list"),
     (show [sample_cad 5] (OneName "B") ∅ sample_shown).2)
  ∧ export_all "out" (λ _ _, true) (show [sample_cad 5] (OneName "B") ∅ sample_shown).2
    = (Raise (ValueError "list.remove(x): x not in list"),
       (show [sample_cad 5] (OneName "B") ∅ sample_shown).2, [Makedirs "out"]).
Proof.
  destruct (show_over_other_names_breaks_names_query [sample_cad 5] [sample_core 5] ["B"]
              (OneName "B") ∅ (show_event "A" (sample_core 3) ∅) "out" (λ _ _, true)
              sample_shown) as (_ & _ & Hquery & Hall).
  - apply sample_shown_reachable.
  - reflexivity.
  - reflexivity.
  - repeat constructor.
  - reflexivity.
  - vm_compute. constructor.
  - intros Hin. apply list_elem_of_singleton in Hin. discriminate Hin.
  - split; [exact Hquery | exact Hall].
Defined.

(** X15, on a CAD object shown under the name of the glTF ["G"]. *)
Lemma Server_show_cad_keeps_export_witness :
  (ServerState_export "G"
     (Server_show_cad sample_rotate (sample_shape 5) (Some "G") ∅ sample_server_gltf).2).1
  = Ret [x01].
Proof.
  destruct (Server_show_cad_keeps_export sample_rotate (sample_shape 5) (Some "G") ∅ "G"
              sample_server_gltf) as (_ & Hsame).
  - vm_compute. eexists. reflexivity.
  - rewrite Hsame. vm_compute. reflexivity.
Defined.

(** X16, on a builder shown without a name on a server with an empty
    cache. *)
Lemma Server_export_of_cad_never_returns_witness :
  (ServerState_export "object_0"
     (Server_show_cad sample_rotate (sample_builder 3) None ∅ sample_server_state).2).1
  = Blocks.
Proof.
  destruct (Server_export_of_cad_never_returns sample_rotate (sample_builder 3) 3 None ∅
              sample_server_state) as (_ & Hblocks & _).
  - reflexivity.
  - vm_compute. reflexivity.
  - exact Hblocks.
Defined.

(** X18, on a named glTF followed by an unnamed shape. *)
Lemma Server_generated_names_are_fresh_witness :
  Server_obj_counter sample_server_state
  < Server_obj_counter
      (Server_shows sample_rotate [(inr (sample_shape 3), None, ∅)]
         (Server_show sample_rotate (inl [x01]) (Some "G") ∅ sample_server_state).2)
  ∧ shown_name None
      (Server_shows sample_rotate [(inr (sample_shape 3), None, ∅)]
         (Server_show sample_rotate (inl [x01]) (Some "G") ∅ sample_server_state).2)
    ≠ shown_name None sample_server_state.
Proof.
  destruct (Server_generated_names_are_fresh sample_rotate (inl [x01]) (Some "G") ∅
              [(inr (sample_shape 3), None, ∅)] sample_server_state) as (Hlt & Hne & _).
  - reflexivity.
  - split; [exact Hlt | exact Hne].
Defined.
